(** * samaritan_memory: memory lifecycle, score fusion and recall

    A shallow embedding of [samaritan_memory/qdrant.py] and of the [recall]
    branch of [samaritan_memory/server.py].

    The Python code is asynchronous I/O glue around three HTTP services
    (Ollama embeddings, the Qdrant vector index, a vLLM reranker).  The
    embedding keeps the control flow of every function as written and makes
    the outside world explicit:

    - the Qdrant collection is a list of points held in the [world];
    - every interaction with the outside (an HTTP call, [uuid.uuid4()],
      [datetime.now()]) is answered by an [env]ironment indexed by a logical
      event counter, the [tick] of the world, so that any pattern of backend
      failures can be written down and replayed;
    - Python exceptions are the [Raised] outcome of a state-and-error monad;
    - a finite float is the rational it denotes, [+] and [/] on floats round
      as IEEE 754 binary64 does, and [math.exp] is a function of the
      environment;
    - a token of the reranker is the list of its Unicode code points. *)

From Stdlib Require Import List String Ascii Bool Arith PeanoNat NArith ZArith
  QArith Qround Qpower Qabs Permutation Relations DecimalString Lia.
Import ListNotations.
Open Scope string_scope.
Open Scope list_scope.

Set Implicit Arguments.

(** ** Data model *)

(** The [Memory] dataclass; it is also the payload stored with a point
    ([asdict(memory)]), so every key is always present. *)
Record Memory : Type := mkMemory {
  id : string;
  content : string;
  memory_type : string;
  timestamp : string;
  importance : string;
  status : string;
  source : string;
  tags : list string;
  superseded_by : option string;
  supersedes : option string
}.

Definition with_content (c : string) (m : Memory) : Memory :=
  mkMemory (id m) c (memory_type m) (timestamp m) (importance m) (status m)
           (source m) (tags m) (superseded_by m) (supersedes m).

Definition with_status (s : string) (m : Memory) : Memory :=
  mkMemory (id m) (content m) (memory_type m) (timestamp m) (importance m) s
           (source m) (tags m) (superseded_by m) (supersedes m).

Definition with_importance (i : string) (m : Memory) : Memory :=
  mkMemory (id m) (content m) (memory_type m) (timestamp m) i (status m)
           (source m) (tags m) (superseded_by m) (supersedes m).

Definition with_superseded_by (b : string) (m : Memory) : Memory :=
  mkMemory (id m) (content m) (memory_type m) (timestamp m) (importance m)
           (status m) (source m) (tags m) (Some b) (supersedes m).

Definition with_timestamp (t : string) (m : Memory) : Memory :=
  mkMemory (id m) (content m) (memory_type m) t (importance m) (status m)
           (source m) (tags m) (superseded_by m) (supersedes m).

(** A point of the Qdrant collection: [{"id", "vector", "payload"}]. *)
Record point : Type := mkPoint {
  point_id : string;
  vector : list Q;
  payload : Memory
}.

(** A search hit or rerank candidate: the payload spread into a dict with a
    ["score"] key ([doc.get("score", 0.5)] allows it to be absent) and, after
    reranking, a ["rerank_score"] key. *)
Record doc : Type := mkDoc {
  score : option Q;
  fields : Memory;
  rerank_score : option Q
}.

(** Python truthiness of a [str]. *)
Definition truthy (s : string) : bool := negb (String.eqb s EmptyString).

(** Truthiness of an optional [str] argument ([None] and [""] are falsy). *)
Definition truthy_opt (o : option string) : bool :=
  match o with
  | Some s => truthy s
  | None => false
  end.

(** ** Text whose characters matter

    The tokens the reranker returns are compared after [lower()] and
    [strip()], which work on Unicode characters: such a [str] is the list
    of its code points. *)
Definition ustring : Type := list N.

(** A literal of the source, one code point per character. *)
Fixpoint ustr (s : string) : ustring :=
  match s with
  | EmptyString => []
  | String c s' => N_of_ascii c :: ustr s'
  end.

Fixpoint ustring_eqb (x y : ustring) : bool :=
  match x, y with
  | [], [] => true
  | a :: x', b :: y' => N.eqb a b && ustring_eqb x' y'
  | _, _ => false
  end.

(** ** Double-precision arithmetic

    A Python [float] is an IEEE 754 binary64 number: 53 significant bits,
    exponents of the last place from -1074 up, and results rounded to the
    nearest double, ties to even.  Here a finite double is the rational it
    denotes. *)

(** The nearest integer, ties to even. *)
Definition round_half_even (q : Q) : Z :=
  let f := Qfloor q in
  match ((q - inject_Z f) ?= (1 # 2))%Q with
  | Lt => f
  | Gt => (f + 1)%Z
  | Eq => if Z.even f then f else (f + 1)%Z
  end.

(** The integer part of the base-2 logarithm of [|q|], for [q] not zero. *)
Definition binade (q : Q) : Z :=
  let k := (Z.log2 (Z.abs (Qnum q)) - Z.log2 (Zpos (Qden q)))%Z in
  if Qle_bool (Qpower 2 k) (Qabs q) then k else (k - 1)%Z.

(** The exponent of the last place of the double nearest to [q]. *)
Definition ulp_exponent (q : Q) : Z := Z.max (-1074) (binade q - 52).

(** Rounding to 53 significant bits, whatever the magnitude. *)
Definition round_double (q : Q) : Q :=
  if Qeq_bool q 0 then 0%Q
  else let e := ulp_exponent q in
       Qred (inject_Z (round_half_even (q / Qpower 2 e)) * Qpower 2 e).

(** A rounded magnitude of 2^1024 or more is beyond the largest double. *)
Definition finite (q : Q) : bool := negb (Qle_bool (Qpower 2 1024) (Qabs q)).

(** [x + y] on floats; [None] is an infinite result. *)
Definition float_add (x y : Q) : option Q :=
  let r := round_double (x + y) in
  if finite r then Some r else None.

(** [x / y] on floats with [y] not zero, where the quotient is known not to
    overflow. *)
Definition float_div (x y : Q) : Q := round_double (x / y).

(** ** The outside world *)

(** What one HTTP call meets: status 200 with the expected body, another
    status (the service did not carry out the request), or no response at
    all (httpx raises). *)
Inductive reply : Type := Served | Refused | Unreachable.

(** The two HTTP services of the write and search paths. *)
Inductive backend : Type := Ollama | Qdrant.

(** What one completion call to the reranker meets. [Completed] carries
    [choices[0].logprobs.top_logprobs[0]] as its items in dict order, each
    logprob a number;
    [Failed] stands for any exception raised by the call or by the reading
    of its body (transport errors and bodies without the expected keys). *)
Inductive completion : Type :=
| Completed (top_logprobs : list (ustring * Q))
| Rejected
| Failed.

Record env : Type := mkEnv {
  net : backend -> nat -> reply;         (* fate of an HTTP call at a tick *)
  uuid4 : nat -> string;                 (* str(uuid.uuid4()) at a tick *)
  utcnow : nat -> string;                (* datetime.now(utc).isoformat() *)
  embed : string -> list Q;              (* the embedding model *)
  similarity : list Q -> list Q -> Q;    (* the collection's distance *)
  reranker : nat -> string -> completion;(* vLLM answer to a prompt *)
  math_exp : Q -> option Q               (* math.exp: a double that is not
                                            negative; [None] is OverflowError *)
}.

Record world : Type := mkWorld {
  points : list point;
  tick : nat
}.

Inductive exn : Type := TransportError | HTTPStatusError.

Inductive outcome (A : Type) : Type :=
| Returned (a : A)
| Raised (e : exn).
Arguments Raised {A} e.

(** Computations that read and write the world and may raise. *)
Definition M (A : Type) : Type := world -> outcome A * world.

Definition ret {A} (a : A) : M A := fun w => (Returned a, w).

Definition raise {A} (e : exn) : M A := fun w => (Raised e, w).

Definition bind {A B} (m : M A) (k : A -> M B) : M B :=
  fun w =>
    match m w with
    | (Returned a, w') => k a w'
    | (Raised e, w') => (Raised e, w')
    end.

(** [try: m except Exception as e: h e]. *)
Definition try_except {A} (m : M A) (h : exn -> M A) : M A :=
  fun w =>
    match m w with
    | (Returned a, w') => (Returned a, w')
    | (Raised e, w') => h e w'
    end.

Declare Scope monad_scope.
Delimit Scope monad_scope with monad.
Notation "x <- m ;; k" := (bind m (fun x => k))
  (at level 61, m at next level, right associativity) : monad_scope.
Notation "m ;;; k" := (bind m (fun _ => k))
  (at level 61, right associativity) : monad_scope.
Open Scope monad_scope.

Definition bump (w : world) : world := mkWorld (points w) (S (tick w)).

Definition get_points : M (list point) := fun w => (Returned (points w), w).

Definition put_points (ps : list point) : M unit :=
  fun w => (Returned tt, mkWorld ps (tick w)).

(** ** Stable descending sort

    [list.sort(key=..., reverse=True)] is stable: elements with equal keys
    keep their order.  The same ordering is used for the hits of a
    nearest-neighbour search. *)
Section Sorting.
Variable A : Type.
Variable key : A -> Q.

Fixpoint insert_desc (x : A) (l : list A) : list A :=
  match l with
  | [] => [x]
  | y :: l' =>
      if Qle_bool (key y) (key x) then x :: y :: l'
      else y :: insert_desc x l'
  end.

Definition sort_desc (l : list A) : list A := fold_right insert_desc [] l.

Inductive sorted_desc : list A -> Prop :=
| sorted_nil : sorted_desc []
| sorted_cons : forall x l,
    Forall (fun y => (key y <= key x)%Q) l -> sorted_desc l ->
    sorted_desc (x :: l).
End Sorting.

Section Program.
Variable E : env.

(** One HTTP round trip: [true] for status 200, [false] for any other
    status, an exception when there is no response. *)
Definition http (b : backend) : M bool :=
  fun w =>
    match net E b (tick w) with
    | Served => (Returned true, bump w)
    | Refused => (Returned false, bump w)
    | Unreachable => (Raised TransportError, bump w)
    end.

Definition now : M string := fun w => (Returned (utcnow E (tick w)), bump w).

Definition fresh_uuid : M string :=
  fun w => (Returned (uuid4 E (tick w)), bump w).

(** *** The Vector Index (Qdrant) as the code uses it *)

(** A [{"key": k, "match": {"value": v}}] condition on the payload. *)
Definition condition : Type := (string * string)%type.

Definition payload_get (k : string) (m : Memory) : option string :=
  if String.eqb k "id" then Some (id m)
  else if String.eqb k "content" then Some (content m)
  else if String.eqb k "memory_type" then Some (memory_type m)
  else if String.eqb k "timestamp" then Some (timestamp m)
  else if String.eqb k "importance" then Some (importance m)
  else if String.eqb k "status" then Some (status m)
  else if String.eqb k "source" then Some (source m)
  else if String.eqb k "superseded_by" then superseded_by m
  else if String.eqb k "supersedes" then supersedes m
  else None.

Definition holds (c : condition) (m : Memory) : bool :=
  match payload_get (fst c) m with
  | Some v => String.eqb v (snd c)
  | None => false
  end.

(** [{"must": conds}]: every condition holds. *)
Definition must (conds : list condition) (m : Memory) : bool :=
  forallb (fun c => holds c m) conds.

(** Upsert by point id: replace the point with that id, else append. *)
Fixpoint upsert (p : point) (ps : list point) : list point :=
  match ps with
  | [] => [p]
  | q :: ps' =>
      if String.eqb (point_id q) (point_id p) then p :: ps'
      else q :: upsert p ps'
  end.

(** Nearest neighbours of [v]: the points passing the filter whose
    similarity reaches [score_threshold], best first, at most [limit]. *)
Definition nearest (ps : list point) (v : list Q) (conds : list condition)
    (limit : nat) (score_threshold : Q) : list (Q * Memory) :=
  firstn limit
    (sort_desc fst
       (filter (fun h => Qle_bool score_threshold (fst h))
          (map (fun p => (similarity E v (vector p), payload p))
             (filter (fun p => must conds (payload p)) ps)))).

(** [PUT /collections/{name}/points]; no caller looks at the response. *)
Definition qdrant_upsert (pid : string) (v : list Q) (m : Memory) : M unit :=
  ok <- http Qdrant ;;
  if ok then ps <- get_points ;; put_points (upsert (mkPoint pid v m) ps)
  else ret tt.

(** [POST .../points/search]; [None] is a status other than 200. *)
Definition qdrant_search (v : list Q) (conds : list condition) (limit : nat)
    (score_threshold : Q) : M (option (list (Q * Memory))) :=
  ok <- http Qdrant ;;
  if ok then ps <- get_points ;;
             ret (Some (nearest ps v conds limit score_threshold))
  else ret None.

(** [POST .../points/scroll] with a filter; [None] is a status other than
    200. *)
Definition qdrant_scroll (conds : list condition) (limit : nat)
  : M (option (list point)) :=
  ok <- http Qdrant ;;
  if ok then ps <- get_points ;;
             ret (Some (firstn limit
                          (filter (fun p => must conds (payload p)) ps)))
  else ret None.

(** *** qdrant.py *)

Definition _get_embedding (text : string) : M (list Q) :=
  ok <- http Ollama ;;
  if ok then ret (embed E text) else raise HTTPStatusError.

Definition _ensure_collection : M unit :=
  ok <- http Qdrant ;;
  if ok then ret tt else (http Qdrant ;;; ret tt).

Definition update_memory (memory_id : string) (content' status' importance'
    superseded_by' : option string) : M bool :=
  r <- qdrant_scroll [("id", memory_id)] 1 ;;
  match r with
  | None => ret false
  | Some [] => ret false
  | Some (pt :: _) =>
      let payload0 := payload pt in
      pv <- match content' with
            | Some c => v <- _get_embedding c ;;
                        ret (with_content c payload0, v)
            | None => ret (payload0, vector pt)
            end ;;
      let payload1 := fst pv in
      let payload2 := match status' with
                      | Some s => with_status s payload1
                      | None => payload1
                      end in
      let payload3 := match importance' with
                      | Some i => with_importance i payload2
                      | None => payload2
                      end in
      let payload4 := match superseded_by' with
                      | Some b => with_superseded_by b payload3
                      | None => payload3
                      end in
      t <- now ;;
      qdrant_upsert memory_id (snd pv) (with_timestamp t payload4) ;;;
      ret true
  end.

Definition find_similar_memory (content' : string)
    (similarity_threshold : Q) (memory_type' : option string)
  : M (option (Q * Memory)) :=
  _ensure_collection ;;;
  embedding <- _get_embedding content' ;;
  let filter_conditions :=
    ("status", "active") ::
    (match memory_type' with
     | Some t => if truthy t then [("memory_type", t)] else []
     | None => []
     end) in
  r <- qdrant_search embedding filter_conditions 1 similarity_threshold ;;
  match r with
  | None => ret None
  | Some [] => ret None
  | Some (hit :: _) => ret (Some hit)
  end.

Definition add_memory (content' memory_type' importance' source' : string)
    (tags' : option (list string)) (supersedes' : option string)
    (deduplicate : bool) (similarity_threshold : Q) : M string :=
  _ensure_collection ;;;
  existing <- (if deduplicate && negb (truthy_opt supersedes')
               then find_similar_memory content' similarity_threshold
                      (Some memory_type')
               else ret None) ;;
  match existing with
  | Some hit =>
      let existing_id := id (snd hit) in
      update_memory existing_id (Some content') None
        (Some (if negb (String.eqb importance' "normal") then importance'
               else importance (snd hit)))
        None ;;;
      ret existing_id
  | None =>
      memory_id <- fresh_uuid ;;
      timestamp' <- now ;;
      let memory :=
        mkMemory memory_id content' memory_type' timestamp' importance'
                 "active" source'
                 (match tags' with Some t => t | None => [] end)
                 None supersedes' in
      embedding <- _get_embedding content' ;;
      qdrant_upsert memory_id embedding memory ;;;
      (if truthy_opt supersedes'
       then match supersedes' with
            | Some old =>
                update_memory old None (Some "superseded") None
                  (Some memory_id) ;;; ret tt
            | None => ret tt
            end
       else ret tt) ;;;
      ret memory_id
  end.


(** *** Score fusion: [_rerank] *)

(** [str.lower()].  The letters A-Z become a-z.  Outside ASCII only two
    characters have a lower case with ASCII in it: U+0130, which becomes
    "i" followed by U+0307, and U+212A, which becomes "k".  Every other
    character outside ASCII has a lower case outside ASCII that is
    whitespace exactly when the character is; it is kept as it is, which
    the comparisons below (with words of ASCII letters) cannot tell
    apart. *)
Definition lower_char (c : N) : list N :=
  if (65 <=? c)%N && (c <=? 90)%N then [(c + 32)%N]
  else if (c =? 304)%N then [105%N; 775%N]
  else if (c =? 8490)%N then [107%N]
  else [c].

Definition lower (s : ustring) : ustring := flat_map lower_char s.

(** The characters [str.strip()] removes, those for which [str.isspace()]
    holds: U+0009-000D, U+001C-0020, U+0085, U+00A0, U+1680, U+2000-200A,
    U+2028, U+2029, U+202F, U+205F and U+3000. *)
Definition is_space (c : N) : bool :=
  ((9 <=? c) && (c <=? 13) || (28 <=? c) && (c <=? 32) ||
   (c =? 133) || (c =? 160) || (c =? 5760) ||
   (8192 <=? c) && (c <=? 8202) || (c =? 8232) || (c =? 8233) ||
   (c =? 8239) || (c =? 8287) || (c =? 12288))%N.

Fixpoint lstrip (s : ustring) : ustring :=
  match s with
  | [] => []
  | c :: s' => if is_space c then lstrip s' else s
  end.

Fixpoint rstrip (s : ustring) : ustring :=
  match s with
  | [] => []
  | c :: s' =>
      match rstrip s' with
      | [] => if is_space c then [] else [c]
      | r => c :: r
      end
  end.

Definition strip (s : ustring) : ustring := rstrip (lstrip s).

(** [x in [...]] on strings. *)
Definition str_in (x : ustring) (l : list ustring) : bool :=
  existsb (ustring_eqb x) l.

Definition yes_words : list ustring := map ustr ["yes"; "yes,"; "yes."].

Definition no_words : list ustring := map ustr ["no"; "no,"; "no."].

Definition newline : string := String (ascii_of_nat 10) EmptyString.

Definition instruction : string := "Given a query, retrieve relevant passages".

Definition rerank_prompt (query content' : string) : string :=
  ("<Instruct>: " ++ instruction ++ newline ++
   "<Query>: " ++ query ++ newline ++
   "<Document>: " ++ content' ++ newline ++ "Relevant:")%string.

(** One turn of [for token, logprob in top_logprobs.items()], on the pair
    [(yes_logprob, no_logprob)]. *)
Definition scan_token (acc : option Q * option Q) (item : ustring * Q)
  : option Q * option Q :=
  let token_lower := strip (lower (fst item)) in
  if str_in token_lower yes_words then (Some (snd item), snd acc)
  else if str_in token_lower no_words then (fst acc, Some (snd item))
  else acc.

Definition scan_logprobs (top_logprobs : list (ustring * Q))
  : option Q * option Q :=
  fold_left scan_token top_logprobs (None, None).

(** [doc.get("score", 0.5)]. *)
Definition score_or_default (d : doc) : Q :=
  match score d with
  | Some s => s
  | None => 0.5
  end.

(** [yes_exp / (yes_exp + no_exp)] with both exponentials taken:
    [None] is an exception, the [OverflowError] of [math.exp] or the
    [ZeroDivisionError] of a sum that is zero.  A sum that overflows is
    infinite, and a double divided by it is 0.0; otherwise the quotient is
    at most 1, since the exponentials are not negative. *)
Definition softmax (yes_logprob no_logprob : Q) : option Q :=
  match math_exp E yes_logprob with
  | None => None
  | Some yes_exp =>
      match math_exp E no_logprob with
      | None => None
      | Some no_exp =>
          match float_add yes_exp no_exp with
          | None => Some 0%Q
          | Some total =>
              if Qeq_bool total 0 then None
              else Some (float_div yes_exp total)
          end
      end
  end.

(** The score one candidate gets from one reranker answer: the body of the
    [for doc in documents] loop.  An exception inside the softmax is caught
    by the [except Exception] clause, which gives the fallback score. *)
Definition fused_score (d : doc) (c : completion) : Q :=
  match c with
  | Failed => score_or_default d
  | Rejected => score_or_default d
  | Completed top_logprobs =>
      match scan_logprobs top_logprobs with
      | (Some yes_logprob, Some no_logprob) =>
          match softmax yes_logprob no_logprob with
          | Some score' => score'
          | None => score_or_default d
          end
      | (Some _, None) => 0.9
      | (None, Some _) => 0.1
      | (None, None) => score_or_default d
      end
  end%Q.

Definition completions_post (prompt : string) : M completion :=
  fun w => (Returned (reranker E (tick w) prompt), bump w).

(** The loop that fills [scored_docs]. *)
Fixpoint score_documents (query : string) (documents : list doc)
  : M (list (Q * doc)) :=
  match documents with
  | [] => ret []
  | d :: rest =>
      c <- completions_post (rerank_prompt query (content (fields d))) ;;
      scored <- score_documents query rest ;;
      ret ((fused_score d c, d) :: scored)
  end.

Definition set_rerank_score (sd : Q * doc) : doc :=
  mkDoc (score (snd sd)) (fields (snd sd)) (Some (fst sd)).

Definition _rerank (query : string) (documents : list doc) : M (list doc) :=
  match documents with
  | [] => ret documents
  | _ =>
      scored_docs <- score_documents query documents ;;
      ret (map set_rerank_score (sort_desc fst scored_docs))
  end.

Definition hit_doc (r : Q * Memory) : doc := mkDoc (Some (fst r)) (snd r) None.

Definition search_memory (query : string) (limit : nat)
    (memory_type' importance' status' : option string) (min_score : Q)
    (rerank : bool) : M (list doc) :=
  _ensure_collection ;;;
  embedding <- _get_embedding query ;;
  let cond (k : string) (o : option string) : list condition :=
    match o with
    | Some v => if truthy v then [(k, v)] else []
    | None => []
    end in
  let filter_conditions :=
    cond "status" status' ++ cond "memory_type" memory_type' ++
    cond "importance" importance' in
  let fetch_limit := if rerank then (limit * 3)%nat else limit in
  r <- qdrant_search embedding filter_conditions fetch_limit min_score ;;
  match r with
  | None => raise HTTPStatusError
  | Some results =>
      let candidates := map hit_doc results in
      candidates <-
        (if rerank && negb (match candidates with [] => true | _ => false end)
         then try_except (_rerank query candidates) (fun _ => ret candidates)
         else ret candidates) ;;
      ret (firstn limit candidates)
  end.

(** *** server.py: the [recall] tool *)

(** A row returned by the graph store. *)
Definition row : Type := list (string * string).

(** The graph store is a separate backend: what its two searches do for a
    query and a limit. *)
Record graph_env : Type := mkGraph {
  search_entities : string -> nat -> outcome (list row);
  search_facts : string -> nat -> outcome (list row)
}.

Variable G : graph_env.

Record recall_result : Type := mkRecall {
  memories : list doc;
  entities : list row;
  facts : list row
}.

(** [asyncio.gather(a, b, c, return_exceptions=True)]: every branch settles
    and an exception becomes that branch's value. *)
Definition gather3 {A B C} (a : M A) (b : outcome B) (c : outcome C)
  : M (outcome A * outcome B * outcome C) :=
  fun w => let (oa, w') := a w in (Returned (oa, b, c), w').

(** [x if not isinstance(x, Exception) else []]. *)
Definition or_empty {A} (o : outcome (list A)) : list A :=
  match o with
  | Returned l => l
  | Raised _ => []
  end.

Definition recall (query : string) (limit : nat) : M recall_result :=
  r <- gather3 (search_memory query limit None None (Some "active") 0.5 true)
               (search_entities G query limit)
               (search_facts G query limit) ;;
  let '(memories', entities', facts') := r in
  ret (mkRecall (or_empty memories') (or_empty entities') (or_empty facts')).

(** What [call_tool] hands back: the JSON of a result, or the
    [{"error": ..., "tool": ...}] object of its outer [except]. *)
Inductive tool_reply (A : Type) : Type :=
| ToolResult (a : A)
| ToolError (e : exn) (tool : string).
Arguments ToolError {A} e tool.

Definition call_tool_recall (query : string) (limit : nat)
  : M (tool_reply recall_result) :=
  try_except (r <- recall query limit ;; ret (ToolResult r))
             (fun e => ret (ToolError e "recall")).

End Program.

(** ** Reading the store *)

(** The point stored under a point id. *)
Definition lookup (a : string) (ps : list point) : option point :=
  find (fun p => String.eqb (point_id p) a) ps.

(** Every point of the collection was put there by [add_memory] or rewritten
    by [update_memory]: its payload carries its own point id, and point ids
    are unique (Qdrant upserts by id). *)
Definition wf_store (ps : list point) : Prop :=
  NoDup (map point_id ps) /\
  Forall (fun p => id (payload p) = point_id p) ps.

(** The order [low < normal < high < critical] of the data model. *)
Definition importance_rank (i : string) : nat :=
  if String.eqb i "low" then 0
  else if String.eqb i "normal" then 1
  else if String.eqb i "high" then 2
  else if String.eqb i "critical" then 3
  else 1.

(** Both services answer every call with status 200. *)
Definition healthy (E : env) : Prop :=
  forall (b : backend) (n : nat), net E b n = Served.

(** No id that [uuid.uuid4()] will produce is already a point of the store. *)
Definition fresh_ids (E : env) (ps : list point) : Prop :=
  forall n, lookup (uuid4 E n) ps = None.

(** The filter of the duplicate search of [find_similar_memory]. *)
Definition dedup_scope (memory_type' : string) : list condition :=
  ("status", "active") ::
  (if truthy memory_type' then [("memory_type", memory_type')] else []).

(** The record that [update_memory] writes back over payload [m]. *)
Definition patched (content' status' importance' superseded_by' : option string)
    (t : string) (m : Memory) : Memory :=
  let m1 := match content' with Some c => with_content c m | None => m end in
  let m2 := match status' with Some s => with_status s m1 | None => m1 end in
  let m3 := match importance' with
            | Some i => with_importance i m2
            | None => m2
            end in
  let m4 := match superseded_by' with
            | Some b => with_superseded_by b m3
            | None => m3
            end in
  with_timestamp t m4.

(** ** The fused score as the specification words it

    "If both logprobs are available, the two-outcome softmax; if only the
    affirmative one, 0.9; if only the negative one, 0.1; if neither is
    available or the gateway call fails, the original similarity score
    (0.5 if absent)." *)
Definition spec_fused_score (exp : Q -> Q) (gateway_ok : bool)
    (logprob_yes logprob_no : option Q) (original : option Q) : Q :=
  let fallback := match original with Some s => s | None => 0.5 end in
  if gateway_ok then
    match logprob_yes, logprob_no with
    | Some y, Some n => exp y / (exp y + exp n)
    | Some _, None => 0.9
    | None, Some _ => 0.1
    | None, None => fallback
    end
  else fallback.

(** A token counts as affirmative (negative) when, lower-cased and
    stripped, it is one of yes / yes, / yes. (no / no, / no.). *)
Definition is_yes (token : ustring) : bool :=
  str_in (strip (lower token)) yes_words.

Definition is_no (token : ustring) : bool :=
  str_in (strip (lower token)) no_words.

(** The logprob the scan ends with: that of the last matching token. *)
Definition last_logprob (sel : ustring -> bool) (top : list (ustring * Q))
  : option Q :=
  match rev (filter (fun it => sel (fst it)) top) with
  | it :: _ => Some (snd it)
  | [] => None
  end.

(** ** What a run of the scoring loop leaves behind

    The pairs [scored_docs] holds when the first completion call is made at
    tick [n]: call [k] of the loop is answered by [reranker E (n + k)]. *)
Fixpoint scored_from (E : env) (query : string) (n : nat)
    (documents : list doc) : list (Q * doc) :=
  match documents with
  | [] => []
  | d :: rest =>
      (fused_score E d
         (reranker E n (rerank_prompt query (content (fields d)))), d)
      :: scored_from E query (S n) rest
  end.

(** A superseded record of the first store is still there, and still
    superseded, in the second. *)
Definition keeps_superseded (ps ps' : list point) : Prop :=
  forall a p, lookup a ps = Some p -> status (payload p) = "superseded" ->
  exists p', lookup a ps' = Some p' /\ status (payload p') = "superseded".

(** No record of the store names itself as the record it supersedes. *)
Definition no_self_supersession (ps : list point) : Prop :=
  forall p, In p ps -> supersedes (payload p) <> Some (id (payload p)).

(** ** One answer changed

    The environment [E], except that backend [b] answers [r] at tick [t]:
    the fate of a single call. *)
Definition backend_eqb (x y : backend) : bool :=
  match x, y with
  | Ollama, Ollama => true
  | Qdrant, Qdrant => true
  | _, _ => false
  end.

Definition answering (E : env) (b : backend) (t : nat) (r : reply) : env :=
  mkEnv (fun b' n => if backend_eqb b' b && Nat.eqb n t then r
                     else net E b' n)
        (uuid4 E) (utcnow E) (embed E) (similarity E) (reranker E)
        (math_exp E).

(** ** Supersession links

    Record [a] names [b] as the record it supersedes. *)
Definition supersedes_link (ps : list point) (a b : string) : Prop :=
  exists p, In p ps /\ id (payload p) = a /\ supersedes (payload p) = Some b.

(** No chain of such links comes back to where it started. *)
Definition acyclic (ps : list point) : Prop :=
  forall a, ~ clos_trans string (supersedes_link ps) a a.

(** No id that [uuid.uuid4()] will produce is named by a stored record as
    the record it supersedes. *)
Definition unreferenced (E : env) (ps : list point) : Prop :=
  forall n p, In p ps -> supersedes (payload p) <> Some (uuid4 E n).

(** ** Concrete environments used to run the model *)
Module Fixture.

Definition dot (u v : list Q) : Q :=
  fold_right Qplus 0 (map (fun xy => fst xy * snd xy) (combine u v)).

(** Unit vectors with rational coordinates, so that [dot] is their cosine. *)
Definition embed0 (text : string) : list Q :=
  if String.eqb text "Use a dark theme" then [1; 0]
  else if String.eqb text "Prefer dark mode" then [4 # 5; 3 # 5]
  else if String.eqb text "Prefers dark mode" then [24 # 25; 7 # 25]
  else [0; 1].

Definition decimal (n : nat) : string :=
  NilEmpty.string_of_uint (Nat.to_uint n).

(** Powers of two in place of powers of e: doubles that are not negative,
    zero below the smallest one and an [OverflowError] above the largest. *)
Definition exp2 (x : Q) : option Q :=
  if Qle_bool 1024 x then None
  else if Qle_bool (-1074) x then Some (Qred (Qpower 2 (Qfloor x)))
  else Some 0.

Definition env_with (n : backend -> nat -> reply)
    (r : nat -> string -> completion) : env :=
  mkEnv n (fun k => "mem-" ++ decimal k)%string
        (fun k => "t" ++ decimal k)%string
        embed0 dot r exp2.

Definition all_served : backend -> nat -> reply := fun _ _ => Served.

Definition no_reranker : nat -> string -> completion := fun _ _ => Failed.

(** Everything up. *)
Definition env0 : env := env_with all_served no_reranker.

(** The vector index answers every call with an error status. *)
Definition env_index_refuses : env :=
  env_with (fun b _ => match b with Qdrant => Refused | Ollama => Served end)
           no_reranker.

(** The embedding gateway answers every call with an error status. *)
Definition env_embed_down : env :=
  env_with (fun b _ => match b with Ollama => Refused | Qdrant => Served end)
           no_reranker.

Definition mem (a c ty imp st : string) : Memory :=
  mkMemory a c ty "t" imp st "conversation" [] None None.

Definition pt (a c ty imp st : string) : point :=
  mkPoint a (embed0 c) (mem a c ty imp st).

Definition empty : world := mkWorld [] 0.

(** One active preference of high importance. *)
Definition w_high : world :=
  mkWorld [pt "a" "Prefer dark mode" "preference" "high" "active"] 0.

(** A superseded record and the record that replaced it. *)
Definition w_chain : world :=
  mkWorld
    [mkPoint "a" (embed0 "Use a dark theme")
       (mkMemory "a" "Use a dark theme" "preference" "t" "normal" "superseded"
                 "conversation" [] (Some "b") None);
     mkPoint "b" (embed0 "Prefer dark mode")
       (mkMemory "b" "Prefer dark mode" "preference" "t" "normal" "active"
                 "conversation" [] None (Some "a"))] 0.

(** One active record, about a dark theme. *)
Definition w_theme : world :=
  mkWorld [pt "x" "Use a dark theme" "preference" "normal" "active"] 0.

Definition graph_down : graph_env :=
  mkGraph (fun _ _ => Raised TransportError) (fun _ _ => Raised TransportError).

End Fixture.

(** ** The rest of the memory module and of the tool surface *)
Section Surface.
Variable E : env.

(** The instant a stored timestamp string denotes, as the index orders
    them for [order_by]. *)
Variable instant : string -> Q.

(** [POST .../points/scroll] with [order_by: {key: "timestamp", direction:
    "desc"}]: the points passing the filter, latest first, at most
    [limit]; [None] is a status other than 200. *)
Definition qdrant_scroll_ordered (conds : list condition) (limit : nat)
  : M (option (list point)) :=
  ok <- http E Qdrant ;;
  if ok then ps <- get_points ;;
             ret (Some (firstn limit
                          (sort_desc
                             (fun p => instant (timestamp (payload p)))
                             (filter (fun p => must conds (payload p)) ps))))
  else ret None.

Definition get_recent_memories (limit : nat) (memory_type' : option string)
  : M (list Memory) :=
  _ensure_collection E ;;;
  let filter_conditions : list condition :=
    match memory_type' with
    | Some t => if truthy t then [("memory_type", t)] else []
    | None => []
    end in
  r <- qdrant_scroll_ordered filter_conditions limit ;;
  match r with
  | None => raise HTTPStatusError
  | Some results => ret (map payload results)
  end.

(** *** server.py: [memory_add] and [record] *)

(** What the outer [except Exception] of [call_tool] can catch: a backend
    failure, or the [KeyError] of a missing argument. *)
Inductive tool_exn : Type :=
| BackendError (e : exn)
| KeyError (key : string).

(** The text [call_tool] returns: the JSON of a result, or
    [{"error": str(e), "tool": name}]. *)
Inductive tool_text (A : Type) : Type :=
| Json (a : A)
| ErrorJson (e : tool_exn) (tool : string).
Arguments ErrorJson {A} e tool.

(** The keys of [arguments] the two branches read, as they stand after
    the decoding loop at the top of [call_tool]; [None] is a key that is not
    there. *)
Record memory_add_args : Type := mkAddArgs {
  arg_content : option string;
  arg_memory_type : option string;
  arg_importance : option string;
  arg_tags : option (list string)
}.

(** [arguments.get(key, default)]. *)
Definition get_or (default : string) (o : option string) : string :=
  match o with
  | Some v => v
  | None => default
  end.

Definition call_tool_memory_add (a : memory_add_args)
  : world -> tool_text string * world :=
  fun w =>
    match arg_content a with
    | None => (ErrorJson (KeyError "content") "memory_add", w)
    | Some c =>
        match add_memory E c (get_or "insight" (arg_memory_type a))
                (get_or "normal" (arg_importance a)) "conversation"
                (arg_tags a) None true 0.85 w with
        | (Returned memory_id, w') => (Json memory_id, w')
        | (Raised e, w') => (ErrorJson (BackendError e) "memory_add", w')
        end
    end.

(** The graph store as [record] uses it: the write statements it has
    accepted, and how many it has been sent. *)
Inductive graph_write : Type :=
| EntityWrite (name entity_type : string)
| FactWrite (subject predicate object : string).

Record graph_state : Type := mkGraphState {
  accepted : list graph_write;
  sent : nat
}.

(** Whether the graph store accepts the statement it is sent at a count. *)
Variable graph_up : nat -> bool.

(** One [session.run] of a write statement. *)
Definition graph_run (x : graph_write) (g : graph_state)
  : outcome unit * graph_state :=
  if graph_up (sent g)
  then (Returned tt, mkGraphState (accepted g ++ [x]) (S (sent g)))
  else (Raised TransportError, mkGraphState (accepted g) (S (sent g))).

Record entity_arg : Type := mkEntityArg {
  ent_name : option string;
  ent_type : option string
}.

Record fact_arg : Type := mkFactArg {
  fact_subject : option string;
  fact_predicate : option string;
  fact_object : option string
}.

Record record_args : Type := mkRecordArgs {
  rec_content : option string;
  rec_memory_type : option string;
  rec_entities : list entity_arg;
  rec_facts : list fact_arg
}.

Record record_result : Type := mkRecordResult {
  memory_id : string;
  entities_written : list string;
  facts_written : list string
}.

(** [for entity in arguments.get("entities", [])]: names are appended to
    [results["entities"]] as the writes go through. *)
Fixpoint record_entities (ents : list entity_arg) (names : list string)
    (g : graph_state) : (list string + tool_exn) * graph_state :=
  match ents with
  | [] => (inl names, g)
  | e :: rest =>
      match ent_name e with
      | None => (inr (KeyError "name"), g)
      | Some n =>
          match graph_run (EntityWrite n (get_or "Unknown" (ent_type e))) g with
          | (Returned _, g') => record_entities rest (names ++ [n]) g'
          | (Raised x, g') => (inr (BackendError x), g')
          end
      end
  end.

(** [for fact in arguments.get("facts", [])]. *)
Fixpoint record_facts (fs : list fact_arg) (lines : list string)
    (g : graph_state) : (list string + tool_exn) * graph_state :=
  match fs with
  | [] => (inl lines, g)
  | f :: rest =>
      match fact_subject f with
      | None => (inr (KeyError "subject"), g)
      | Some s =>
          match fact_predicate f with
          | None => (inr (KeyError "predicate"), g)
          | Some p =>
              match fact_object f with
              | None => (inr (KeyError "object"), g)
              | Some o =>
                  match graph_run (FactWrite s p o) g with
                  | (Returned _, g') =>
                      record_facts rest
                        (lines ++ [(s ++ " " ++ p ++ " " ++ o)%string]) g'
                  | (Raised x, g') => (inr (BackendError x), g')
                  end
              end
          end
      end
  end.

Definition call_tool_record (a : record_args)
  : world * graph_state -> tool_text record_result * (world * graph_state) :=
  fun st =>
    let (w, g) := st in
    match rec_content a with
    | None => (ErrorJson (KeyError "content") "record", (w, g))
    | Some c =>
        match add_memory E c (get_or "insight" (rec_memory_type a)) "normal"
                "conversation" None None true 0.85 w with
        | (Raised e, w') => (ErrorJson (BackendError e) "record", (w', g))
        | (Returned mid, w') =>
            match record_entities (rec_entities a) [] g with
            | (inr e, g1) => (ErrorJson e "record", (w', g1))
            | (inl names, g1) =>
                match record_facts (rec_facts a) [] g1 with
                | (inr e, g2) => (ErrorJson e "record", (w', g2))
                | (inl lines, g2) =>
                    (Json (mkRecordResult mid names lines), (w', g2))
                end
            end
        end
    end.

End Surface.

Arguments ErrorJson {A} e tool.

(** The write statements [record] means to send, in the order it sends
    them; [None] for an item with a key missing. *)
Definition entity_write (e : entity_arg) : option graph_write :=
  match ent_name e with
  | Some n => Some (EntityWrite n (get_or "Unknown" (ent_type e)))
  | None => None
  end.

Definition fact_write (f : fact_arg) : option graph_write :=
  match fact_subject f, fact_predicate f, fact_object f with
  | Some s, Some p, Some o => Some (FactWrite s p o)
  | _, _, _ => None
  end.

(** What [record] reports for a write that went through: the entity's
    name, or the fact as ["subject predicate object"]. *)
Definition write_label (x : graph_write) : string :=
  match x with
  | EntityWrite n _ => n
  | FactWrite s p o => (s ++ " " ++ p ++ " " ++ o)%string
  end.

(** The write statements of a [record] call, entities first. *)
Definition intended_writes (a : record_args) : list (option graph_write) :=
  map entity_write (rec_entities a) ++ map fact_write (rec_facts a).

(** Every vector is the embedding of the content stored with it. *)
Definition embedded (E : env) (ps : list point) : Prop :=
  Forall (fun p => vector p = embed E (content (payload p))) ps.

(** The score a search hit carries, 0 when it has none. *)
Definition rerank_key (d : doc) : Q :=
  match rerank_score d with
  | Some r => r
  | None => 0
  end.

(** Two payloads agree on everything a merge leaves alone: identity, type,
    status, provenance, tags and both supersession links. *)
Definition same_record (m m' : Memory) : Prop :=
  id m' = id m /\ memory_type m' = memory_type m /\ status m' = status m /\
  source m' = source m /\ tags m' = tags m /\
  superseded_by m' = superseded_by m /\ supersedes m' = supersedes m.

(** Every record of the first store is still in the second, the same
    record in the sense above. *)
Definition keeps_records (ps ps' : list point) : Prop :=
  forall x p, lookup x ps = Some p ->
  exists p', lookup x ps' = Some p' /\ same_record (payload p) (payload p').

(** More sample data. *)
Module Sample.

(** Timestamps ["t<n>"] ordered by their length, and so by [n] below 10. *)
Definition by_length (t : string) : Q := inject_Z (Z.of_nat (String.length t)).

Definition old_point : point :=
  mkPoint "o" (Fixture.embed0 "Use a dark theme")
    (mkMemory "o" "Use a dark theme" "preference" "t" "normal" "superseded"
              "conversation" [] (Some "n") None).

Definition new_point : point :=
  mkPoint "n" (Fixture.embed0 "Prefer dark mode")
    (mkMemory "n" "Prefer dark mode" "preference" "tt" "high" "active"
              "conversation" ["ui"] None (Some "o")).

Definition task_point : point :=
  mkPoint "k" (Fixture.embed0 "Prefers dark mode")
    (mkMemory "k" "Prefers dark mode" "task" "ttt" "low" "completed"
              "conversation" [] None None).

Definition w3 : world := mkWorld [old_point; new_point; task_point] 0.

(** The graph store accepts the first two statements and then fails. *)
Definition two_then_down (n : nat) : bool := (n <? 2)%nat.

Definition g0 : graph_state := mkGraphState [] 0.

Definition args : record_args :=
  mkRecordArgs (Some "Prefer dark mode") (Some "preference")
    [mkEntityArg (Some "Editor") (Some "System"); mkEntityArg (Some "Theme") None]
    [mkFactArg (Some "Editor") (Some "USES") (Some "Theme")].

End Sample.

(** * Properties *)

Unset Implicit Arguments.

(** Unfolding the monad one layer at a time. *)
Ltac run :=
  repeat (unfold bind, http, ret, raise, get_points, put_points, now,
            fresh_uuid;
          cbn [bump points tick fst snd]).

Ltac run_in H :=
  repeat (unfold bind, http, ret, raise, get_points, put_points, now,
            fresh_uuid in H;
          cbn [bump points tick fst snd] in H).

(** ** The stable descending sort *)
Section SortingFacts.
Variable A : Type.
Variable key : A -> Q.

Lemma insert_desc_perm (x : A) (l : list A) :
  Permutation (insert_desc key x l) (x :: l).
Proof.
  induction l as [|y l IH]; simpl.
  - apply Permutation_refl.
  - destruct (Qle_bool (key y) (key x)).
    + apply Permutation_refl.
    + apply Permutation_trans with (y :: x :: l).
      * now apply perm_skip.
      * apply perm_swap.
Qed.

Lemma sort_desc_perm (l : list A) : Permutation (sort_desc key l) l.
Proof.
  induction l as [|x l IH]; simpl.
  - apply perm_nil.
  - eapply Permutation_trans; [apply insert_desc_perm|].
    now apply perm_skip.
Qed.

Lemma insert_desc_sorted (x : A) (l : list A) :
  sorted_desc key l -> sorted_desc key (insert_desc key x l).
Proof.
  induction 1 as [|y l Hall Hs IH]; simpl.
  - constructor; [constructor | constructor].
  - destruct (Qle_bool (key y) (key x)) eqn:Hle.
    + apply Qle_bool_iff in Hle.
      constructor; [|now constructor].
      constructor; [exact Hle|].
      eapply Forall_impl; [|exact Hall].
      intros z Hz. simpl in Hz |- *. now apply Qle_trans with (key y).
    + constructor; [|exact IH].
      apply Permutation_Forall with (x :: l).
      * apply Permutation_sym, insert_desc_perm.
      * constructor; [|exact Hall].
        apply Qlt_le_weak, Qnot_le_lt.
        intro Hc. apply Qle_bool_iff in Hc. congruence.
Qed.

Lemma sort_desc_sorted (l : list A) : sorted_desc key (sort_desc key l).
Proof.
  induction l as [|x l IH]; simpl.
  - constructor.
  - now apply insert_desc_sorted.
Qed.

(** Insertion never moves an element past one with an equal key. *)
Lemma insert_desc_stable (s : Q) (x : A) (l : list A) :
  filter (fun y => Qeq_bool (key y) s) (insert_desc key x l) =
  filter (fun y => Qeq_bool (key y) s) (x :: l).
Proof.
  induction l as [|y l IH]; [reflexivity|].
  simpl insert_desc.
  destruct (Qle_bool (key y) (key x)) eqn:Hle; [reflexivity|].
  simpl. rewrite IH. simpl.
  destruct (Qeq_bool (key x) s) eqn:Hx, (Qeq_bool (key y) s) eqn:Hy;
    try reflexivity.
  (* both keys equal [s]: then [key y <= key x], against [Hle] *)
  apply Qeq_bool_iff in Hx, Hy.
  assert (Hc : Qle_bool (key y) (key x) = true).
  { apply Qle_bool_iff. rewrite Hx, Hy. apply Qle_refl. }
  congruence.
Qed.

Lemma sort_desc_stable (s : Q) (l : list A) :
  filter (fun y => Qeq_bool (key y) s) (sort_desc key l) =
  filter (fun y => Qeq_bool (key y) s) l.
Proof.
  induction l as [|x l IH]; [reflexivity|].
  simpl sort_desc. rewrite insert_desc_stable.
  simpl. now rewrite IH.
Qed.

Lemma insert_desc_front (x : A) (l : list A) :
  Forall (fun y => key y <= key x) l -> insert_desc key x l = x :: l.
Proof.
  destruct 1 as [|y l Hy _]; [reflexivity|].
  simpl. apply Qle_bool_iff in Hy. now rewrite Hy.
Qed.

(** A list already in descending order is left as it is. *)
Lemma sort_desc_sorted_id (l : list A) :
  sorted_desc key l -> sort_desc key l = l.
Proof.
  induction 1 as [|x l Hall Hs IH]; [reflexivity|].
  simpl. rewrite IH. now apply insert_desc_front.
Qed.

(** An element that strictly beats every other one comes out first. *)
Lemma sort_desc_strict_max (l1 l2 : list A) (x : A) :
  Forall (fun y => key y < key x) l1 ->
  Forall (fun y => key y < key x) l2 ->
  sort_desc key (l1 ++ x :: l2) = x :: sort_desc key (l1 ++ l2).
Proof.
  intros H1 H2. induction H1 as [|y l1 Hy H1 IH]; simpl.
  - apply insert_desc_front.
    apply Permutation_Forall with l2.
    + apply Permutation_sym, sort_desc_perm.
    + eapply Forall_impl; [|exact H2]. intros z Hz. simpl in Hz |- *.
      now apply Qlt_le_weak.
  - rewrite IH. simpl.
    destruct (Qle_bool (key x) (key y)) eqn:Hle; [|reflexivity].
    apply Qle_bool_iff in Hle. exfalso.
    apply (Qlt_irrefl (key x)). eapply Qle_lt_trans; eassumption.
Qed.

End SortingFacts.

(** ** The collection as a keyed store *)

Open Scope nat_scope.

Lemma lookup_upsert_same (p : point) (ps : list point) :
  lookup (point_id p) (upsert p ps) = Some p.
Proof.
  unfold lookup. induction ps as [|q ps IH]; simpl.
  - now rewrite String.eqb_refl.
  - destruct (String.eqb (point_id q) (point_id p)) eqn:Hq; simpl.
    + now rewrite String.eqb_refl.
    + now rewrite Hq.
Qed.

Lemma lookup_upsert_other (a : string) (p : point) (ps : list point) :
  a <> point_id p -> lookup a (upsert p ps) = lookup a ps.
Proof.
  intros Hne. apply not_eq_sym in Hne. apply String.eqb_neq in Hne.
  unfold lookup. induction ps as [|q ps IH]; simpl.
  - now rewrite Hne.
  - destruct (String.eqb (point_id q) (point_id p)) eqn:Hq; simpl.
    + apply String.eqb_eq in Hq. rewrite Hq, Hne. reflexivity.
    + now rewrite IH.
Qed.

Lemma lookup_some (a : string) (p : point) (ps : list point) :
  lookup a ps = Some p -> In p ps /\ point_id p = a.
Proof.
  unfold lookup. intros H. apply find_some in H.
  destruct H as [Hin Heq]. apply String.eqb_eq in Heq. now split.
Qed.

Lemma lookup_none (a : string) (ps : list point) :
  lookup a ps = None -> forall p, In p ps -> point_id p <> a.
Proof.
  unfold lookup. intros H p Hin Heq.
  apply (find_none _ _ H) in Hin. apply String.eqb_neq in Hin. congruence.
Qed.

(** Upserting under a new id appends; the other points stay in place. *)
Lemma upsert_fresh (p : point) (ps : list point) :
  lookup (point_id p) ps = None -> upsert p ps = ps ++ [p].
Proof.
  unfold lookup. induction ps as [|q ps IH]; simpl; [reflexivity|].
  destruct (String.eqb (point_id q) (point_id p)); [discriminate|].
  intros H. now rewrite IH.
Qed.

Lemma upsert_length_present (p q : point) (ps : list point) :
  lookup (point_id p) ps = Some q ->
  List.length (upsert p ps) = List.length ps.
Proof.
  unfold lookup. induction ps as [|r ps IH]; simpl; [discriminate|].
  destruct (String.eqb (point_id r) (point_id p)); [reflexivity|].
  intros H. simpl. now rewrite IH.
Qed.

Lemma upsert_ids_present (p q : point) (ps : list point) :
  lookup (point_id p) ps = Some q ->
  map point_id (upsert p ps) = map point_id ps.
Proof.
  unfold lookup. induction ps as [|r ps IH]; simpl; [discriminate|].
  destruct (String.eqb (point_id r) (point_id p)) eqn:Hr.
  - intros _. simpl. apply String.eqb_eq in Hr. now rewrite Hr.
  - intros H. simpl. now rewrite IH.
Qed.

Lemma upsert_in (p x : point) (ps : list point) :
  In x (upsert p ps) -> x = p \/ In x ps.
Proof.
  induction ps as [|q ps IH]; simpl.
  - intros [H|[]]; auto.
  - destruct (String.eqb (point_id q) (point_id p)); simpl.
    + intros [H|H]; auto.
    + intros [H|H]; auto. destruct (IH H); auto.
Qed.

(** [upsert] keeps the store well formed when the payload carries the
    point's id. *)
Lemma wf_upsert (p : point) (ps : list point) :
  wf_store ps -> id (payload p) = point_id p -> wf_store (upsert p ps).
Proof.
  intros [Hnd Hid] Hp. split.
  - destruct (lookup (point_id p) ps) as [q|] eqn:Hl.
    + now rewrite (upsert_ids_present _ _ _ Hl).
    + rewrite (upsert_fresh _ _ Hl), map_app. simpl.
      apply Permutation_NoDup with (point_id p :: map point_id ps).
      * apply Permutation_cons_append.
      * constructor; [|exact Hnd].
        intros Hin. apply in_map_iff in Hin. destruct Hin as (q & Hq & Hin).
        now apply (lookup_none _ _ Hl q Hin).
  - apply Forall_forall. intros x Hx.
    destruct (upsert_in _ _ _ Hx) as [->|Hin]; [exact Hp|].
    rewrite Forall_forall in Hid. now apply Hid.
Qed.

(** In a well-formed store, scrolling by payload id is lookup by point id. *)
Lemma scroll_by_id (a : string) (ps : list point) :
  Forall (fun p => id (payload p) = point_id p) ps ->
  firstn 1 (filter (fun p => must [("id", a)] (payload p)) ps) =
  match lookup a ps with Some p => [p] | None => [] end.
Proof.
  unfold lookup. induction 1 as [|p ps Hp _ IH]; simpl; [reflexivity|].
  unfold must, holds; simpl. rewrite Hp, andb_true_r.
  destruct (String.eqb (point_id p) a); [reflexivity|].
  exact IH.
Qed.

(** ** Running the code when both services answer *)
Section Healthy.
Variable E : env.
Hypothesis up : healthy E.

Lemma http_served (b : backend) (w : world) :
  http E b w = (Returned true, bump w).
Proof. unfold http. now rewrite up. Qed.

Lemma ensure_served (w : world) :
  _ensure_collection E w = (Returned tt, bump w).
Proof. unfold _ensure_collection, bind. now rewrite http_served. Qed.

Lemma embedding_served (text : string) (w : world) :
  _get_embedding E text w = (Returned (embed E text), bump w).
Proof. unfold _get_embedding, bind. now rewrite http_served. Qed.

Lemma upsert_served (a : string) (v : list Q) (m : Memory) (w : world) :
  qdrant_upsert E a v m w =
  (Returned tt, mkWorld (upsert (mkPoint a v m) (points w)) (S (tick w))).
Proof. unfold qdrant_upsert, bind. now rewrite http_served. Qed.

Lemma search_served (v : list Q) (conds : list condition) (limit : nat)
    (thr : Q) (w : world) :
  qdrant_search E v conds limit thr w =
  (Returned (Some (nearest E (points w) v conds limit thr)), bump w).
Proof. unfold qdrant_search, bind. now rewrite http_served. Qed.

(** [update_memory] on a well-formed store: [false] for an unknown id,
    otherwise the patched record is written back under the same id. *)
Lemma update_memory_served (a : string) (c s i sb : option string)
    (w : world) :
  wf_store (points w) ->
  update_memory E a c s i sb w =
  match lookup a (points w) with
  | None => (Returned false, bump w)
  | Some pt =>
      let k := match c with Some _ => 1 | None => 0 end in
      (Returned true,
       mkWorld
         (upsert
            (mkPoint a
               (match c with Some c' => embed E c' | None => vector pt end)
               (patched c s i sb (utcnow E (S k + tick w)) (payload pt)))
            (points w))
         (3 + k + tick w))
  end.
Proof.
  intros [_ Hid].
  unfold update_memory, qdrant_scroll, bind.
  rewrite http_served. cbn [get_points ret bump points tick].
  rewrite (scroll_by_id a (points w) Hid).
  destruct (lookup a (points w)) as [pt|]; [|reflexivity].
  destruct c as [c'|].
  - rewrite embedding_served.
    cbn [ret now bump points tick fst snd].
    rewrite upsert_served. reflexivity.
  - cbn [ret now bump points tick fst snd].
    rewrite upsert_served. reflexivity.
Qed.

(** The duplicate search: the best active hit in scope, if any reaches the
    threshold. *)
Lemma find_similar_served (c : string) (thr : Q) (mt : string) (w : world) :
  find_similar_memory E c thr (Some mt) w =
  (Returned (hd_error (nearest E (points w) (embed E c) (dedup_scope mt) 1 thr)),
   mkWorld (points w) (3 + tick w)).
Proof.
  unfold find_similar_memory, bind.
  rewrite ensure_served, embedding_served, search_served.
  fold (dedup_scope mt). cbn [bump points tick].
  destruct (nearest E (points w) (embed E c) (dedup_scope mt) 1 thr);
    reflexivity.
Qed.

(** The merge branch of [add_memory]. *)
Lemma add_memory_merge (c mt imp src : string) (tg : option (list string))
    (sup : option string) (thr : Q) (w : world) (hit : Q * Memory) :
  truthy_opt sup = false ->
  hd_error (nearest E (points w) (embed E c) (dedup_scope mt) 1 thr) =
    Some hit ->
  add_memory E c mt imp src tg sup true thr w =
  let r := update_memory E (id (snd hit)) (Some c) None
             (Some (if negb (String.eqb imp "normal") then imp
                    else importance (snd hit)))
             None (mkWorld (points w) (4 + tick w)) in
  match fst r with
  | Returned _ => (Returned (id (snd hit)), snd r)
  | Raised e => (Raised e, snd r)
  end.
Proof.
  intros Hsup Hhit. unfold add_memory, bind.
  rewrite ensure_served, Hsup. cbn [andb negb].
  rewrite find_similar_served. cbn [bump points tick].
  rewrite Hhit.
  destruct (update_memory E (id (snd hit)) (Some c) None _ None _)
    as [[b|e] w']; reflexivity.
Qed.

(** The create branch of [add_memory]: [k] is 4 after a duplicate search
    that found nothing and 1 when no search was made. *)
Lemma add_memory_create (c mt imp src : string) (tg : option (list string))
    (sup : option string) (dedup : bool) (thr : Q) (w : world) (k : nat) :
  (dedup && negb (truthy_opt sup) = true /\ k = 4 /\
   nearest E (points w) (embed E c) (dedup_scope mt) 1 thr = []) \/
  (dedup && negb (truthy_opt sup) = false /\ k = 1) ->
  let a := uuid4 E (k + tick w) in
  let m := mkMemory a c mt (utcnow E (S k + tick w)) imp "active" src
             (match tg with Some t => t | None => [] end) None sup in
  let w1 := mkWorld (upsert (mkPoint a (embed E c) m) (points w))
              (4 + k + tick w) in
  add_memory E c mt imp src tg sup dedup thr w =
  match sup with
  | Some old =>
      if truthy old then
        let r := update_memory E old None (Some "superseded") None (Some a)
                   w1 in
        match fst r with
        | Returned _ => (Returned a, snd r)
        | Raised e => (Raised e, snd r)
        end
      else (Returned a, w1)
  | None => (Returned a, w1)
  end.
Proof.
  intros Hk a m w1. unfold add_memory, bind.
  rewrite ensure_served.
  assert (Hex :
    (if dedup && negb (truthy_opt sup)
     then find_similar_memory E c thr (Some mt)
     else ret None) (bump w) =
    (Returned None, mkWorld (points w) (k + tick w))).
  { destruct Hk as [(Hd & -> & Hn)|(Hd & ->)]; rewrite Hd.
    - rewrite find_similar_served. cbn [bump points tick]. now rewrite Hn.
    - reflexivity. }
  rewrite Hex.
  cbn [fresh_uuid now bump points tick].
  rewrite embedding_served. cbn [bump points tick].
  rewrite upsert_served.
  subst a m w1. cbn [Nat.add bump points tick].
  destruct sup as [old|]; cbn [truthy_opt]; [|reflexivity].
  destruct (truthy old); [|reflexivity].
  match goal with
  | |- context [update_memory E old ?x1 ?x2 ?x3 ?x4 ?x5] =>
      destruct (update_memory E old x1 x2 x3 x4 x5) as [[b|e] w']
  end; reflexivity.
Qed.

End Healthy.

(** ** Running the code whatever the services answer *)
Section AnyEnvironment.
Variable E : env.

(** Provisioning talks to the index but never touches the points. *)
Lemma ensure_any (w : world) :
  exists o n, _ensure_collection E w = (o, mkWorld (points w) n).
Proof.
  unfold _ensure_collection, bind, http.
  destruct (net E Qdrant (tick w)); cbn [bump points tick];
    [eexists; eexists; reflexivity| |eexists; eexists; reflexivity].
  destruct (net E Qdrant (S (tick w))); eexists; eexists; reflexivity.
Qed.

Lemma embedding_any (text : string) (w : world) :
  (net E Ollama (tick w) = Served /\
   _get_embedding E text w = (Returned (embed E text), bump w)) \/
  (net E Ollama (tick w) <> Served /\
   exists e, _get_embedding E text w = (Raised e, bump w)).
Proof.
  unfold _get_embedding, bind, http.
  destruct (net E Ollama (tick w)).
  - left. split; reflexivity.
  - right. split; [discriminate|]. eexists; reflexivity.
  - right. split; [discriminate|]. eexists; reflexivity.
Qed.

Lemma upsert_any (a : string) (v : list Q) (m : Memory) (w : world) :
  exists o ps,
    qdrant_upsert E a v m w = (o, mkWorld ps (S (tick w))) /\
    (ps = points w \/ ps = upsert (mkPoint a v m) (points w)).
Proof.
  unfold qdrant_upsert, bind, http.
  destruct (net E Qdrant (tick w)); cbn [bump points tick get_points ret];
    eexists; eexists; (split; [reflexivity|]); auto.
Qed.

Lemma find_similar_any (c : string) (thr : Q) (mt : string) (w : world) :
  exists o n,
    find_similar_memory E c thr (Some mt) w = (o, mkWorld (points w) n) /\
    forall hit, o = Returned (Some hit) ->
      hd_error (nearest E (points w) (embed E c) (dedup_scope mt) 1 thr) =
      Some hit.
Proof.
  unfold find_similar_memory. unfold bind at 1.
  destruct (ensure_any w) as (o1 & n1 & ->).
  destruct o1 as [[]|e]; [|eexists; eexists; split; [reflexivity|discriminate]].
  unfold bind at 1.
  destruct (embedding_any c (mkWorld (points w) n1)) as [[_ ->]|[_ [e ->]]];
    [|eexists; eexists; split; [reflexivity|discriminate]].
  fold (dedup_scope mt).
  unfold qdrant_search. run.
  destruct (net E Qdrant (S n1)); run.
  - destruct (nearest E (points w) (embed E c) (dedup_scope mt) 1 thr)
      as [|hit l];
      eexists; eexists; (split; [reflexivity|]); intros h Hh;
      inversion Hh; reflexivity.
  - eexists; eexists; split; [reflexivity|discriminate].
  - eexists; eexists; split; [reflexivity|discriminate].
Qed.

Lemma update_memory_effect (a : string) (c s i sb : option string)
    (w : world) :
  wf_store (points w) ->
  points (snd (update_memory E a c s i sb w)) = points w \/
  exists pt v t,
    lookup a (points w) = Some pt /\
    fst (update_memory E a c s i sb w) = Returned true /\
    points (snd (update_memory E a c s i sb w)) =
    upsert (mkPoint a v (patched c s i sb t (payload pt))) (points w).
Proof.
  intros [_ Hid].
  unfold update_memory, qdrant_scroll, qdrant_upsert, _get_embedding. run.
  destruct (net E Qdrant (tick w)); run; auto.
  rewrite (scroll_by_id a (points w) Hid).
  destruct (lookup a (points w)) as [pt|]; run; auto.
  destruct c as [c'|]; run.
  - destruct (net E Ollama (S (tick w))); run; auto.
    destruct (net E Qdrant (S (S (S (tick w))))); run; auto.
    right. exists pt. eexists. eexists. repeat split; reflexivity.
  - destruct (net E Qdrant (S (S (tick w)))); run; auto.
    right. exists pt. eexists. eexists. repeat split; reflexivity.
Qed.

(** What [add_memory] can do to a well-formed store: nothing; the merge of
    its content into the duplicate it found; or the upsert of a new record
    (if the index accepted it), followed or not by the marking of the
    superseded one. *)
Lemma add_memory_effect (c mt imp src : string) (tg : option (list string))
    (sup : option string) (dedup : bool) (thr : Q) (w w' : world)
    (o : outcome string) :
  wf_store (points w) ->
  add_memory E c mt imp src tg sup dedup thr w = (o, w') ->
  points w' = points w \/
  (exists (hit : Q * Memory) pt v t i',
     truthy_opt sup = false /\
     lookup (id (snd hit)) (points w) = Some pt /\
     points w' =
     upsert (mkPoint (id (snd hit)) v
               (patched (Some c) None (Some i') None t (payload pt)))
            (points w)) \/
  (exists n t ps1,
     let a := uuid4 E n in
     let new := mkPoint a (embed E c)
                  (mkMemory a c mt t imp "active" src
                     (match tg with Some l => l | None => [] end) None sup) in
     (ps1 = points w \/ ps1 = upsert new (points w)) /\
     (points w' = ps1 \/
      exists old pt v t',
        sup = Some old /\ lookup old ps1 = Some pt /\
        points w' =
        upsert (mkPoint old v
                  (patched None (Some "superseded") None (Some a) t'
                     (payload pt))) ps1)).
Proof.
  intros Hwf Hr. unfold add_memory in Hr. unfold bind at 1 in Hr.
  destruct (ensure_any w) as (o1 & n1 & He). rewrite He in Hr. clear He.
  destruct o1 as [[]|e]; [|inversion Hr; left; reflexivity].
  unfold bind at 1 in Hr.
  assert (Hex : exists o n,
    (if dedup && negb (truthy_opt sup)
     then find_similar_memory E c thr (Some mt)
     else ret None) (mkWorld (points w) n1) = (o, mkWorld (points w) n) /\
    forall hit, o = Returned (Some hit) -> truthy_opt sup = false).
  { destruct (dedup && negb (truthy_opt sup)) eqn:Hd.
    - destruct (find_similar_any c thr mt (mkWorld (points w) n1))
        as (o2 & n & Hf & _).
      exists o2, n. split; [exact Hf|]. intros _ _.
      apply andb_prop in Hd. destruct Hd as [_ Hd].
      now apply negb_true_iff in Hd.
    - exists (Returned None), n1. split; [reflexivity|discriminate]. }
  destruct Hex as (o2 & n & He & Hsup). rewrite He in Hr. clear He.
  destruct o2 as [[hit|]|e]; [| |inversion Hr; left; reflexivity].
  - (* merge *)
    specialize (Hsup hit eq_refl).
    unfold bind at 1 in Hr.
    match type of Hr with
    | context [update_memory E ?a ?x1 ?x2 ?x3 ?x4 ?w0] =>
        destruct (update_memory_effect a x1 x2 x3 x4 w0 Hwf)
          as [Hu|(pt & v & t & Hl & _ & Hu)];
        destruct (update_memory E a x1 x2 x3 x4 w0) as [[b|e] w1]
    end; cbn [fst snd points ret] in *; inversion Hr; subst; auto;
      right; left; exists hit, pt, v, t; eexists; repeat split; eauto.
  - (* create *)
    assert (Hfin : forall ps1 k o3 w3,
      wf_store ps1 ->
      let a := uuid4 E n in
      ((if truthy_opt sup
          then match sup with
               | Some old =>
                   update_memory E old None (Some "superseded") None
                     (Some a) ;;; ret tt
               | None => ret tt
               end
          else ret tt) ;;; ret a) (mkWorld ps1 k) = (o3, w3) ->
      points w3 = ps1 \/
      exists old pt v t',
        sup = Some old /\ lookup old ps1 = Some pt /\
        points w3 =
        upsert (mkPoint old v
                  (patched None (Some "superseded") None (Some a) t'
                     (payload pt))) ps1).
    { intros ps1 k o3 w3 Hwf1 a H3.
      destruct sup as [old|]; cbn [truthy_opt] in H3;
        [|inversion H3; left; reflexivity].
      destruct (truthy old); [|inversion H3; left; reflexivity].
      unfold bind at 1 in H3. unfold bind at 1 in H3.
      destruct (update_memory_effect old None (Some "superseded") None
                  (Some a) (mkWorld ps1 k) Hwf1)
        as [Hu|(pt & v & t & Hl & _ & Hu)];
      destruct (update_memory E old None (Some "superseded") None (Some a)
                  (mkWorld ps1 k)) as [[b|e] w1]; cbn [fst snd points ret] in *;
        inversion H3; subst;
        auto; right; exists old, pt, v, t; repeat split; auto. }
    unfold bind at 1 in Hr. cbn [fresh_uuid bump points tick] in Hr.
    unfold bind at 1 in Hr. cbn [now bump points tick] in Hr.
    unfold bind at 1 in Hr.
    match type of Hr with
    | context [_get_embedding E c ?w0] =>
        destruct (embedding_any c w0) as [[_ Hb]|[_ [e Hb]]];
        rewrite Hb in Hr; clear Hb; [|inversion Hr; left; reflexivity]
    end.
    unfold bind at 1 in Hr. cbn [bump points tick] in Hr.
    match type of Hr with
    | context [qdrant_upsert E ?a ?v ?m ?w0] =>
        destruct (upsert_any a v m w0) as (o4 & ps1 & Hu & Hps);
        rewrite Hu in Hr; clear Hu
    end.
    cbn [points tick] in Hps.
    right; right. exists n, (utcnow E (S n)), ps1. cbn zeta.
    split; [exact Hps|].
    destruct o4 as [[]|e]; [|inversion Hr; left; reflexivity].
    eapply Hfin; [|exact Hr].
    destruct Hps as [->| ->]; [exact Hwf|].
    apply wf_upsert; [exact Hwf|reflexivity].
Qed.

Lemma firstn_In {A : Type} (n : nat) (l : list A) (x : A) :
  In x (firstn n l) -> In x l.
Proof.
  intros H. rewrite <- (firstn_skipn n l). apply in_or_app. now left.
Qed.

(** The scoring loop asks the reranker once per document and never
    raises. *)
Lemma score_documents_run (q : string) (docs : list doc) (w : world) :
  score_documents E q docs w =
  (Returned (scored_from E q (tick w) docs),
   mkWorld (points w) (List.length docs + tick w)).
Proof.
  revert w. induction docs as [|d docs IH]; intros w.
  - destruct w; reflexivity.
  - cbn [score_documents scored_from List.length].
    unfold bind at 1. unfold completions_post at 1.
    unfold bind at 1. rewrite IH. cbn [bump points tick ret].
    now rewrite Nat.add_succ_r.
Qed.

Lemma rerank_run (q : string) (docs : list doc) (w : world) :
  fst (_rerank E q docs w) =
  Returned (map set_rerank_score
              (sort_desc fst (scored_from E q (tick w) docs))) /\
  points (snd (_rerank E q docs w)) = points w.
Proof.
  unfold _rerank. destruct docs as [|d docs]; [split; reflexivity|].
  unfold bind. rewrite score_documents_run. split; reflexivity.
Qed.

Lemma scored_from_docs (q : string) (docs : list doc) (n : nat) :
  map snd (scored_from E q n docs) = docs.
Proof.
  revert n. induction docs as [|d docs IH]; intros n; [reflexivity|].
  cbn [scored_from map snd]. now rewrite IH.
Qed.

(** Every hit of a nearest-neighbour search is the payload of a stored
    point that passes the filter and reaches the threshold. *)
Lemma nearest_in (ps : list point) (v : list Q) (conds : list condition)
    (limit : nat) (thr : Q) (h : Q * Memory) :
  In h (nearest E ps v conds limit thr) ->
  exists p, In p ps /\ h = (similarity E v (vector p), payload p) /\
            must conds (payload p) = true /\ Qle_bool thr (fst h) = true.
Proof.
  unfold nearest. intros Hin.
  apply firstn_In in Hin.
  apply (Permutation_in _ (sort_desc_perm _ fst _)) in Hin.
  apply filter_In in Hin. destruct Hin as [Hin Hthr].
  apply in_map_iff in Hin. destruct Hin as (p & <- & Hin).
  apply filter_In in Hin. destruct Hin as [Hin Hm].
  exists p. repeat split; assumption.
Qed.

(** A search returns only payloads of stored points that pass its filter. *)
Lemma search_memory_sound (q : string) (limit : nat)
    (mt imp st : option string) (min_score : Q) (rr : bool) (w w' : world)
    (docs : list doc) :
  search_memory E q limit mt imp st min_score rr w = (Returned docs, w') ->
  forall d, In d docs ->
  exists p, In p (points w) /\ fields d = payload p /\
    (forall s, st = Some s -> truthy s = true -> status (payload p) = s).
Proof.
  intros Hr d Hd. unfold search_memory in Hr. unfold bind at 1 in Hr.
  destruct (ensure_any w) as (o1 & n1 & He). rewrite He in Hr. clear He.
  destruct o1 as [[]|e]; [|discriminate].
  unfold bind at 1 in Hr.
  match type of Hr with
  | context [_get_embedding E q ?w0] =>
      destruct (embedding_any q w0) as [[_ Hb]|[_ [e Hb]]];
      rewrite Hb in Hr; clear Hb; [|discriminate]
  end.
  unfold bind at 1 in Hr. unfold qdrant_search in Hr. run_in Hr.
  destruct (net E Qdrant (S n1)); run_in Hr; try discriminate.
  match type of Hr with
  | context [nearest E (points w) ?v ?cs ?l ?t] =>
      pose proof (nearest_in (points w) v cs l t) as Hn;
      set (hits := nearest E (points w) v cs l t) in *
  end.
  assert (Hfields : forall cands o3 w3,
    (if rr && negb (match map hit_doc hits with [] => true | _ => false end)
     then try_except (_rerank E q (map hit_doc hits))
            (fun _ => ret (map hit_doc hits))
     else ret (map hit_doc hits)) (mkWorld (points w) (S (S n1))) =
      (o3, w3) ->
    o3 = Returned cands ->
    forall x, In x cands -> exists h, In h hits /\ fields x = snd h).
  { intros cands o3 w3 H3 -> x Hx.
    destruct (rr && negb _).
    - unfold try_except in H3.
      destruct (rerank_run q (map hit_doc hits)
                  (mkWorld (points w) (S (S n1)))) as [Hf _].
      destruct (_rerank E q (map hit_doc hits) _) as [o5 w5].
      cbn [fst] in Hf. subst o5. inversion H3; subst.
      apply in_map_iff in Hx. destruct Hx as (sd & <- & Hsd).
      apply (Permutation_in _ (sort_desc_perm _ fst _)) in Hsd.
      assert (Hs : In (snd sd) (map hit_doc hits)).
      { rewrite <- (scored_from_docs q (map hit_doc hits) (S (S n1))).
        now apply in_map. }
      apply in_map_iff in Hs. destruct Hs as (h & Hh & Hin).
      exists h. split; [exact Hin|].
      cbn [set_rerank_score fields]. rewrite <- Hh. reflexivity.
    - inversion H3; subst.
      apply in_map_iff in Hx. destruct Hx as (h & <- & Hin).
      exists h. split; [exact Hin|reflexivity]. }
  match type of Hr with
  | (let (_, _) := ?m ?w0 in _) = _ =>
      destruct (m w0) as [[cands|e] w3] eqn:Hm; [|discriminate]
  end.
  inversion Hr; subst.
  apply firstn_In in Hd.
  destruct (Hfields cands _ _ Hm eq_refl d Hd) as (h & Hh & Hfd).
  destruct (Hn h Hh) as (p & Hp & -> & Hmust & _).
  exists p. repeat split; [exact Hp|exact Hfd|].
  intros s -> Hs. rewrite Hs in Hmust.
  unfold must in Hmust. cbn [app forallb] in Hmust.
  apply andb_prop in Hmust. destruct Hmust as [Hst _].
  unfold holds in Hst. cbn in Hst. now apply String.eqb_eq in Hst.
Qed.

End AnyEnvironment.

(** In a well-formed store a point is the one found under its id. *)
Lemma lookup_in_wf (p : point) (ps : list point) :
  NoDup (map point_id ps) -> In p ps -> lookup (point_id p) ps = Some p.
Proof.
  unfold lookup. induction ps as [|q ps IH]; simpl; [intros _ []|].
  intros Hnd [->|Hin].
  - now rewrite String.eqb_refl.
  - inversion Hnd as [|x l Hnotin Hnd']; subst.
    destruct (String.eqb (point_id q) (point_id p)) eqn:Hq.
    + apply String.eqb_eq in Hq. exfalso. apply Hnotin.
      rewrite Hq. now apply in_map.
    + now apply IH.
Qed.

Lemma scroll_unknown (a : string) (ps : list point) :
  Forall (fun p => id (payload p) <> a) ps ->
  filter (fun p => must [("id", a)] (payload p)) ps = [].
Proof.
  induction 1 as [|p ps Hp _ IH]; [reflexivity|].
  simpl. unfold must, holds at 1; simpl.
  apply String.eqb_neq in Hp. rewrite Hp. exact IH.
Qed.

Lemma patched_id (c s i sb : option string) (t : string) (m : Memory) :
  id (patched c s i sb t m) = id m /\
  supersedes (patched c s i sb t m) = supersedes m.
Proof. destruct c, s, i, sb; split; reflexivity. Qed.

(** [update_memory] on a well-formed store: either nothing is written, or
    the call returns [True] having written the patched record back, with
    the embedding of the new content when content was given and the vector
    it had otherwise. *)
Lemma update_memory_outcome (E : env) (a : string) (c s i sb : option string)
    (w w' : world) (o : outcome bool) :
  wf_store (points w) ->
  update_memory E a c s i sb w = (o, w') ->
  points w' = points w \/
  exists pt t,
    lookup a (points w) = Some pt /\ o = Returned true /\
    points w' =
    upsert (mkPoint a
              (match c with Some c' => embed E c' | None => vector pt end)
              (patched c s i sb t (payload pt))) (points w).
Proof.
  intros [_ Hid]. unfold update_memory, qdrant_scroll, qdrant_upsert,
    _get_embedding. run.
  destruct (net E Qdrant (tick w)); run;
    try (intros Hr; inversion Hr; now left).
  rewrite (scroll_by_id a (points w) Hid).
  destruct (lookup a (points w)) as [pt|]; run;
    try (intros Hr; inversion Hr; now left).
  destruct c as [c'|]; run.
  - destruct (net E Ollama (S (tick w))); run;
      try (intros Hr; inversion Hr; now left).
    destruct (net E Qdrant (S (S (S (tick w))))); run;
      try (intros Hr; inversion Hr; now left).
    intros Hr; inversion Hr. right. exists pt. eexists.
    repeat split; reflexivity.
  - destruct (net E Qdrant (S (S (tick w)))); run;
      try (intros Hr; inversion Hr; now left).
    intros Hr; inversion Hr. right. exists pt. eexists.
    repeat split; reflexivity.
Qed.

(** The ways a call of [add_memory] on a well-formed store can go.  It
    raises; or it finds a duplicate, merges into it (if the index carries
    the merge out) and returns that record's id; or it generates an id,
    writes a new record under it (if the index carries the write out),
    marks the superseded record if there is one to mark, and returns the
    generated id. *)
Lemma add_memory_outcome (E : env) (c mt imp src : string) (tg : option (list string))
    (sup : option string) (dedup : bool) (thr : Q) (w w' : world)
    (o : outcome string) :
  wf_store (points w) ->
  add_memory E c mt imp src tg sup dedup thr w = (o, w') ->
  (exists e, o = Raised e) \/
  (exists (hit : Q * Memory) pt,
     o = Returned (id (snd hit)) /\
     dedup = true /\ truthy_opt sup = false /\
     hd_error (nearest E (points w) (embed E c) (dedup_scope mt) 1 thr) =
       Some hit /\
     lookup (id (snd hit)) (points w) = Some pt /\ payload pt = snd hit /\
     (points w' = points w \/
      exists t,
        points w' =
        upsert (mkPoint (id (snd hit)) (embed E c)
                  (patched (Some c) None
                     (Some (if negb (String.eqb imp "normal") then imp
                            else importance (snd hit)))
                     None t (payload pt)))
               (points w))) \/
  (exists n t ps1,
     let a := uuid4 E n in
     let new := mkPoint a (embed E c)
                  (mkMemory a c mt t imp "active" src
                     (match tg with Some l => l | None => [] end) None sup) in
     o = Returned a /\
     (ps1 = points w \/ ps1 = upsert new (points w)) /\
     (points w' = ps1 \/
      exists old pt t',
        sup = Some old /\ truthy old = true /\ lookup old ps1 = Some pt /\
        points w' =
        upsert (mkPoint old (vector pt)
                  (patched None (Some "superseded") None (Some a) t'
                     (payload pt))) ps1)).
Proof.
  intros Hwf Hr. unfold add_memory in Hr. unfold bind at 1 in Hr.
  destruct (ensure_any E w) as (o1 & n1 & He). rewrite He in Hr. clear He.
  destruct o1 as [[]|e]; [|inversion Hr; left; eexists; reflexivity].
  unfold bind at 1 in Hr.
  assert (Hex : exists o n,
    (if dedup && negb (truthy_opt sup)
     then find_similar_memory E c thr (Some mt)
     else ret None) (mkWorld (points w) n1) = (o, mkWorld (points w) n) /\
    forall hit, o = Returned (Some hit) ->
      dedup = true /\ truthy_opt sup = false /\
      hd_error (nearest E (points w) (embed E c) (dedup_scope mt) 1 thr) =
        Some hit).
  { destruct (dedup && negb (truthy_opt sup)) eqn:Hd.
    - destruct (find_similar_any E c thr mt (mkWorld (points w) n1))
        as (o2 & n & Hf & Hhit).
      exists o2, n. split; [exact Hf|]. intros hit Ho.
      apply andb_prop in Hd. destruct Hd as [Hd1 Hd2].
      apply negb_true_iff in Hd2. repeat split; auto.
    - exists (Returned None), n1. split; [reflexivity|discriminate]. }
  destruct Hex as (o2 & n & He & Hhit). rewrite He in Hr. clear He.
  destruct o2 as [[hit|]|e]; [| |inversion Hr; left; eexists; reflexivity].
  - (* merge *)
    destruct (Hhit hit eq_refl) as (Hd & Hsup & Hhd).
    assert (Hin : In hit
              (nearest E (points w) (embed E c) (dedup_scope mt) 1 thr)).
    { destruct (nearest E (points w) (embed E c) (dedup_scope mt) 1 thr);
        [discriminate|]. inversion Hhd. now left. }
    destruct (nearest_in E _ _ _ _ _ _ Hin) as (p & Hp & Heq & _ & _).
    assert (Hl : lookup (id (snd hit)) (points w) = Some p).
    { rewrite Heq. cbn [snd]. destruct Hwf as [Hnd Hall].
      rewrite Forall_forall in Hall. rewrite (Hall p Hp).
      now apply lookup_in_wf. }
    unfold bind at 1 in Hr.
    match type of Hr with
    | context [update_memory E ?a ?x1 ?x2 ?x3 ?x4 ?w0] =>
        destruct (update_memory E a x1 x2 x3 x4 w0) as [[b|e] w1] eqn:Hu;
        [|inversion Hr; left; eexists; reflexivity];
        destruct (update_memory_outcome E a x1 x2 x3 x4 w0 _ _ Hwf Hu)
          as [Hps|(pt & t & Hlpt & _ & Hps)]
    end; unfold ret in Hr; injection Hr as Ho Hw; rewrite <- Hw;
      right; left; exists hit, p;
      (split; [now symmetry|]); (split; [exact Hd|]);
      (split; [exact Hsup|]); (split; [exact Hhd|]); (split; [exact Hl|]);
      (split; [now rewrite Heq|]).
    + now left.
    + right. exists t. cbn [points] in Hlpt. rewrite Hl in Hlpt.
      inversion Hlpt. exact Hps.
  - (* create *)
    unfold bind at 1 in Hr. cbn [fresh_uuid bump points tick] in Hr.
    unfold bind at 1 in Hr. cbn [now bump points tick] in Hr.
    unfold bind at 1 in Hr.
    match type of Hr with
    | context [_get_embedding E c ?w0] =>
        destruct (embedding_any E c w0) as [[_ Hb]|[_ [e Hb]]];
        rewrite Hb in Hr; clear Hb;
        [|inversion Hr; left; eexists; reflexivity]
    end.
    unfold bind at 1 in Hr. cbn [bump points tick] in Hr.
    match type of Hr with
    | context [qdrant_upsert E ?a ?v ?m ?w0] =>
        destruct (upsert_any E a v m w0) as (o4 & ps1 & Hu & Hps);
        rewrite Hu in Hr; clear Hu
    end.
    cbn [points tick] in Hps.
    destruct o4 as [[]|e]; [|inversion Hr; left; eexists; reflexivity].
    assert (Hwf1 : wf_store ps1).
    { destruct Hps as [->| ->]; [exact Hwf|].
      apply wf_upsert; [exact Hwf|reflexivity]. }
    destruct sup as [old|]; cbn [truthy_opt] in Hr.
    + destruct (truthy old) eqn:Hold.
      * unfold bind at 1 in Hr. unfold bind at 1 in Hr.
        match type of Hr with
        | context [update_memory E ?a ?x1 ?x2 ?x3 ?x4 ?w0] =>
            destruct (update_memory E a x1 x2 x3 x4 w0) as [[b|e] w1] eqn:Hu;
            [|inversion Hr; left; eexists; reflexivity];
            destruct (update_memory_outcome E a x1 x2 x3 x4 w0 _ _ Hwf1 Hu)
              as [Hps'|(pt & t & Hlpt & _ & Hps')]
        end; unfold ret in Hr; injection Hr as Ho Hw; rewrite <- Hw;
          right; right;
          exists n, (utcnow E (S n)), ps1; cbn zeta;
          (split; [now symmetry|]); (split; [exact Hps|]).
        -- now left.
        -- right. exists old, pt, t. cbn [points] in Hlpt, Hps'.
           repeat split; auto.
      * cbn [ret bind] in Hr. inversion Hr. right; right.
        exists n, (utcnow E (S n)), ps1. cbn zeta.
        split; [reflexivity|]. split; [exact Hps|]. now left.
    + cbn [ret bind] in Hr. inversion Hr. right; right.
      exists n, (utcnow E (S n)), ps1. cbn zeta.
      split; [reflexivity|]. split; [exact Hps|]. now left.
Qed.

(** *** Well-formedness is an invariant

    The empty collection is well formed and both writes keep it so,
    whatever the services answer: the stores the theorems below speak of
    are the ones the code can build. *)

Lemma wf_store_nil : wf_store [].
Proof. split; constructor. Qed.

Lemma wf_patch (a : string) (v : list Q) (c s i sb : option string)
    (t : string) (pt : point) (ps : list point) :
  wf_store ps -> lookup a ps = Some pt ->
  wf_store (upsert (mkPoint a v (patched c s i sb t (payload pt))) ps).
Proof.
  intros Hwf Hl. apply wf_upsert; [exact Hwf|]. cbn [payload point_id].
  destruct (patched_id c s i sb t (payload pt)) as [-> _].
  destruct (lookup_some _ _ _ Hl) as [Hin Hid].
  destruct Hwf as [_ Hall]. rewrite Forall_forall in Hall.
  now rewrite (Hall pt Hin).
Qed.

Lemma update_memory_wf (E : env) (a : string) (c s i sb : option string)
    (w : world) :
  wf_store (points w) ->
  wf_store (points (snd (update_memory E a c s i sb w))).
Proof.
  intros Hwf.
  destruct (update_memory_effect E a c s i sb w Hwf)
    as [->|(pt & v & t & Hl & _ & ->)]; [exact Hwf|].
  now apply wf_patch.
Qed.

Lemma add_memory_wf (E : env) (c mt imp src : string)
    (tg : option (list string)) (sup : option string) (dedup : bool)
    (thr : Q) (w w' : world) (o : outcome string) :
  wf_store (points w) ->
  add_memory E c mt imp src tg sup dedup thr w = (o, w') ->
  wf_store (points w').
Proof.
  intros Hwf Hrun.
  destruct (add_memory_effect E c mt imp src tg sup dedup thr w w' o
              Hwf Hrun)
    as [->|[(hit & pt & v & t & i' & _ & Hl & ->)
           |(n & t & ps1 & Hps1 & Hfin)]].
  - exact Hwf.
  - now apply wf_patch.
  - cbn zeta in Hps1, Hfin.
    assert (Hwf1 : wf_store ps1).
    { destruct Hps1 as [->| ->]; [exact Hwf|].
      apply wf_upsert; [exact Hwf|reflexivity]. }
    destruct Hfin as [->|(old & pt & v & t' & _ & Hl & ->)]; [exact Hwf1|].
    now apply wf_patch.
Qed.

(** ** Specified behaviour *)

(** C9. For every id that no stored record carries, [update_memory] leaves
    the store exactly as it was, whatever the services answer; and as soon
    as the index answers the lookup at all (with any status), the call
    returns [false] and does not raise. *)
Theorem update_memory_unknown_id (E : env) (a : string)
    (c s i sb : option string) (w : world) :
  Forall (fun p => id (payload p) <> a) (points w) ->
  points (snd (update_memory E a c s i sb w)) = points w /\
  (net E Qdrant (tick w) <> Unreachable ->
   update_memory E a c s i sb w = (Returned false, bump w)).
Proof.
  intros Hun.
  unfold update_memory, qdrant_scroll. run.
  destruct (net E Qdrant (tick w)); run;
    rewrite ?(scroll_unknown a (points w) Hun); run;
    split; try reflexivity; intros H; try reflexivity.
  now elim H.
Qed.

Lemma update_memory_unknown_id_witness :
  points (snd (update_memory Fixture.env0 "unknown" (Some "y") None None None
                 Fixture.w_high)) = points Fixture.w_high /\
  (net Fixture.env0 Qdrant (tick Fixture.w_high) <> Unreachable ->
   update_memory Fixture.env0 "unknown" (Some "y") None None None
     Fixture.w_high = (Returned false, bump Fixture.w_high)).
Proof.
  apply (update_memory_unknown_id Fixture.env0 "unknown" (Some "y") None None
           None Fixture.w_high).
  repeat constructor. discriminate.
Defined.



(** C4 (as the code has it).  Superseding an existing record [old].
    Whatever the services answer, when [add_memory] returns, it returns a
    generated id [b] that is not [old] and was not stored before; the old
    record is then either exactly as it was (as happens when the index
    answers the lookup of the marking with an error status, which
    [add_memory] ignores) or has status superseded and [superseded_by = b];
    and the new
    record, if the index stored it, is active with [supersedes = old].
    When both services answer every call, the call returns, the old record
    is marked and the new one stored.  And no search with the default
    status filter lists a record that is superseded in the store it
    searches, whatever the services answer during that search. *)
Theorem supersession_links (E : env) (c mt imp src : string)
    (tg : option (list string)) (old : string) (dedup : bool) (thr : Q)
    (w : world) (pa : point) :
  wf_store (points w) -> fresh_ids E (points w) ->
  truthy old = true -> lookup old (points w) = Some pa ->
  (forall b w',
     add_memory E c mt imp src tg (Some old) dedup thr w = (Returned b, w') ->
     b <> old /\ lookup b (points w) = None /\ wf_store (points w') /\
     (exists pa',
        lookup old (points w') = Some pa' /\
        (pa' = pa \/
         status (payload pa') = "superseded" /\
         superseded_by (payload pa') = Some b)) /\
     (forall pb, lookup b (points w') = Some pb ->
        supersedes (payload pb) = Some old /\ content (payload pb) = c /\
        status (payload pb) = "active")) /\
  (healthy E ->
   exists b w' pa' pb,
     add_memory E c mt imp src tg (Some old) dedup thr w = (Returned b, w') /\
     lookup old (points w') = Some pa' /\
     status (payload pa') = "superseded" /\
     superseded_by (payload pa') = Some b /\
     lookup b (points w') = Some pb /\
     supersedes (payload pb) = Some old /\
     content (payload pb) = c) /\
  (forall (E' : env) w' pa',
     wf_store (points w') ->
     lookup old (points w') = Some pa' ->
     status (payload pa') = "superseded" ->
     forall q limit mt' imp' min_score rr w2 docs w3,
       points w2 = points w' ->
       search_memory E' q limit mt' imp' (Some "active") min_score rr w2 =
         (Returned docs, w3) ->
       forall d, In d docs -> id (fields d) <> old).
Proof.
  intros Hwf Hfresh Hold Hpa.
  split; [|split].
  - intros b w' Hrun.
    pose proof (add_memory_wf E c mt imp src tg (Some old) dedup thr w w' _
                  Hwf Hrun) as Hwf'.
    destruct (add_memory_outcome E c mt imp src tg (Some old) dedup thr w w' _
                Hwf Hrun)
      as [[e He]|[(hit & pt & _ & _ & Hsup & _)
                 |(n & t & ps1 & Ho & Hps1 & Hfin)]].
    + discriminate.
    + cbn [truthy_opt] in Hsup. rewrite Hold in Hsup. discriminate.
    + cbn zeta in Ho, Hps1, Hfin. injection Ho as Hb. subst b.
      set (a := uuid4 E n) in *.
      set (new := mkPoint a (embed E c) _) in *.
      assert (Hnone : lookup a (points w) = None) by apply Hfresh.
      assert (Hne : a <> old).
      { intros Heq. rewrite Heq, Hpa in Hnone. discriminate. }
      assert (Hl1 : lookup old ps1 = Some pa).
      { destruct Hps1 as [->| ->]; [exact Hpa|].
        rewrite lookup_upsert_other; [exact Hpa|]. now apply not_eq_sym. }
      assert (Hb1 : forall pb, lookup a ps1 = Some pb -> pb = new).
      { intros pb. destruct Hps1 as [->| ->].
        - rewrite Hnone. discriminate.
        - rewrite (lookup_upsert_same new). now intros [= <-]. }
      split; [exact Hne|]. split; [exact Hnone|]. split; [exact Hwf'|].
      destruct Hfin as [Hw'|(old' & pt & t' & Hsup & _ & Hl & Hw')];
        rewrite Hw'.
      * split; [exists pa; split; [exact Hl1|now left]|].
        intros pb Hpb. rewrite (Hb1 pb Hpb). repeat split; reflexivity.
      * injection Hsup as Ho'. subst old'.
        rewrite Hl1 in Hl. injection Hl as Hpt. subst pt. split.
        -- eexists. split; [apply (lookup_upsert_same (mkPoint old _ _))|].
           right. split; reflexivity.
        -- intros pb. rewrite lookup_upsert_other; [|exact Hne].
           intros Hpb. rewrite (Hb1 pb Hpb). repeat split; reflexivity.
  - intros Hup.
    set (a := uuid4 E (1 + tick w)).
    set (new := mkPoint a (embed E c)
                  (mkMemory a c mt (utcnow E (2 + tick w)) imp "active" src
                     (match tg with Some l => l | None => [] end) None
                     (Some old))).
    set (pa' := mkPoint old (vector pa)
                  (patched None (Some "superseded") None (Some a)
                     (utcnow E (1 + (5 + tick w))) (payload pa))).
    set (ps' := upsert pa' (upsert new (points w))).
    assert (Hne : old <> a).
    { intros Heq. specialize (Hfresh (1 + tick w)). fold a in Hfresh.
      rewrite <- Heq, Hpa in Hfresh. discriminate. }
    assert (Hwf1 : wf_store (upsert new (points w))).
    { apply wf_upsert; [exact Hwf|reflexivity]. }
    assert (Hl1 : lookup old (upsert new (points w)) = Some pa).
    { rewrite lookup_upsert_other; [exact Hpa|exact Hne]. }
    exists a, (mkWorld ps' (3 + (5 + tick w))), pa', new.
    split; [|split; [|split; [|split; [|split; [|split]]]]].
    + rewrite (add_memory_create E Hup c mt imp src tg (Some old) dedup thr w
                 1).
      * rewrite Hold. fold a. fold new.
        change (4 + 1 + tick w) with (5 + tick w).
        rewrite (update_memory_served E Hup); [|exact Hwf1].
        cbn [points tick]. rewrite Hl1. reflexivity.
      * right. cbn [truthy_opt]. rewrite Hold. split; [|reflexivity].
        apply andb_false_r.
    + apply (lookup_upsert_same pa').
    + reflexivity.
    + reflexivity.
    + cbn [points]. unfold ps'. rewrite lookup_upsert_other.
      * apply (lookup_upsert_same new).
      * intros Heq. apply Hne. now rewrite Heq.
    + reflexivity.
    + reflexivity.
  - intros E' w' pa' Hwf' Hl' Hst' q limit mt' imp' min_score rr w2 docs w3
      Hps Hs d Hd Hid.
    destruct (search_memory_sound E' q limit mt' imp' (Some "active")
                min_score rr w2 w3 docs Hs d Hd) as (p & Hp & Hf & Hst).
    rewrite Hps in Hp.
    specialize (Hst "active" eq_refl eq_refl).
    destruct Hwf' as [Hnd Hall]. rewrite Forall_forall in Hall.
    assert (Hpid : point_id p = old).
    { rewrite <- (Hall p Hp), <- Hf. exact Hid. }
    pose proof (lookup_in_wf p (points w') Hnd Hp) as Hlp.
    rewrite Hpid, Hl' in Hlp. injection Hlp as Heq. rewrite Heq in Hst'.
    rewrite Hst in Hst'. discriminate.
Qed.

Lemma supersession_links_witness :
  exists b w' pa' pb,
    add_memory Fixture.env0 "Prefer dark mode" "preference" "normal"
      "conversation" None (Some "x") true 0.85%Q Fixture.w_theme =
      (Returned b, w') /\
    b <> "x" /\ lookup b (points Fixture.w_theme) = None /\
    lookup "x" (points w') = Some pa' /\
    status (payload pa') = "superseded" /\
    superseded_by (payload pa') = Some b /\
    lookup b (points w') = Some pb /\
    supersedes (payload pb) = Some "x" /\
    content (payload pb) = "Prefer dark mode" /\
    forall (E' : env) q limit mt' imp' min_score rr w2 docs w3,
      points w2 = points w' ->
      search_memory E' q limit mt' imp' (Some "active") min_score rr w2 =
        (Returned docs, w3) ->
      forall d, In d docs -> id (fields d) <> "x".
Proof.
  destruct (supersession_links Fixture.env0 "Prefer dark mode" "preference"
              "normal" "conversation" None "x" true 0.85%Q Fixture.w_theme
              (Fixture.pt "x" "Use a dark theme" "preference" "normal"
                 "active"))
    as (Hany & Hserved & Hsearch).
  - split; [repeat constructor; simpl; intuition discriminate
           |repeat constructor].
  - intros n. unfold lookup. simpl. reflexivity.
  - reflexivity.
  - reflexivity.
  - destruct (Hserved (fun b n => eq_refl))
      as (b & w' & pa' & pb & Hrun & Hl & Hst & Hby & Hlb & Hsup & Hc).
    destruct (Hany b w' Hrun) as (Hne & Hnew & Hwf' & _).
    exists b, w', pa', pb. repeat split; try assumption.
    intros E' q limit mt' imp' min_score rr w2 docs w3.
    now apply (Hsearch E' w' pa').
Defined.

(** C4, the claim as stated fails: the index answers one call, the lookup
    of the record to mark, with an error status; [add_memory] returns the new
    id all the same, the old record is still active and not linked, and a
    search with the default status filter still lists it. *)
Lemma supersession_mark_can_be_lost :
  let E := answering Fixture.env0 Qdrant 5 Refused in
  let r := add_memory E "Prefer dark mode" "preference" "normal"
             "conversation" None (Some "x") true 0.85%Q Fixture.w_theme in
  lookup "x" (points Fixture.w_theme) <> None /\
  fst r = Returned "mem-1" /\
  option_map (fun p => (status (payload p), superseded_by (payload p)))
    (lookup "x" (points (snd r))) = Some ("active", None) /\
  option_map (fun p => supersedes (payload p))
    (lookup "mem-1" (points (snd r))) = Some (Some "x") /\
  exists docs,
    fst (search_memory Fixture.env0 "Use a dark theme" 5 None None
           (Some "active") 0.5%Q false (snd r)) = Returned docs /\
    In "x" (map (fun d => id (fields d)) docs).
Proof.
  vm_compute. split; [discriminate|]. repeat split.
  eexists. split; [reflexivity|]. simpl. auto.
Qed.

(** The merge branch carried through: the duplicate found is a stored
    record, and the patched record is written back under its id. *)
Lemma add_memory_merge_run (E : env) (c mt imp src : string)
    (tg : option (list string)) (sup : option string) (thr : Q) (w : world)
    (s : Q) (m : Memory) :
  healthy E -> wf_store (points w) -> truthy_opt sup = false ->
  hd_error (nearest E (points w) (embed E c) (dedup_scope mt) 1 thr) =
    Some (s, m) ->
  exists p,
    lookup (id m) (points w) = Some p /\ payload p = m /\
    must (dedup_scope mt) m = true /\
    add_memory E c mt imp src tg sup true thr w =
    (Returned (id m),
     mkWorld
       (upsert
          (mkPoint (id m) (embed E c)
             (patched (Some c) None
                (Some (if negb (String.eqb imp "normal") then imp
                       else importance m))
                None (utcnow E (6 + tick w)) m))
          (points w))
       (8 + tick w)).
Proof.
  intros Hup Hwf Hsup Hhit.
  assert (Hin : In (s, m)
                  (nearest E (points w) (embed E c) (dedup_scope mt) 1 thr)).
  { destruct (nearest E (points w) (embed E c) (dedup_scope mt) 1 thr);
      [discriminate|]. inversion Hhit. now left. }
  destruct (nearest_in E _ _ _ _ _ _ Hin) as (p & Hp & Heq & Hm & _).
  injection Heq as Hs Hpm. subst s m.
  assert (Hl : lookup (id (payload p)) (points w) = Some p).
  { destruct Hwf as [Hnd Hall]. rewrite Forall_forall in Hall.
    rewrite (Hall p Hp). now apply lookup_in_wf. }
  exists p. repeat split; [exact Hl|exact Hm|].
  rewrite (add_memory_merge E Hup c mt imp src tg sup thr w _ Hsup Hhit).
  cbn [snd]. rewrite (update_memory_served E Hup); [|exact Hwf].
  cbn [points tick]. rewrite Hl. reflexivity.
Qed.

(** C1 (as the code has it).  Whatever the services answer: when
    [add_memory] returns the id of a record that was already stored,
    deduplication fired (the record is the nearest active neighbour in scope
    and reaches the threshold, [deduplicate] is true and [supersedes] is
    absent or empty) and no record is created; the record is either exactly
    as it was (as happens when the index answers the write of the merge
    with an error status, which the code does not look at) or it carries
    the new content and, as importance, the caller's when that is not
    "normal" and the one it had when the caller's is "normal".  When both
    services
    answer every call, deduplication fires as soon as such a neighbour
    exists, and the record is merged in that way.  The merged importance is
    the higher of the two whenever the caller's is not "normal" and at least
    the existing one. *)
Theorem dedup_merge_importance (E : env) (c mt imp src : string)
    (tg : option (list string)) (sup : option string) (thr : Q) (w : world) :
  wf_store (points w) ->
  (forall dedup a w' p,
     fresh_ids E (points w) ->
     add_memory E c mt imp src tg sup dedup thr w = (Returned a, w') ->
     lookup a (points w) = Some p ->
     dedup = true /\ truthy_opt sup = false /\
     (exists s,
        hd_error (nearest E (points w) (embed E c) (dedup_scope mt) 1 thr) =
        Some (s, payload p)) /\
     map point_id (points w') = map point_id (points w) /\
     exists p',
       lookup a (points w') = Some p' /\
       (p' = p \/
        content (payload p') = c /\
        importance (payload p') =
          (if String.eqb imp "normal" then importance (payload p) else imp) /\
        (imp <> "normal" ->
         importance_rank (importance (payload p)) <= importance_rank imp ->
         importance_rank (importance (payload p')) =
         Nat.max (importance_rank (importance (payload p)))
                 (importance_rank imp)))) /\
  (healthy E -> truthy_opt sup = false ->
   forall s m,
     hd_error (nearest E (points w) (embed E c) (dedup_scope mt) 1 thr) =
       Some (s, m) ->
     exists w' p',
       add_memory E c mt imp src tg sup true thr w = (Returned (id m), w') /\
       lookup (id m) (points w') = Some p' /\
       content (payload p') = c /\
       map point_id (points w') = map point_id (points w) /\
       importance (payload p') =
         (if String.eqb imp "normal" then importance m else imp) /\
       (imp <> "normal" ->
        importance_rank (importance m) <= importance_rank imp ->
        importance_rank (importance (payload p')) =
        Nat.max (importance_rank (importance m)) (importance_rank imp))).
Proof.
  intros Hwf. split.
  - intros dedup a w' p Hfresh Hrun Hp.
    destruct (add_memory_outcome E c mt imp src tg sup dedup thr w w' _
                Hwf Hrun)
      as [[e He]|[(hit & pt & Ho & Hd & Hsup & Hhd & Hl & Hpay & Hps)
                 |(n & t & ps1 & Ho & _)]].
    + discriminate.
    + injection Ho as Ha. rewrite <- Ha in Hl. rewrite Hp in Hl.
      injection Hl as Hpt. subst pt.
      split; [exact Hd|]. split; [exact Hsup|].
      split; [exists (fst hit); rewrite Hpay, <- surjective_pairing;
              exact Hhd|].
      destruct Hps as [Hps|[t Hps]]; rewrite Hps.
      * split; [reflexivity|]. exists p. split; [exact Hp|now left].
      * rewrite <- Ha, <- Hpay.
        split; [apply (upsert_ids_present (mkPoint a _ _) p); exact Hp|].
        eexists. split; [apply (lookup_upsert_same (mkPoint a _ _))|].
        right.
        cbn [payload patched with_timestamp with_importance with_content
             importance content].
        split; [reflexivity|]. split.
        -- destruct (String.eqb imp "normal"); reflexivity.
        -- intros Hn Hle. apply String.eqb_neq in Hn. rewrite Hn. cbn [negb].
           now rewrite Nat.max_r.
    + cbn zeta in Ho. injection Ho as Ha. rewrite Ha in Hp.
      rewrite (Hfresh n) in Hp. discriminate.
  - intros Hup Hsup s m Hhit.
    destruct (add_memory_merge_run E c mt imp src tg sup thr w s m
                Hup Hwf Hsup Hhit) as (p & Hl & Hpm & _ & Hrun).
    eexists. eexists. split; [exact Hrun|]. cbn [points].
    split; [apply (lookup_upsert_same (mkPoint (id m) _ _))|].
    split; [reflexivity|].
    split; [apply (upsert_ids_present (mkPoint (id m) _ _) p); exact Hl|].
    cbn [payload patched with_timestamp with_importance with_content
         importance].
    split.
    + destruct (String.eqb imp "normal"); reflexivity.
    + intros Hn Hle. apply String.eqb_neq in Hn. rewrite Hn. cbn [negb].
      now rewrite Nat.max_r.
Qed.

Lemma dedup_merge_importance_witness :
  (exists w' p',
     add_memory Fixture.env0 "Prefer dark mode" "preference" "critical"
       "conversation" None None true 0.85%Q Fixture.w_high =
       (Returned "a", w') /\
     lookup "a" (points w') = Some p' /\
     importance (payload p') = "critical") /\
  (exists w',
     add_memory (answering Fixture.env0 Qdrant 7 Refused) "Prefer dark mode"
       "preference" "critical" "conversation" None None true 0.85%Q
       Fixture.w_high = (Returned "a", w') /\
     map point_id (points w') = map point_id (points Fixture.w_high) /\
     lookup "a" (points w') =
     Some (Fixture.pt "a" "Prefer dark mode" "preference" "high" "active")).
Proof.
  assert (Hwf : wf_store (points Fixture.w_high)).
  { split; [repeat constructor; simpl; intuition discriminate
           |repeat constructor]. }
  split.
  - destruct (dedup_merge_importance Fixture.env0 "Prefer dark mode"
                "preference" "critical" "conversation" None None 0.85%Q
                Fixture.w_high Hwf) as [_ Hmerge].
    destruct (Hmerge (fun b n => eq_refl) eq_refl (625 # 625)%Q
                (Fixture.mem "a" "Prefer dark mode" "preference" "high"
                   "active") eq_refl)
      as (w' & p' & Hrun & Hl & _ & _ & Himp & _).
    exists w', p'. repeat split; assumption.
  - destruct (dedup_merge_importance (answering Fixture.env0 Qdrant 7 Refused)
                "Prefer dark mode" "preference" "critical" "conversation"
                None None 0.85%Q Fixture.w_high Hwf) as [Hany _].
    eexists. split; [vm_compute; reflexivity|].
    destruct (Hany true "a" _
                (Fixture.pt "a" "Prefer dark mode" "preference" "high"
                   "active")
                (fun n => eq_refl) eq_refl eq_refl)
      as (_ & _ & _ & Hids & p' & Hl & _).
    split; [exact Hids|]. reflexivity.
Defined.

(** C1, the claim as stated fails: a duplicate of importance "high" written
    again with importance "low" ends up "low", below the existing value and
    below the maximum of the two. *)
Lemma dedup_can_lower_importance :
  let r := add_memory Fixture.env0 "Prefer dark mode" "preference" "low"
             "conversation" None None true 0.85%Q Fixture.w_high in
  fst r = Returned "a" /\
  option_map (fun p => importance (payload p))
    (lookup "a" (points Fixture.w_high)) = Some "high" /\
  option_map (fun p => importance (payload p))
    (lookup "a" (points (snd r))) = Some "low" /\
  importance_rank "low" < importance_rank "high" /\
  importance_rank "low" <>
  Nat.max (importance_rank "high") (importance_rank "low").
Proof.
  vm_compute. repeat split; try reflexivity; lia.
Qed.

Lemma nodup_split_ids (l1 l2 : list point) (p q : point) :
  NoDup (map point_id (l1 ++ p :: l2)) -> In q (l1 ++ l2) ->
  point_id q <> point_id p.
Proof.
  rewrite map_app. cbn [map]. intros Hnd Hq Heq.
  apply NoDup_remove_2 in Hnd. apply Hnd.
  rewrite <- map_app, <- Heq. now apply in_map.
Qed.

(** A stored point in scope that reaches the threshold and is strictly
    nearer than every other point in scope is the single nearest
    neighbour. *)
Lemma nearest_strict_best (E : env) (ps : list point) (v : list Q)
    (conds : list condition) (thr : Q) (p : point) :
  NoDup (map point_id ps) -> In p ps ->
  must conds (payload p) = true ->
  (thr <= similarity E v (vector p))%Q ->
  (forall q, In q ps -> point_id q <> point_id p ->
             must conds (payload q) = true ->
             (similarity E v (vector q) < similarity E v (vector p))%Q) ->
  nearest E ps v conds 1 thr = [(similarity E v (vector p), payload p)].
Proof.
  intros Hnd Hin Hm Hthr Hbest.
  apply in_split in Hin. destruct Hin as (l1 & l2 & ->).
  assert (Hlow : forall l, incl l (l1 ++ l2) ->
    Forall (fun y : Q * Memory =>
              (fst y < fst (similarity E v (vector p), payload p))%Q)
      (filter (fun h => Qle_bool thr (fst h))
         (map (fun q => (similarity E v (vector q), payload q))
            (filter (fun q => must conds (payload q)) l)))).
  { intros l Hl. apply Forall_forall. intros y Hy.
    apply filter_In in Hy. destruct Hy as [Hy _].
    apply in_map_iff in Hy. destruct Hy as (q & <- & Hq).
    apply filter_In in Hq. destruct Hq as [Hq Hmq]. cbn [fst].
    apply Hbest; [|eapply nodup_split_ids; [exact Hnd|now apply Hl]|exact Hmq].
    apply Hl in Hq. apply in_app_or in Hq. apply in_or_app.
    destruct Hq; [now left|right; now right]. }
  unfold nearest. rewrite filter_app. cbn [filter]. rewrite Hm.
  rewrite map_app. cbn [map]. rewrite filter_app. cbn [filter fst].
  apply Qle_bool_iff in Hthr. rewrite Hthr.
  rewrite sort_desc_strict_max.
  - reflexivity.
  - apply Hlow. apply incl_appl, incl_refl.
  - apply Hlow. apply incl_appr, incl_refl.
Qed.

(** After a deduplicating [add_memory] with healthy services the returned
    id is stored, in scope of the same duplicate search, with the embedding
    of the content just written. *)
Lemma add_memory_dedup_post (E : env) (c mt imp src : string)
    (tg : option (list string)) (thr : Q) (w w1 : world) (a : string) :
  healthy E -> wf_store (points w) -> fresh_ids E (points w) ->
  add_memory E c mt imp src tg None true thr w = (Returned a, w1) ->
  wf_store (points w1) /\
  exists p, lookup a (points w1) = Some p /\ vector p = embed E c /\
            must (dedup_scope mt) (payload p) = true.
Proof.
  intros Hup Hwf Hfresh Hrun.
  destruct (nearest E (points w) (embed E c) (dedup_scope mt) 1 thr)
    as [|[s m] l] eqn:Hn.
  - rewrite (add_memory_create E Hup c mt imp src tg None true thr w 4)
      in Hrun; [|left; auto].
    inversion Hrun; subst. cbn [points]. split.
    + apply wf_upsert; [exact Hwf|reflexivity].
    + eexists. split; [apply (lookup_upsert_same (mkPoint _ _ _))|].
      split; [reflexivity|].
      unfold dedup_scope, must, holds. cbn.
      destruct (truthy mt); cbn; [|reflexivity].
      now rewrite String.eqb_refl.
  - destruct (add_memory_merge_run E c mt imp src tg None thr w s m
                Hup Hwf eq_refl) as (p & Hl & Hpm & Hm & Hrun').
    { now rewrite Hn. }
    rewrite Hrun' in Hrun. inversion Hrun; subst. cbn [points]. split.
    + apply wf_upsert; [exact Hwf|reflexivity].
    + eexists. split; [apply (lookup_upsert_same (mkPoint _ _ _))|].
      split; [reflexivity|].
      revert Hm. unfold dedup_scope, must, holds. cbn.
      destruct (truthy mt); cbn; auto.
Qed.

(** A stored point in scope that reaches the threshold makes the duplicate
    search find something. *)
Lemma nearest_nonempty (E : env) (ps : list point) (v : list Q)
    (conds : list condition) (thr : Q) (p : point) :
  In p ps -> must conds (payload p) = true ->
  (thr <= similarity E v (vector p))%Q ->
  nearest E ps v conds 1 thr <> [].
Proof.
  intros Hp Hm Hthr. unfold nearest.
  set (l := filter (fun h : Q * Memory => Qle_bool thr (fst h))
              (map (fun p0 => (similarity E v (vector p0), payload p0))
                 (filter (fun p0 => must conds (payload p0)) ps))).
  assert (Hin : In (similarity E v (vector p), payload p) l).
  { apply filter_In. split.
    - apply in_map_iff. exists p. split; [reflexivity|].
      apply filter_In. now split.
    - cbn [fst]. now apply Qle_bool_iff. }
  apply (Permutation_in _ (Permutation_sym (sort_desc_perm _ fst l))) in Hin.
  destruct (sort_desc fst l); [destruct Hin|]. discriminate.
Qed.




(** *** Supersession as an invariant of the store *)

Lemma keeps_superseded_refl (ps : list point) : keeps_superseded ps ps.
Proof. intros a p Hl Hs. now exists p. Qed.

Lemma keeps_superseded_trans (ps1 ps2 ps3 : list point) :
  keeps_superseded ps1 ps2 -> keeps_superseded ps2 ps3 ->
  keeps_superseded ps1 ps3.
Proof.
  intros H12 H23 a p Hl Hs.
  destruct (H12 a p Hl Hs) as (p2 & Hl2 & Hs2). now apply (H23 a p2).
Qed.

Lemma keeps_superseded_new (p : point) (ps : list point) :
  lookup (point_id p) ps = None -> keeps_superseded ps (upsert p ps).
Proof.
  intros Hnone a q Hl Hs. exists q. split; [|exact Hs].
  rewrite lookup_upsert_other; [exact Hl|].
  intros ->. rewrite Hl in Hnone. discriminate.
Qed.

Lemma patched_keeps (c s i sb : option string) (t : string) (m : Memory) :
  id (patched c s i sb t m) = id m /\
  supersedes (patched c s i sb t m) = supersedes m /\
  status (patched c s i sb t m) =
    match s with Some s' => s' | None => status m end.
Proof. destruct c, s, i, sb; repeat split; reflexivity. Qed.

(** Writing a patched record back keeps every superseded record
    superseded, unless the patch sets another status. *)
Lemma keeps_superseded_patch (a : string) (v : list Q)
    (c s i sb : option string) (t : string) (pt : point) (ps : list point) :
  lookup a ps = Some pt -> s = None \/ s = Some "superseded" ->
  keeps_superseded ps (upsert (mkPoint a v (patched c s i sb t (payload pt))) ps).
Proof.
  intros Hpt Hs x q Hl Hq.
  destruct (String.eqb x a) eqn:Hx.
  - apply String.eqb_eq in Hx. subst x.
    eexists. split; [apply (lookup_upsert_same (mkPoint a _ _))|].
    cbn [payload].
    destruct (patched_keeps c s i sb t (payload pt)) as (_ & _ & ->).
    rewrite Hpt in Hl. inversion Hl; subst.
    destruct Hs as [->| ->]; [exact Hq|reflexivity].
  - apply String.eqb_neq in Hx. exists q. split; [|exact Hq].
    rewrite lookup_upsert_other; [exact Hl|exact Hx].
Qed.

(** *** Supersession links never close a cycle *)

(** Writing a patched record back adds no link: [update_memory] changes
    neither [id] nor [supersedes]. *)
Lemma link_patch (a : string) (v : list Q) (c s i sb : option string)
    (t : string) (pt : point) (ps : list point) (x y : string) :
  lookup a ps = Some pt ->
  supersedes_link
    (upsert (mkPoint a v (patched c s i sb t (payload pt))) ps) x y ->
  supersedes_link ps x y.
Proof.
  intros Hpt (p & Hin & Hx & Hy).
  destruct (upsert_in _ _ _ Hin) as [->|Hin']; [|now exists p].
  cbn [payload] in Hx, Hy.
  destruct (patched_keeps c s i sb t (payload pt)) as (Hid & Hsup & _).
  rewrite Hid in Hx. rewrite Hsup in Hy.
  exists pt. split; [|now split]. now apply (lookup_some a).
Qed.

(** A new record adds at most the link it carries. *)
Lemma link_new (p : point) (ps : list point) (x y : string) :
  supersedes_link (upsert p ps) x y ->
  supersedes_link ps x y \/
  x = id (payload p) /\ supersedes (payload p) = Some y.
Proof.
  intros (q & Hin & Hx & Hy).
  destruct (upsert_in _ _ _ Hin) as [->|Hin']; [now right|].
  left. now exists q.
Qed.

Lemma acyclic_fewer_links (ps ps' : list point) :
  (forall x y, supersedes_link ps' x y -> supersedes_link ps x y) ->
  acyclic ps -> acyclic ps'.
Proof.
  intros Hsub Hac a Hcyc. apply (Hac a).
  assert (H : forall x y, clos_trans string (supersedes_link ps') x y ->
                          clos_trans string (supersedes_link ps) x y).
  { intros x y Hxy. induction Hxy as [x y H|x y z _ IH1 _ IH2].
    - apply t_step. now apply Hsub.
    - now apply t_trans with y. }
  now apply H.
Qed.

(** Links out of a record that no link points to cannot close a cycle. *)
Lemma acyclic_new_source (ps ps' : list point) (b : string)
    (sup : option string) :
  (forall x y, supersedes_link ps' x y ->
               supersedes_link ps x y \/ x = b /\ sup = Some y) ->
  (forall x, ~ supersedes_link ps x b) -> sup <> Some b ->
  acyclic ps -> acyclic ps'.
Proof.
  intros Hlinks Hin Hsup Hac a Hcyc.
  assert (H : forall x y, clos_trans string (supersedes_link ps') x y ->
    y <> b /\ (x <> b -> clos_trans string (supersedes_link ps) x y)).
  { intros x y Hxy. induction Hxy as [x y H|x y z _ [Hy IH1] _ [Hz IH2]].
    - destruct (Hlinks x y H) as [Hold|[-> Hy]].
      + split; [|intros _; now apply t_step].
        intros ->. now apply (Hin x).
      + split; [|intros Hb; now elim Hb].
        intros ->. now apply Hsup.
    - split; [exact Hz|]. intros Hx.
      apply t_trans with y; [now apply IH1|now apply IH2]. }
  destruct (H a a Hcyc) as [Hab Hold].
  now apply (Hac a), Hold.
Qed.

Lemma acyclic_no_self (ps : list point) :
  acyclic ps -> no_self_supersession ps.
Proof.
  intros Hac p Hp Hself. apply (Hac (id (payload p))).
  apply t_step. now exists p.
Qed.

Lemma unreferenced_patch (E : env) (a : string) (v : list Q)
    (c s i sb : option string) (t : string) (pt : point) (ps : list point) :
  lookup a ps = Some pt -> unreferenced E ps ->
  unreferenced E (upsert (mkPoint a v (patched c s i sb t (payload pt))) ps).
Proof.
  intros Hpt Hun n p Hin.
  destruct (upsert_in _ _ _ Hin) as [->|Hin']; [|now apply Hun].
  cbn [payload].
  destruct (patched_keeps c s i sb t (payload pt)) as (_ & -> & _).
  apply Hun. now apply (lookup_some a).
Qed.

(** C3 (as the code has it).  Whatever the services answer, on a
    well-formed store whose generated ids are new (not stored, not named
    by a stored record as the one it supersedes, and not the [supersedes]
    argument).  [add_memory] never takes a record out of status
    superseded, and it keeps the [supersedes] links free of cycles: in
    particular no record supersedes its own id.  [update_memory] writes
    neither [id] nor [supersedes], so it keeps the links as they are; it
    changes the status of no record but the one it is called on, and of
    that one only to the status it is given: a superseded record is
    active again only after [update_memory] was called on it with status
    active, which the code allows. *)
Theorem supersession_monotone (E : env) :
  (forall c mt imp src tg sup dedup thr w o w',
     wf_store (points w) -> fresh_ids E (points w) ->
     add_memory E c mt imp src tg sup dedup thr w = (o, w') ->
     keeps_superseded (points w) (points w') /\
     (unreferenced E (points w) -> (forall n, sup <> Some (uuid4 E n)) ->
      unreferenced E (points w') /\
      (acyclic (points w) ->
       acyclic (points w') /\ no_self_supersession (points w')))) /\
  (forall a c s i sb w,
     wf_store (points w) ->
     (acyclic (points w) ->
      acyclic (points (snd (update_memory E a c s i sb w))) /\
      no_self_supersession (points (snd (update_memory E a c s i sb w)))) /\
     (forall x p,
        lookup x (points w) = Some p ->
        exists p',
          lookup x (points (snd (update_memory E a c s i sb w))) = Some p' /\
          supersedes (payload p') = supersedes (payload p) /\
          (status (payload p') = status (payload p) \/
           x = a /\ s = Some (status (payload p'))) /\
          (status (payload p) = "superseded" -> s <> Some "active" ->
           status (payload p') <> "active"))).
Proof.
  split.
  - intros c mt imp src tg sup dedup thr w o w' Hwf Hfresh Hrun.
    destruct (add_memory_effect E c mt imp src tg sup dedup thr w w' o
                Hwf Hrun)
      as [->|[(hit & pt & v & t & i' & _ & Hl & ->)
             |(n & t & ps1 & Hps1 & Hfin)]].
    + split; [apply keeps_superseded_refl|]. intros Hun _.
      split; [exact Hun|]. intros Hac. split; [exact Hac|].
      now apply acyclic_no_self.
    + split; [apply keeps_superseded_patch; auto|]. intros Hun _.
      split; [now apply unreferenced_patch|]. intros Hac.
      assert (Hac' : acyclic
                (upsert (mkPoint (id (snd hit)) v
                           (patched (Some c) None (Some i') None t
                              (payload pt))) (points w))).
      { apply (acyclic_fewer_links (points w)); [|exact Hac].
        intros x y. now apply link_patch. }
      split; [exact Hac'|now apply acyclic_no_self].
    + cbn zeta in Hps1, Hfin.
      set (a := uuid4 E n) in *.
      set (new := mkPoint a (embed E c) _) in *.
      assert (Hk1 : keeps_superseded (points w) ps1).
      { destruct Hps1 as [->| ->]; [apply keeps_superseded_refl|].
        apply keeps_superseded_new. apply Hfresh. }
      assert (Hlinks1 : forall x y, supersedes_link ps1 x y ->
                supersedes_link (points w) x y \/ x = a /\ sup = Some y).
      { intros x y Hxy. destruct Hps1 as [->| ->]; [now left|].
        destruct (link_new _ _ _ _ Hxy) as [H|H]; [now left|now right]. }
      assert (Hun1 : unreferenced E (points w) ->
                     (forall k, sup <> Some (uuid4 E k)) ->
                     unreferenced E ps1).
      { intros Hun Hsup. destruct Hps1 as [->| ->]; [exact Hun|].
        intros k p Hin. destruct (upsert_in _ _ _ Hin) as [->|Hin'].
        - apply Hsup.
        - now apply Hun. }
      assert (Hac1 : unreferenced E (points w) ->
                     (forall k, sup <> Some (uuid4 E k)) ->
                     acyclic (points w) -> acyclic ps1).
      { intros Hun Hsup. apply (acyclic_new_source _ _ a sup Hlinks1).
        - intros x (p & Hin & _ & Hp). now apply (Hun n p).
        - apply Hsup. }
      destruct Hfin as [->|(old & pt & v & t' & _ & Hl & ->)].
      * split; [exact Hk1|]. intros Hun Hsup.
        split; [now apply Hun1|]. intros Hac.
        split; [now apply Hac1|]. apply acyclic_no_self. now apply Hac1.
      * split.
        -- eapply keeps_superseded_trans; [exact Hk1|].
           apply keeps_superseded_patch; auto.
        -- intros Hun Hsup.
           split; [apply unreferenced_patch; [exact Hl|now apply Hun1]|].
           intros Hac.
           assert (Hac' : acyclic
                     (upsert (mkPoint old v
                                (patched None (Some "superseded") None
                                   (Some a) t' (payload pt))) ps1)).
           { apply (acyclic_fewer_links ps1); [|now apply Hac1].
             intros x y. now apply link_patch. }
           split; [exact Hac'|now apply acyclic_no_self].
  - intros a c s i sb w Hwf. split.
    + intros Hac.
      assert (Hac' : acyclic (points (snd (update_memory E a c s i sb w)))).
      { destruct (update_memory_effect E a c s i sb w Hwf)
          as [->|(pt & v & t & Hl & _ & ->)]; [exact Hac|].
        apply (acyclic_fewer_links (points w)); [|exact Hac].
        intros x y. now apply link_patch. }
      split; [exact Hac'|now apply acyclic_no_self].
    + intros x p Hx.
      destruct (update_memory_effect E a c s i sb w Hwf)
        as [->|(pt & v & t & Hl & _ & ->)].
      * exists p. split; [exact Hx|]. split; [reflexivity|].
        split; [now left|]. intros Hp _. rewrite Hp. discriminate.
      * destruct (String.eqb x a) eqn:Hxa.
        -- apply String.eqb_eq in Hxa. subst x.
           rewrite Hl in Hx. injection Hx as Hpt. subst pt.
           eexists. split; [apply (lookup_upsert_same (mkPoint a _ _))|].
           cbn [payload].
           destruct (patched_keeps c s i sb t (payload p))
             as (_ & Hsup & Hst).
           split; [exact Hsup|]. rewrite Hst.
           destruct s as [s'|].
           ++ split; [right; now split|].
              intros _ Hs Heq. apply Hs. now rewrite Heq.
           ++ split; [now left|]. intros Hp _. rewrite Hp. discriminate.
        -- apply String.eqb_neq in Hxa. exists p.
           split; [rewrite lookup_upsert_other; [exact Hx|exact Hxa]|].
           split; [reflexivity|]. split; [now left|].
           intros Hp _. rewrite Hp. discriminate.
Qed.

(** The two records of the sample chain: the only link is from "b" to
    "a". *)
Lemma w_chain_acyclic : acyclic (points Fixture.w_chain).
Proof.
  assert (H : forall x y,
    clos_trans string (supersedes_link (points Fixture.w_chain)) x y ->
    x = "b" /\ y = "a").
  { intros x y Hxy. induction Hxy as [x y (p & Hin & Hx & Hy)|x y z _ IH1 _ IH2].
    - cbn in Hin. destruct Hin as [<-|[<-|[]]]; cbn in Hx, Hy.
      + discriminate.
      + injection Hy as <-. now split.
    - destruct IH1 as [_ ->]. destruct IH2 as [H _]. discriminate. }
  intros a Hcyc. destruct (H a a Hcyc) as [-> Ha]. discriminate.
Qed.

Lemma supersession_monotone_witness :
  (keeps_superseded (points Fixture.w_chain)
     (points (snd (add_memory Fixture.env0 "Prefers dark mode" "preference"
                     "high" "conversation" None (Some "b") true 0.85%Q
                     Fixture.w_chain))) /\
   acyclic
     (points (snd (add_memory Fixture.env0 "Prefers dark mode" "preference"
                     "high" "conversation" None (Some "b") true 0.85%Q
                     Fixture.w_chain)))) /\
  exists p',
    lookup "a"
      (points (snd (update_memory Fixture.env0 "a" (Some "Dark theme")
                      (Some "archived") (Some "low") None Fixture.w_chain))) =
      Some p' /\
    status (payload p') <> "active".
Proof.
  destruct (supersession_monotone Fixture.env0) as [Hadd Hupd].
  assert (Hwf : wf_store (points Fixture.w_chain)).
  { split; [repeat constructor; simpl; intuition discriminate
           |repeat constructor]. }
  split.
  - destruct (Hadd "Prefers dark mode" "preference" "high" "conversation"
                None (Some "b") true 0.85%Q Fixture.w_chain _ _ Hwf
                (fun n => eq_refl) (surjective_pairing _)) as [Hkeep Hlinks].
    split; [exact Hkeep|].
    apply Hlinks.
    + intros n p Hin. cbn in Hin.
      destruct Hin as [<-|[<-|[]]]; cbn; discriminate.
    + intros n. cbn. discriminate.
    + exact w_chain_acyclic.
  - destruct (Hupd "a" (Some "Dark theme") (Some "archived") (Some "low") None
                Fixture.w_chain Hwf) as [_ Hstatus].
    destruct (Hstatus "a"
                (mkPoint "a" (Fixture.embed0 "Use a dark theme")
                   (mkMemory "a" "Use a dark theme" "preference" "t" "normal"
                      "superseded" "conversation" [] (Some "b") None))
                eq_refl) as (p' & Hl & _ & _ & Hna).
    exists p'. split; [exact Hl|]. apply Hna; [reflexivity|discriminate].
Defined.

(** C3, the claim as stated fails: [update_memory] with [status="active"]
    on a superseded record succeeds and the record is active again. *)
Lemma update_memory_can_reactivate :
  let r := update_memory Fixture.env0 "a" None (Some "active") None None
             Fixture.w_chain in
  option_map (fun p => status (payload p))
    (lookup "a" (points Fixture.w_chain)) = Some "superseded" /\
  fst r = Returned true /\
  option_map (fun p => status (payload p)) (lookup "a" (points (snd r))) =
    Some "active".
Proof. vm_compute. repeat split; reflexivity. Qed.

(** *** The fate of a single call

    Two runs are compared: one in an environment where a call fails, the
    other in the same environment with that one answer replaced.  Either
    the runs are the same, or the first one raised. *)
Definition same_or_raised {A : Type} (P : exn -> world -> Prop)
    (x1 x0 : outcome A * world) : Prop :=
  x1 = x0 \/ exists e w', x1 = (Raised e, w') /\ P e w'.

Lemma same_or_raised_bind {A B : Type} (P : exn -> world -> Prop)
    (m1 m0 : M A) (k1 k0 : A -> M B) (w : world) :
  same_or_raised P (m1 w) (m0 w) ->
  (forall a w1, m1 w = (Returned a, w1) ->
                same_or_raised P (k1 a w1) (k0 a w1)) ->
  same_or_raised P (bind m1 k1 w) (bind m0 k0 w).
Proof.
  intros [Hm|(e & w' & Hm & HP)] Hk; unfold bind.
  - rewrite <- Hm. destruct (m1 w) as [[a|e] w1]; [now apply Hk|now left].
  - rewrite Hm. right. now exists e, w'.
Qed.

Section OneCall.
Variable E : env.
Variable t : nat.

(** An answer of the Embedding Gateway other than 200, at tick [t]. *)
Section Embedding.
Hypothesis failed : net E Ollama t <> Served.
Variable ps : list point.

Let E0 : env := answering E Ollama t Served.
Let P : exn -> world -> Prop := fun _ w' => points w' = ps.

Lemma get_embedding_one_call (text : string) (w : world) :
  points w = ps ->
  same_or_raised P (_get_embedding E text w) (_get_embedding E0 text w).
Proof.
  intros Hps. unfold _get_embedding, bind, http, E0.
  cbn [net answering backend_eqb andb].
  destruct (Nat.eqb (tick w) t) eqn:Ht.
  - apply Nat.eqb_eq in Ht. rewrite Ht.
    destruct (net E Ollama t); [now elim failed| |];
      right; eexists; eexists; (split; [reflexivity|exact Hps]).
  - now left.
Qed.

Lemma update_memory_one_embedding (a : string) (c s i sb : option string)
    (w : world) :
  points w = ps ->
  same_or_raised P (update_memory E a c s i sb w)
                   (update_memory E0 a c s i sb w).
Proof.
  intros Hps. unfold update_memory.
  apply same_or_raised_bind; [now left|].
  intros r w1 Hr.
  assert (Hw1 : points w1 = ps).
  { revert Hr. unfold qdrant_scroll. run.
    destruct (net E Qdrant (tick w)); run; intros H; inversion H;
      exact Hps. }
  destruct r as [[|pt l]|]; [now left| |now left].
  apply same_or_raised_bind; [|intros pv w2 _; now left].
  destruct c as [c'|]; [|now left].
  apply same_or_raised_bind; [|intros v w2 _; now left].
  now apply get_embedding_one_call.
Qed.

Lemma find_similar_one_embedding (c : string) (thr : Q)
    (mt : option string) (w : world) :
  points w = ps ->
  same_or_raised P (find_similar_memory E c thr mt w)
                   (find_similar_memory E0 c thr mt w).
Proof.
  intros Hps. unfold find_similar_memory.
  apply same_or_raised_bind; [now left|].
  intros [] w1 Hr.
  assert (Hw1 : points w1 = ps).
  { destruct (ensure_any E w) as (o & n & He). rewrite He in Hr.
    inversion Hr. exact Hps. }
  apply same_or_raised_bind; [|intros v w2 _; now left].
  now apply get_embedding_one_call.
Qed.

Lemma add_memory_one_embedding (c mt imp src : string)
    (tg : option (list string)) (sup : option string) (dedup : bool)
    (thr : Q) (w : world) :
  points w = ps ->
  same_or_raised P (add_memory E c mt imp src tg sup dedup thr w)
                   (add_memory E0 c mt imp src tg sup dedup thr w).
Proof.
  intros Hps. unfold add_memory.
  apply same_or_raised_bind; [now left|].
  intros [] w1 Hr.
  assert (Hw1 : points w1 = ps).
  { destruct (ensure_any E w) as (o & n & He). rewrite He in Hr.
    inversion Hr. exact Hps. }
  apply same_or_raised_bind.
  { destruct (dedup && negb (truthy_opt sup)); [|now left].
    now apply find_similar_one_embedding. }
  intros existing w2 Hr2.
  assert (Hw2 : points w2 = ps).
  { destruct (dedup && negb (truthy_opt sup)).
    - destruct (find_similar_any E c thr mt w1) as (o & n & Hf & _).
      rewrite Hf in Hr2. inversion Hr2. exact Hw1.
    - inversion Hr2. now subst. }
  destruct existing as [hit|].
  - apply same_or_raised_bind; [|intros b w3 _; now left].
    now apply update_memory_one_embedding.
  - apply same_or_raised_bind; [now left|]. intros a w3 Hr3.
    apply same_or_raised_bind; [now left|]. intros ts w4 Hr4.
    apply same_or_raised_bind; [|intros v w5 _; now left].
    apply get_embedding_one_call.
    unfold fresh_uuid in Hr3. unfold now in Hr4.
    inversion Hr3; subst. inversion Hr4; subst. exact Hw2.
Qed.

End Embedding.

(** A call to the Vector Index that gets no response, at tick [t]. *)
Section Index.
Hypothesis failed : net E Qdrant t = Unreachable.
Variable r : reply.

Let E0 : env := answering E Qdrant t r.
Let P : exn -> world -> Prop := fun e _ => e = TransportError.

Lemma http_one_call (w : world) :
  same_or_raised P (http E Qdrant w) (http E0 Qdrant w).
Proof.
  unfold http, E0. cbn [net answering backend_eqb andb].
  destruct (Nat.eqb (tick w) t) eqn:Ht.
  - apply Nat.eqb_eq in Ht. rewrite Ht, failed.
    right. eexists; eexists. split; reflexivity.
  - now left.
Qed.

Lemma ensure_one_call (w : world) :
  same_or_raised P (_ensure_collection E w) (_ensure_collection E0 w).
Proof.
  unfold _ensure_collection.
  apply same_or_raised_bind; [apply http_one_call|].
  intros [|] w1 _; [now left|].
  apply same_or_raised_bind; [apply http_one_call|].
  intros ok w2 _. now left.
Qed.

Lemma upsert_one_call (a : string) (v : list Q) (m : Memory) (w : world) :
  same_or_raised P (qdrant_upsert E a v m w) (qdrant_upsert E0 a v m w).
Proof.
  unfold qdrant_upsert.
  apply same_or_raised_bind; [apply http_one_call|].
  intros ok w1 _. now left.
Qed.

Lemma search_one_call (v : list Q) (conds : list condition) (limit : nat)
    (thr : Q) (w : world) :
  same_or_raised P (qdrant_search E v conds limit thr w)
                   (qdrant_search E0 v conds limit thr w).
Proof.
  unfold qdrant_search.
  apply same_or_raised_bind; [apply http_one_call|].
  intros ok w1 _. now left.
Qed.

Lemma scroll_one_call (conds : list condition) (limit : nat) (w : world) :
  same_or_raised P (qdrant_scroll E conds limit w)
                   (qdrant_scroll E0 conds limit w).
Proof.
  unfold qdrant_scroll.
  apply same_or_raised_bind; [apply http_one_call|].
  intros ok w1 _. now left.
Qed.

Lemma update_memory_one_call (a : string) (c s i sb : option string)
    (w : world) :
  same_or_raised P (update_memory E a c s i sb w)
                   (update_memory E0 a c s i sb w).
Proof.
  unfold update_memory.
  apply same_or_raised_bind; [apply scroll_one_call|].
  intros [[|pt l]|] w1 _; [now left| |now left].
  apply same_or_raised_bind; [now left|]. intros pv w2 _.
  apply same_or_raised_bind; [now left|]. intros ts w3 _.
  apply same_or_raised_bind; [apply upsert_one_call|].
  intros [] w4 _. now left.
Qed.

Lemma find_similar_one_call (c : string) (thr : Q) (mt : option string)
    (w : world) :
  same_or_raised P (find_similar_memory E c thr mt w)
                   (find_similar_memory E0 c thr mt w).
Proof.
  unfold find_similar_memory.
  apply same_or_raised_bind; [apply ensure_one_call|]. intros [] w1 _.
  apply same_or_raised_bind; [now left|]. intros v w2 _.
  apply same_or_raised_bind; [apply search_one_call|].
  intros res w3 _. now left.
Qed.

Lemma add_memory_one_call (c mt imp src : string)
    (tg : option (list string)) (sup : option string) (dedup : bool)
    (thr : Q) (w : world) :
  same_or_raised P (add_memory E c mt imp src tg sup dedup thr w)
                   (add_memory E0 c mt imp src tg sup dedup thr w).
Proof.
  unfold add_memory.
  apply same_or_raised_bind; [apply ensure_one_call|]. intros [] w1 _.
  apply same_or_raised_bind.
  { destruct (dedup && negb (truthy_opt sup)); [|now left].
    apply find_similar_one_call. }
  intros [hit|] w2 _.
  - apply same_or_raised_bind; [apply update_memory_one_call|].
    intros b w3 _. now left.
  - apply same_or_raised_bind; [now left|]. intros a w3 _.
    apply same_or_raised_bind; [now left|]. intros ts w4 _.
    apply same_or_raised_bind; [now left|]. intros v w5 _.
    apply same_or_raised_bind; [apply upsert_one_call|]. intros [] w6 _.
    apply same_or_raised_bind; [|intros [] w7 _; now left].
    destruct sup as [old|]; cbn [truthy_opt]; [|now left].
    destruct (truthy old); [|now left].
    apply same_or_raised_bind; [apply update_memory_one_call|].
    intros b w7 _. now left.
Qed.

End Index.
End OneCall.

(** C2 (as the code has it).  Call by call, for [add_memory] and
    [update_memory] started in any world and any environment.

    A failed call to the Embedding Gateway is propagated: if the gateway
    answers with an error status or not at all at some instant, the write
    either runs exactly as it would had that one answer been a 200 (it
    makes no embedding call at that instant) or raises, with the store as it
    was before the write; for [update_memory] the embedding call is the one
    that follows a lookup that found the record.  So a failed embedding
    never leaves a record with a stale or missing vector.

    A call to the Vector Index that gets no response is propagated: the
    write either runs exactly as it would with any other answer in its
    place, or raises the transport error; [update_memory] then leaves the
    store as it was.

    An error status of the Vector Index is not propagated.  On the lookup
    of [update_memory] it gives [False]; on its write it is ignored, and
    [update_memory] returns [True] with nothing written; and with the index
    answering every call with an error status, [add_memory] returns a
    generated id with nothing written. *)
Theorem writes_propagate_failures (E : env) (t : nat) (w : world) :
  (net E Ollama t <> Served ->
   (forall c mt imp src tg sup dedup thr,
      add_memory E c mt imp src tg sup dedup thr w =
      add_memory (answering E Ollama t Served) c mt imp src tg sup dedup thr
        w \/
      exists e w',
        add_memory E c mt imp src tg sup dedup thr w = (Raised e, w') /\
        points w' = points w) /\
   (forall a c s i sb,
      update_memory E a c s i sb w =
      update_memory (answering E Ollama t Served) a c s i sb w \/
      exists e w',
        update_memory E a c s i sb w = (Raised e, w') /\
        points w' = points w) /\
   (forall a c s i sb pt,
      wf_store (points w) -> lookup a (points w) = Some pt ->
      net E Qdrant (tick w) = Served -> t = S (tick w) ->
      exists e,
        update_memory E a (Some c) s i sb w =
        (Raised e, mkWorld (points w) (2 + tick w)))) /\
  (net E Qdrant t = Unreachable ->
   forall r,
     (forall c mt imp src tg sup dedup thr,
        add_memory E c mt imp src tg sup dedup thr w =
        add_memory (answering E Qdrant t r) c mt imp src tg sup dedup thr w \/
        exists w',
          add_memory E c mt imp src tg sup dedup thr w =
          (Raised TransportError, w')) /\
     (forall a c s i sb,
        update_memory E a c s i sb w =
        update_memory (answering E Qdrant t r) a c s i sb w \/
        exists w',
          update_memory E a c s i sb w = (Raised TransportError, w') /\
          (wf_store (points w) -> points w' = points w))) /\
  (net E Qdrant (tick w) = Refused ->
   forall a c s i sb,
     update_memory E a c s i sb w = (Returned false, bump w)) /\
  (forall a c s i sb pt,
     wf_store (points w) -> lookup a (points w) = Some pt ->
     net E Qdrant (tick w) = Served ->
     let k := match c with Some _ => 1 | None => 0 end in
     (c <> None -> net E Ollama (S (tick w)) = Served) ->
     net E Qdrant (2 + k + tick w) = Refused ->
     update_memory E a c s i sb w =
     (Returned true, mkWorld (points w) (3 + k + tick w))) /\
  ((forall n, net E Qdrant n = Refused) ->
   (forall n, net E Ollama n = Served) ->
   forall c mt imp src tg sup dedup thr,
     exists n n',
       add_memory E c mt imp src tg sup dedup thr w =
       (Returned (uuid4 E n), mkWorld (points w) n')).
Proof.
  split; [|split; [|split; [|split]]].
  - intros Hfail. split; [|split].
    + intros. now apply (add_memory_one_embedding E t Hfail (points w)).
    + intros. now apply (update_memory_one_embedding E t Hfail (points w)).
    + intros a c s i sb pt [_ Hid] Hpt Hserved ->.
      unfold update_memory, qdrant_scroll, _get_embedding. run.
      rewrite Hserved. run.
      rewrite (scroll_by_id a (points w) Hid), Hpt. run.
      destruct (net E Ollama (S (tick w))); run;
        [now elim Hfail|eexists; reflexivity|eexists; reflexivity].
  - intros Hfail r. split.
    + intros.
      destruct (add_memory_one_call E t Hfail r c mt imp src tg sup dedup
                  thr w) as [H|(e & w' & H & ->)]; [now left|].
      right. now exists w'.
    + intros.
      destruct (update_memory_one_call E t Hfail r a c s i sb w)
        as [H|(e & w' & H & ->)]; [now left|].
      right. exists w'. split; [exact H|]. intros Hwf.
      destruct (update_memory_effect E a c s i sb w Hwf)
        as [Hps|(pt & v & ts & _ & Hret & _)].
      * rewrite H in Hps. exact Hps.
      * rewrite H in Hret. discriminate.
  - intros Hrefused a c s i sb.
    unfold update_memory, qdrant_scroll. run. now rewrite Hrefused.
  - intros a c s i sb pt [_ Hid] Hpt Hserved k Hembed Hput.
    unfold update_memory, qdrant_scroll, qdrant_upsert, _get_embedding. run.
    rewrite Hserved. run.
    rewrite (scroll_by_id a (points w) Hid), Hpt. run.
    destruct c as [c'|]; run.
    + rewrite Hembed; [|discriminate]. run.
      subst k. cbn [Nat.add] in Hput. rewrite Hput. reflexivity.
    + subst k. cbn [Nat.add] in Hput. rewrite Hput. reflexivity.
  - intros Hindex Hembed c mt imp src tg sup dedup thr.
    assert (Hens : forall w0, _ensure_collection E w0 =
                              (Returned tt, bump (bump w0))).
    { intros w0. unfold _ensure_collection. run. now rewrite !Hindex. }
    assert (Hemb : forall text w0, _get_embedding E text w0 =
                                   (Returned (embed E text), bump w0)).
    { intros text w0. unfold _get_embedding. run. now rewrite Hembed. }
    assert (Hfind : forall w0,
              find_similar_memory E c thr (Some mt) w0 =
              (Returned None, bump (bump (bump (bump w0))))).
    { intros w0. unfold find_similar_memory, bind.
      rewrite Hens, Hemb. unfold qdrant_search. run. now rewrite Hindex. }
    assert (Hupd : forall a c' s i sb w0,
              update_memory E a c' s i sb w0 = (Returned false, bump w0)).
    { intros. unfold update_memory, qdrant_scroll. run.
      now rewrite Hindex. }
    unfold add_memory, bind. rewrite Hens.
    destruct (dedup && negb (truthy_opt sup)).
    + rewrite Hfind. cbn [fresh_uuid now bump points tick].
      rewrite Hemb. unfold qdrant_upsert. run. rewrite Hindex. run.
      destruct sup as [old|]; cbn [truthy_opt];
        [destruct (truthy old); [rewrite Hupd|]|];
        eexists; eexists; reflexivity.
    + cbn [ret fresh_uuid now bump points tick].
      rewrite Hemb. unfold qdrant_upsert. run. rewrite Hindex. run.
      destruct sup as [old|]; cbn [truthy_opt];
        [destruct (truthy old); [rewrite Hupd|]|];
        eexists; eexists; reflexivity.
Qed.

Lemma writes_propagate_failures_witness :
  (exists e w',
     add_memory (answering Fixture.env0 Ollama 5 Refused) "Prefer dark mode"
       "preference" "normal" "conversation" None None true 0.85%Q
       Fixture.w_high = (Raised e, w') /\
     points w' = points Fixture.w_high) /\
  (exists w',
     update_memory (answering Fixture.env0 Qdrant 3 Unreachable) "a"
       (Some "Dark") None None None Fixture.w_high =
     (Raised TransportError, w')) /\
  update_memory (answering Fixture.env0 Qdrant 3 Refused) "a" (Some "Dark")
    None None None Fixture.w_high =
  (Returned true, mkWorld (points Fixture.w_high) 4).
Proof.
  assert (Hwf : wf_store (points Fixture.w_high)).
  { split; [repeat constructor; simpl; intuition discriminate
           |repeat constructor]. }
  split; [|split].
  - destruct (writes_propagate_failures
                (answering Fixture.env0 Ollama 5 Refused) 5 Fixture.w_high)
      as [Hembed _].
    destruct Hembed as [Hadd _]; [discriminate|].
    destruct (Hadd "Prefer dark mode" "preference" "normal" "conversation"
                None None true 0.85%Q) as [Hsame|Hraised];
      [discriminate Hsame|exact Hraised].
  - destruct (writes_propagate_failures
                (answering Fixture.env0 Qdrant 3 Unreachable) 3
                Fixture.w_high) as (_ & Hindex & _).
    destruct (Hindex eq_refl Served) as [_ Hupd].
    destruct (Hupd "a" (Some "Dark") None None None)
      as [Hsame|(w' & Hraised & _)];
      [discriminate Hsame|now exists w'].
  - destruct (writes_propagate_failures
                (answering Fixture.env0 Qdrant 3 Refused) 0 Fixture.w_high)
      as (_ & _ & _ & Hwrite & _).
    apply (Hwrite "a" (Some "Dark") None None None
             (Fixture.pt "a" "Prefer dark mode" "preference" "high" "active")
             Hwf eq_refl eq_refl); [reflexivity|reflexivity].
Defined.

(** C2, the claim as stated fails: with the vector index answering every
    call with an error status, [add_memory] returns a new id as if the
    write had succeeded, and nothing is stored. *)
Lemma add_memory_swallows_index_error :
  let r := add_memory Fixture.env_index_refuses "Prefer dark mode"
             "preference" "normal" "conversation" None None true 0.85%Q
             Fixture.empty in
  (forall n, net Fixture.env_index_refuses Qdrant n = Refused) /\
  fst r = Returned "mem-6" /\
  points (snd r) = [].
Proof.
  split; [intros n; reflexivity|]. vm_compute. split; reflexivity.
Qed.

(** *** Score fusion *)

Lemma ustring_eqb_eq (x y : ustring) : ustring_eqb x y = true <-> x = y.
Proof.
  revert y. induction x as [|a x IH]; intros [|b y]; cbn [ustring_eqb];
    try (split; [discriminate|discriminate]); [split; reflexivity|].
  rewrite andb_true_iff, N.eqb_eq, IH. split.
  - intros [-> ->]. reflexivity.
  - intros H. inversion H. split; reflexivity.
Qed.

(** No token is both affirmative and negative. *)
Lemma yes_not_no (token : ustring) : is_yes token = true -> is_no token = false.
Proof.
  unfold is_yes, is_no, str_in, yes_words. cbn [existsb map].
  destruct (ustring_eqb (strip (lower token)) (ustr "yes")) eqn:H1.
  { apply ustring_eqb_eq in H1. rewrite H1. reflexivity. }
  destruct (ustring_eqb (strip (lower token)) (ustr "yes,")) eqn:H2.
  { apply ustring_eqb_eq in H2. rewrite H2. reflexivity. }
  destruct (ustring_eqb (strip (lower token)) (ustr "yes.")) eqn:H3.
  { apply ustring_eqb_eq in H3. rewrite H3. reflexivity. }
  discriminate.
Qed.

Lemma last_logprob_cons (sel : ustring -> bool) (it : ustring * Q)
    (top : list (ustring * Q)) :
  last_logprob sel (it :: top) =
  match last_logprob sel top with
  | Some x => Some x
  | None => if sel (fst it) then Some (snd it) else None
  end.
Proof.
  unfold last_logprob. cbn [filter].
  destruct (sel (fst it)).
  - cbn [rev].
    destruct (rev (filter (fun it0 => sel (fst it0)) top)); reflexivity.
  - destruct (rev (filter (fun it0 => sel (fst it0)) top)); reflexivity.
Qed.

(** The scan loop ends with the logprob of the last affirmative token and
    that of the last negative token, when there are such tokens. *)
Lemma scan_logprobs_last (top : list (ustring * Q)) :
  scan_logprobs top = (last_logprob is_yes top, last_logprob is_no top).
Proof.
  unfold scan_logprobs.
  assert (H : forall acc,
    fold_left scan_token top acc =
    (match last_logprob is_yes top with Some y => Some y | None => fst acc end,
     match last_logprob is_no top with Some n => Some n | None => snd acc end)).
  { induction top as [|it top IH]; intros [y0 n0]; [reflexivity|].
    cbn [fold_left]. rewrite IH, !last_logprob_cons.
    unfold scan_token. fold (is_yes (fst it)). fold (is_no (fst it)).
    cbn [fst snd].
    destruct (is_yes (fst it)) eqn:Hy.
    - rewrite (yes_not_no _ Hy). cbn [fst snd].
      destruct (last_logprob is_yes top), (last_logprob is_no top);
        reflexivity.
    - destruct (is_no (fst it)); cbn [fst snd];
        destruct (last_logprob is_yes top), (last_logprob is_no top);
        reflexivity. }
  rewrite H. cbn [fst snd].
  destruct (last_logprob is_yes top), (last_logprob is_no top); reflexivity.
Qed.

(** The fused score of an answer in terms of the two logprobs the scan
    ends with. *)
Lemma fused_score_scan (E : env) (d : doc) (top : list (ustring * Q)) :
  fused_score E d (Completed top) =
  match last_logprob is_yes top, last_logprob is_no top with
  | Some y, Some n =>
      match softmax E y n with
      | Some s => s
      | None => score_or_default d
      end
  | Some _, None => 0.9%Q
  | None, Some _ => 0.1%Q
  | None, None => score_or_default d
  end.
Proof. unfold fused_score. now rewrite scan_logprobs_last. Qed.




(** *** Reranking order *)

Lemma insert_desc_map {A B : Type} (key : B -> Q) (g : A -> B) (x : A)
    (l : list A) :
  insert_desc key (g x) (map g l) =
  map g (insert_desc (fun a => key (g a)) x l).
Proof.
  induction l as [|y l IH]; [reflexivity|].
  cbn [map insert_desc].
  destruct (Qle_bool (key (g y)) (key (g x))); [reflexivity|].
  cbn [map]. now rewrite IH.
Qed.

Lemma sort_desc_map {A B : Type} (key : B -> Q) (g : A -> B) (l : list A) :
  sort_desc key (map g l) = map g (sort_desc (fun a => key (g a)) l).
Proof.
  induction l as [|x l IH]; [reflexivity|].
  cbn [map sort_desc fold_right].
  change (fold_right (insert_desc key) [] (map g l))
    with (sort_desc key (map g l)).
  rewrite IH. apply insert_desc_map.
Qed.

(** The fused score depends on the environment through [math.exp] only. *)
Lemma fused_score_ext (E1 E2 : env) (d : doc) (c : completion) :
  (forall x, math_exp E2 x = math_exp E1 x) ->
  fused_score E2 d c = fused_score E1 d c.
Proof.
  intros Hexp. destruct c as [top| |]; try reflexivity.
  unfold fused_score.
  destruct (scan_logprobs top) as [[y|] [n|]]; try reflexivity.
  unfold softmax. now rewrite !Hexp.
Qed.

Lemma scored_from_ext (E1 E2 : env) (q : string) (docs : list doc) (n : nat) :
  (forall k p, reranker E2 k p = reranker E1 k p) ->
  (forall x, math_exp E2 x = math_exp E1 x) ->
  scored_from E2 q n docs = scored_from E1 q n docs.
Proof.
  intros Hr Hexp. revert n.
  induction docs as [|d docs IH]; intros n; [reflexivity|].
  cbn [scored_from]. now rewrite IH, Hr, (fused_score_ext E1 E2 d _ Hexp).
Qed.

(** When every completion call fails, each candidate keeps its similarity
    score. *)
Lemma scored_from_fallback (E : env) (q : string) (docs : list doc) (n : nat) :
  (forall k p, reranker E k p = Failed \/ reranker E k p = Rejected) ->
  scored_from E q n docs = map (fun d => (score_or_default d, d)) docs.
Proof.
  intros Hfail. revert n.
  induction docs as [|d docs IH]; intros n; [reflexivity|].
  cbn [scored_from map]. rewrite IH.
  destruct (Hfail n (rerank_prompt q (content (fields d)))) as [-> | ->];
    reflexivity.
Qed.

(** C7. [_rerank] never raises and returns the candidates in a stable
    descending order of fused score: the output is a permutation of the
    scored candidates, in descending order, and candidates with equal scores
    keep their relative order.  The result depends only on the query, the
    candidates and the gateway's answers, so repeating the run gives the
    same order.  When every gateway call fails, the output is the input in
    stable descending order of similarity, which is the input order itself
    when the input already comes best first. *)
Theorem rerank_stable_order (E : env) (q : string) (docs : list doc)
    (w : world) :
  exists scored sorted,
    scored = scored_from E q (tick w) docs /\
    map snd scored = docs /\
    fst (_rerank E q docs w) = Returned (map set_rerank_score sorted) /\
    Permutation sorted scored /\
    sorted_desc fst sorted /\
    (forall s, filter (fun sd => Qeq_bool (fst sd) s) sorted =
               filter (fun sd => Qeq_bool (fst sd) s) scored) /\
    (forall E2 w2,
       (forall n p, reranker E2 n p = reranker E n p) ->
       (forall x, math_exp E2 x = math_exp E x) ->
       tick w2 = tick w ->
       fst (_rerank E2 q docs w2) = fst (_rerank E q docs w)) /\
    ((forall n p, reranker E n p = Failed \/ reranker E n p = Rejected) ->
     fst (_rerank E q docs w) =
       Returned (map (fun d => mkDoc (score d) (fields d)
                                  (Some (score_or_default d)))
                   (sort_desc score_or_default docs)) /\
     (sorted_desc score_or_default docs ->
      fst (_rerank E q docs w) =
        Returned (map (fun d => mkDoc (score d) (fields d)
                                   (Some (score_or_default d))) docs))).
Proof.
  exists (scored_from E q (tick w) docs),
         (sort_desc fst (scored_from E q (tick w) docs)).
  destruct (rerank_run E q docs w) as [Hrun _].
  split; [reflexivity|].
  split; [apply scored_from_docs|].
  split; [exact Hrun|].
  split; [apply sort_desc_perm|].
  split; [apply sort_desc_sorted|].
  split; [intros s; apply sort_desc_stable|].
  split.
  - intros E2 w2 Hr Hexp Ht.
    destruct (rerank_run E2 q docs w2) as [Hrun2 _].
    rewrite Hrun, Hrun2, Ht.
    now rewrite (scored_from_ext E E2 q docs (tick w) Hr Hexp).
  - intros Hfail.
    assert (Hall : fst (_rerank E q docs w) =
      Returned (map (fun d => mkDoc (score d) (fields d)
                                 (Some (score_or_default d)))
                  (sort_desc score_or_default docs))).
    { rewrite Hrun, (scored_from_fallback E q docs (tick w) Hfail).
      rewrite (sort_desc_map fst (fun d => (score_or_default d, d))).
      now rewrite map_map. }
    split; [exact Hall|].
    intros Hsorted. rewrite Hall.
    now rewrite (sort_desc_sorted_id _ _ _ Hsorted).
Qed.

Lemma rerank_stable_order_witness :
  let d1 := mkDoc (Some 0.9%Q) (Fixture.mem "a" "one" "insight" "normal"
                                  "active") None in
  let d2 := mkDoc (Some 0.7%Q) (Fixture.mem "b" "two" "insight" "normal"
                                  "active") None in
  let d3 := mkDoc (Some 0.7%Q) (Fixture.mem "c" "three" "insight" "normal"
                                  "active") None in
  fst (_rerank Fixture.env0 "query" [d1; d2; d3] Fixture.empty) =
  Returned [mkDoc (Some 0.9%Q) (fields d1) (Some 0.9%Q);
            mkDoc (Some 0.7%Q) (fields d2) (Some 0.7%Q);
            mkDoc (Some 0.7%Q) (fields d3) (Some 0.7%Q)].
Proof.
  intros d1 d2 d3.
  destruct (rerank_stable_order Fixture.env0 "query" [d1; d2; d3]
              Fixture.empty)
    as (scored & sorted & _ & _ & _ & _ & _ & _ & _ & Hfallback).
  destruct Hfallback as [_ Hid].
  - intros n p. left. reflexivity.
  - apply Hid.
    repeat constructor; unfold Qle; simpl; lia.
Defined.

(** *** Recall *)

(** C8. The [recall] tool always answers with a result, never with the
    error object: each of the three branches contributes its own list when
    it returned and the empty list when it raised, independently of the
    other two. *)
Theorem recall_tolerates_branch_failure (E : env) (G : graph_env)
    (q : string) (limit : nat) (w : world) :
  exists r,
    fst (call_tool_recall E G q limit w) = Returned (ToolResult r) /\
    (forall m,
       fst (search_memory E q limit None None (Some "active") 0.5%Q true w) =
       Returned m -> memories r = m) /\
    (forall e,
       fst (search_memory E q limit None None (Some "active") 0.5%Q true w) =
       Raised e -> memories r = []) /\
    (forall l, search_entities G q limit = Returned l -> entities r = l) /\
    (forall e, search_entities G q limit = Raised e -> entities r = []) /\
    (forall l, search_facts G q limit = Returned l -> facts r = l) /\
    (forall e, search_facts G q limit = Raised e -> facts r = []).
Proof.
  unfold call_tool_recall, try_except, recall, gather3, bind, ret.
  destruct (search_memory E q limit None None (Some "active") 0.5%Q true w)
    as [om w'].
  cbn [fst snd]. eexists. split; [reflexivity|].
  cbn [memories entities facts].
  repeat split.
  - intros m ->. reflexivity.
  - intros e ->. reflexivity.
  - intros l ->. reflexivity.
  - intros e ->. reflexivity.
  - intros l ->. reflexivity.
  - intros e ->. reflexivity.
Qed.

Lemma recall_tolerates_branch_failure_witness :
  exists r,
    fst (call_tool_recall Fixture.env0 Fixture.graph_down "Prefer dark mode" 5
           Fixture.w_chain) = Returned (ToolResult r) /\
    List.length (memories r) = 1 /\ entities r = [] /\ facts r = [].
Proof.
  destruct (recall_tolerates_branch_failure Fixture.env0 Fixture.graph_down
              "Prefer dark mode" 5 Fixture.w_chain)
    as (r & Hr & Hm & _ & _ & He & _ & Hf).
  exists r. split; [exact Hr|].
  split; [|split].
  - rewrite (Hm _ eq_refl). reflexivity.
  - apply (He TransportError). reflexivity.
  - apply (Hf TransportError). reflexivity.
Defined.

(** ** Beyond the specification: what else the code guarantees *)

(** *** Reading: search *)

Lemma sorted_desc_firstn {A : Type} (key : A -> Q) (n : nat) (l : list A) :
  sorted_desc key l -> sorted_desc key (firstn n l).
Proof.
  intros Hs. revert n. induction Hs as [|x l Hall Hs IH]; intros [|n];
    cbn [firstn]; try constructor.
  - apply Forall_forall. intros y Hy. rewrite Forall_forall in Hall.
    apply Hall. now apply (firstn_In n).
  - apply IH.
Qed.

Lemma sorted_desc_map {A B : Type} (key : B -> Q) (g : A -> B) (l : list A) :
  sorted_desc (fun a => key (g a)) l -> sorted_desc key (map g l).
Proof.
  induction 1 as [|x l Hall Hs IH]; cbn [map]; constructor; [|exact IH].
  apply Forall_forall. intros y Hy. apply in_map_iff in Hy.
  destruct Hy as (a & <- & Ha). rewrite Forall_forall in Hall.
  now apply Hall.
Qed.

Lemma must_app (c1 c2 : list condition) (m : Memory) :
  must (c1 ++ c2) m = must c1 m && must c2 m.
Proof. unfold must. apply forallb_app. Qed.

(** One optional argument of [search_memory] as a filter condition. *)
Lemma must_optional (k : string) (o : option string) (m : Memory) :
  must (match o with
        | Some v => if truthy v then [(k, v)] else []
        | None => []
        end) m = true ->
  forall v, o = Some v -> truthy v = true -> payload_get k m = Some v.
Proof.
  intros Hm v -> Hv. rewrite Hv in Hm.
  unfold must, holds in Hm. cbn [forallb fst snd] in Hm.
  destruct (payload_get k m) as [x|]; [|discriminate].
  rewrite andb_true_r in Hm. apply String.eqb_eq in Hm. now rewrite Hm.
Qed.

(** What a search returns, whatever the services answer: the store is
    left as it was, and a returned list is the first [limit] of the hits,
    reranked or not. *)
Lemma search_memory_cases (E : env) (q : string) (limit : nat)
    (mt imp st : option string) (min_score : Q) (rr : bool) (w w' : world)
    (o : outcome (list doc)) :
  search_memory E q limit mt imp st min_score rr w = (o, w') ->
  points w' = points w /\
  forall docs, o = Returned docs ->
  exists hits n,
    hits = nearest E (points w) (embed E q)
             ((match st with
               | Some v => if truthy v then [("status", v)] else []
               | None => []
               end) ++
              (match mt with
               | Some v => if truthy v then [("memory_type", v)] else []
               | None => []
               end) ++
              (match imp with
               | Some v => if truthy v then [("importance", v)] else []
               | None => []
               end))
             (if rr then limit * 3 else limit) min_score /\
    docs = firstn limit
             (if rr && negb (match hits with [] => true | _ => false end)
              then map set_rerank_score
                     (sort_desc fst (scored_from E q n (map hit_doc hits)))
              else map hit_doc hits).
Proof.
  intros Hr. unfold search_memory in Hr. unfold bind at 1 in Hr.
  destruct (ensure_any E w) as (o1 & n1 & He). rewrite He in Hr. clear He.
  destruct o1 as [[]|e]; [|inversion Hr; split; [reflexivity|discriminate]].
  unfold bind at 1 in Hr.
  match type of Hr with
  | context [_get_embedding E q ?w0] =>
      destruct (embedding_any E q w0) as [[_ Hb]|[_ [e Hb]]];
      rewrite Hb in Hr; clear Hb;
      [|inversion Hr; split; [reflexivity|discriminate]]
  end.
  unfold bind at 1 in Hr. unfold qdrant_search in Hr. run_in Hr.
  destruct (net E Qdrant (S n1)); run_in Hr;
    try (inversion Hr; split; [reflexivity|discriminate]).
  match type of Hr with
  | context [nearest E (points w) ?v ?cs ?l ?t] =>
      set (hits := nearest E (points w) v cs l t) in *
  end.
  assert (Hempty : match map hit_doc hits with [] => true | _ => false end =
                   match hits with [] => true | _ => false end).
  { destruct hits; reflexivity. }
  rewrite Hempty in Hr.
  destruct (rr && negb (match hits with [] => true | _ => false end)) eqn:Hrr.
  - unfold try_except in Hr.
    destruct (rerank_run E q (map hit_doc hits)
                (mkWorld (points w) (S (S n1)))) as [Hf Hp].
    destruct (_rerank E q (map hit_doc hits) _) as [o5 w5].
    cbn [fst snd points tick] in Hf, Hp. subst o5.
    inversion Hr; subst. split; [exact Hp|].
    intros docs Hd. inversion Hd; subst.
    exists hits, (S (S n1)). split; [reflexivity|]. now rewrite Hrr.
  - inversion Hr; subst. split; [reflexivity|].
    intros docs Hd. inversion Hd; subst.
    exists hits, 0. split; [reflexivity|]. now rewrite Hrr.
Qed.

(** X1. Whatever the services answer, a search that returns hands back at
    most [limit] candidates, each one the payload of a stored point whose
    similarity to the query is its score and reaches [min_score], and which
    satisfies every filter that was given (status, memory type and
    importance together). *)
Theorem search_memory_filtered (E : env) (q : string) (limit : nat)
    (mt imp st : option string) (min_score : Q) (rr : bool) (w w' : world)
    (docs : list doc) :
  search_memory E q limit mt imp st min_score rr w = (Returned docs, w') ->
  List.length docs <= limit /\
  forall d, In d docs ->
  exists p,
    In p (points w) /\ fields d = payload p /\
    score d = Some (similarity E (embed E q) (vector p)) /\
    (min_score <= similarity E (embed E q) (vector p))%Q /\
    (forall s, st = Some s -> truthy s = true -> status (payload p) = s) /\
    (forall t, mt = Some t -> truthy t = true ->
               memory_type (payload p) = t) /\
    (forall i, imp = Some i -> truthy i = true -> importance (payload p) = i).
Proof.
  intros Hr.
  destruct (search_memory_cases E q limit mt imp st min_score rr w w' _ Hr)
    as [_ Hdocs].
  destruct (Hdocs docs eq_refl) as (hits & n & Hhits & ->).
  split; [apply firstn_le_length|].
  intros d Hd. apply firstn_In in Hd.
  assert (Hh : exists h, In h hits /\ fields d = snd h /\
                         score d = Some (fst h)).
  { destruct (rr && negb _).
    - apply in_map_iff in Hd. destruct Hd as (sd & <- & Hsd).
      apply (Permutation_in _ (sort_desc_perm _ fst _)) in Hsd.
      assert (Hs : In (snd sd) (map hit_doc hits)).
      { rewrite <- (scored_from_docs E q (map hit_doc hits) n).
        now apply in_map. }
      apply in_map_iff in Hs. destruct Hs as (h & Hh & Hin).
      exists h. split; [exact Hin|].
      cbn [set_rerank_score fields score]. rewrite <- Hh. split; reflexivity.
    - apply in_map_iff in Hd. destruct Hd as (h & <- & Hin).
      exists h. repeat split; assumption. }
  destruct Hh as (h & Hin & Hf & Hs). rewrite Hhits in Hin.
  destruct (nearest_in E _ _ _ _ _ _ Hin) as (p & Hp & -> & Hm & Hthr).
  cbn [fst snd] in *. rewrite !must_app in Hm.
  apply andb_prop in Hm. destruct Hm as [Hst Hm].
  apply andb_prop in Hm. destruct Hm as [Hmt Himp].
  exists p. split; [exact Hp|]. split; [exact Hf|]. split; [exact Hs|].
  split; [now apply Qle_bool_iff|].
  split; [|split].
  - intros s Hs' Ht.
    pose proof (must_optional "status" st _ Hst s Hs' Ht) as H.
    cbn in H. now inversion H.
  - intros t Hs' Ht.
    pose proof (must_optional "memory_type" mt _ Hmt t Hs' Ht) as H.
    cbn in H. now inversion H.
  - intros i Hs' Ht.
    pose proof (must_optional "importance" imp _ Himp i Hs' Ht) as H.
    cbn in H. now inversion H.
Qed.

Lemma search_memory_filtered_witness :
  exists docs,
    fst (search_memory Fixture.env0 "Prefer dark mode" 5 (Some "preference")
           None (Some "active") 0.5%Q true Sample.w3) = Returned docs /\
    List.length docs <= 5 /\
    forall d, In d docs ->
    exists p,
      In p (points Sample.w3) /\ fields d = payload p /\
      score d = Some (similarity Fixture.env0
                        (Fixture.embed0 "Prefer dark mode") (vector p)) /\
      (0.5 <= similarity Fixture.env0 (Fixture.embed0 "Prefer dark mode")
                (vector p))%Q /\
      (forall s, Some "active" = Some s -> truthy s = true ->
                 status (payload p) = s) /\
      (forall t, Some "preference" = Some t -> truthy t = true ->
                 memory_type (payload p) = t) /\
      (forall i, @None string = Some i -> truthy i = true ->
                 importance (payload p) = i).
Proof.
  eexists. split; [vm_compute; reflexivity|].
  eapply (search_memory_filtered Fixture.env0 "Prefer dark mode" 5
            (Some "preference") None (Some "active") 0.5%Q true Sample.w3).
  vm_compute. reflexivity.
Defined.

(** X2. Reading never writes: a search, a duplicate search, a reranking and
    a listing of recent memories leave every stored point as it was,
    whether they return or raise and whatever the services answer. *)
Theorem reads_leave_store (E : env) (instant : string -> Q) (w : world) :
  (forall q limit mt imp st min_score rr,
     points (snd (search_memory E q limit mt imp st min_score rr w)) =
     points w) /\
  (forall c thr mt,
     points (snd (find_similar_memory E c thr (Some mt) w)) = points w) /\
  (forall q docs, points (snd (_rerank E q docs w)) = points w) /\
  (forall limit mt,
     points (snd (get_recent_memories E instant limit mt w)) = points w).
Proof.
  repeat split.
  - intros q limit mt imp st min_score rr.
    destruct (search_memory E q limit mt imp st min_score rr w) as [o w']
      eqn:Hr.
    now destruct (search_memory_cases E q limit mt imp st min_score rr w w'
                    o Hr).
  - intros c thr mt.
    destruct (find_similar_any E c thr mt w) as (o & n & -> & _). reflexivity.
  - intros q docs. now destruct (rerank_run E q docs w).
  - intros limit mt. unfold get_recent_memories. unfold bind at 1.
    destruct (ensure_any E w) as (o1 & n1 & ->).
    destruct o1 as [[]|e]; [|reflexivity].
    unfold qdrant_scroll_ordered. run.
    destruct (net E Qdrant n1); reflexivity.
Qed.

Lemma nearest_sorted (E : env) (ps : list point) (v : list Q)
    (conds : list condition) (limit : nat) (thr : Q) :
  sorted_desc fst (nearest E ps v conds limit thr).
Proof. unfold nearest. apply sorted_desc_firstn, sort_desc_sorted. Qed.



(** With healthy services a search returns. *)
Lemma search_memory_returns (E : env) (q : string) (limit : nat)
    (mt imp st : option string) (min_score : Q) (rr : bool) (w : world) :
  healthy E ->
  exists docs w',
    search_memory E q limit mt imp st min_score rr w = (Returned docs, w').
Proof.
  intros Hup. unfold search_memory, bind.
  rewrite (ensure_served E Hup), (embedding_served E Hup),
    (search_served E Hup).
  destruct (rr && negb _).
  - unfold try_except.
    match goal with
    | |- context [_rerank E q ?ds ?w0] =>
        destruct (rerank_run E q ds w0) as [Hf _];
        destruct (_rerank E q ds w0) as [o5 w5]
    end.
    cbn [fst] in Hf. subst o5. eexists; eexists; reflexivity.
  - eexists; eexists; reflexivity.
Qed.

(** Reranking loses no candidate. *)
Lemma rerank_keeps_member (E : env) (q : string) (n : nat) (ds : list doc)
    (d : doc) :
  In d ds ->
  exists r, In (mkDoc (score d) (fields d) (Some r))
              (map set_rerank_score (sort_desc fst (scored_from E q n ds))).
Proof.
  intros Hd.
  rewrite <- (scored_from_docs E q ds n) in Hd.
  apply in_map_iff in Hd. destruct Hd as (sd & <- & Hsd).
  exists (fst sd). apply in_map_iff. exists sd. split; [reflexivity|].
  apply (Permutation_in _ (Permutation_sym (sort_desc_perm _ fst _))).
  exact Hsd.
Qed.

Lemma scored_from_length (E : env) (q : string) (n : nat) (ds : list doc) :
  List.length (scored_from E q n ds) = List.length ds.
Proof. rewrite <- (scored_from_docs E q ds n) at 2. now rewrite length_map. Qed.

(** A stored point that passes the filter and reaches the threshold is
    among the hits when the limit covers the store. *)
Lemma nearest_complete (E : env) (ps : list point) (v : list Q)
    (conds : list condition) (limit : nat) (thr : Q) (p : point) :
  In p ps -> must conds (payload p) = true ->
  (thr <= similarity E v (vector p))%Q ->
  List.length ps <= limit ->
  In (similarity E v (vector p), payload p) (nearest E ps v conds limit thr) /\
  List.length (nearest E ps v conds limit thr) <= List.length ps.
Proof.
  intros Hp Hm Hthr Hlen. unfold nearest.
  set (l := filter (fun h : Q * Memory => Qle_bool thr (fst h))
              (map (fun p0 => (similarity E v (vector p0), payload p0))
                 (filter (fun p0 => must conds (payload p0)) ps))).
  assert (Hl : List.length l <= List.length ps).
  { unfold l. eapply Nat.le_trans; [apply filter_length_le|].
    rewrite length_map. apply filter_length_le. }
  assert (Hs : List.length (sort_desc fst l) = List.length l).
  { apply Permutation_length, sort_desc_perm. }
  rewrite firstn_all2 by lia. split; [|lia].
  apply (Permutation_in _ (Permutation_sym (sort_desc_perm _ fst l))).
  unfold l. apply filter_In. split.
  - apply in_map_iff. exists p. split; [reflexivity|].
    apply filter_In. now split.
  - cbn [fst]. now apply Qle_bool_iff.
Qed.

Lemma dedup_scope_as_filter (mt : string) (mt' : option string) (m : Memory) :
  mt' = None \/ mt' = Some mt ->
  must (dedup_scope mt) m = true ->
  must ((if truthy "active" then [("status", "active")] else []) ++
        (match mt' with
         | Some v => if truthy v then [("memory_type", v)] else []
         | None => []
         end) ++ []) m = true.
Proof.
  intros Hmt Hm. unfold dedup_scope in Hm.
  cbn [truthy String.eqb Ascii.eqb Bool.eqb negb app].
  unfold must in *. cbn [forallb] in *.
  apply andb_prop in Hm. destruct Hm as [Hs Ht]. rewrite Hs. cbn [andb].
  destruct Hmt as [->| ->]; [reflexivity|].
  rewrite app_nil_r. exact Ht.
Qed.

(** X4. Write, then search. With healthy services, after a deduplicating
    [add_memory] returned an id, a default-status search (with or without
    the same memory-type filter, reranked or not) whose [min_score] the
    written content reaches and whose limit covers the store returns a
    candidate with that id, scored with the similarity between the query
    and the content just written. *)
Theorem write_then_search (E : env) (c mt imp src q : string)
    (tg : option (list string)) (thr min_score : Q) (limit : nat)
    (mt' : option string) (rr : bool) (w w1 : world) (a : string) :
  healthy E -> wf_store (points w) -> fresh_ids E (points w) ->
  add_memory E c mt imp src tg None true thr w = (Returned a, w1) ->
  (min_score <= similarity E (embed E q) (embed E c))%Q ->
  List.length (points w1) <= limit ->
  mt' = None \/ mt' = Some mt ->
  exists docs w2 d,
    search_memory E q limit mt' None (Some "active") min_score rr w1 =
      (Returned docs, w2) /\
    In d docs /\ id (fields d) = a /\
    score d = Some (similarity E (embed E q) (embed E c)).
Proof.
  intros Hup Hwf Hfresh Hadd Hmin Hlen Hmt.
  destruct (add_memory_dedup_post E c mt imp src tg thr w w1 a
              Hup Hwf Hfresh Hadd) as (Hwf1 & p1 & Hl1 & Hv1 & Hm1).
  destruct (lookup_some _ _ _ Hl1) as [Hin1 Hid1].
  assert (Hida : id (payload p1) = a).
  { destruct Hwf1 as [_ Hall]. rewrite Forall_forall in Hall.
    now rewrite (Hall p1 Hin1). }
  destruct (search_memory_returns E q limit mt' None (Some "active")
              min_score rr w1 Hup) as (docs & w2 & Hs).
  destruct (search_memory_cases E q limit mt' None (Some "active") min_score
              rr w1 w2 _ Hs) as [_ Hdocs].
  destruct (Hdocs docs eq_refl) as (hits & n & Hhits & Hd).
  assert (Hfetch : List.length (points w1) <= (if rr then limit * 3 else limit)).
  { destruct rr; lia. }
  destruct (nearest_complete E (points w1) (embed E q)
              ((if truthy "active" then [("status", "active")] else []) ++
               (match mt' with
                | Some v => if truthy v then [("memory_type", v)] else []
                | None => []
                end) ++ [])
              (if rr then limit * 3 else limit) min_score p1 Hin1
              (dedup_scope_as_filter mt mt' _ Hmt Hm1))
    as [Hmem Hsize]; [now rewrite Hv1|exact Hfetch|].
  rewrite <- Hhits in Hmem, Hsize. rewrite Hv1 in Hmem.
  destruct (rr && negb (match hits with [] => true | _ => false end)) eqn:Hrr.
  - destruct (rerank_keeps_member E q n (map hit_doc hits)
                (hit_doc (similarity E (embed E q) (embed E c), payload p1)))
      as (r & Hr).
    { now apply in_map. }
    exists docs, w2. eexists. split; [exact Hs|]. split.
    + rewrite Hd, firstn_all2; [exact Hr|].
      rewrite length_map.
      rewrite (Permutation_length (sort_desc_perm _ fst _)).
      rewrite scored_from_length, length_map. lia.
    + split; [exact Hida|reflexivity].
  - exists docs, w2,
      (hit_doc (similarity E (embed E q) (embed E c), payload p1)).
    split; [exact Hs|]. split.
    + rewrite Hd, firstn_all2; [now apply in_map|].
      rewrite length_map. lia.
    + split; [exact Hida|reflexivity].
Qed.

Lemma write_then_search_witness :
  exists docs w2 d,
    search_memory Fixture.env0 "Prefers dark mode" 5 (Some "preference") None
      (Some "active") 0.5%Q true
      (snd (add_memory Fixture.env0 "Prefer dark mode" "preference" "normal"
              "conversation" None None true 0.85%Q Fixture.empty)) =
      (Returned docs, w2) /\
    In d docs /\ id (fields d) = "mem-4" /\
    score d = Some (similarity Fixture.env0
                      (embed Fixture.env0 "Prefers dark mode")
                      (embed Fixture.env0 "Prefer dark mode")).
Proof.
  apply (write_then_search Fixture.env0 "Prefer dark mode" "preference"
           "normal" "conversation" "Prefers dark mode" None 0.85%Q 0.5%Q 5
           (Some "preference") true Fixture.empty).
  - intros b n. reflexivity.
  - apply wf_store_nil.
  - intros n. reflexivity.
  - vm_compute. reflexivity.
  - apply Qle_bool_iff. vm_compute. reflexivity.
  - vm_compute. lia.
  - now right.
Defined.

(** *** Reranking *)

(** X5. [_rerank] only reorders and annotates: it returns as many
    candidates as it was given, the same payloads with the same similarity
    scores (as a permutation), each now carrying a rerank score; and it asks
    the reranker exactly once per candidate. *)
Theorem rerank_preserves_candidates (E : env) (q : string) (docs : list doc)
    (w : world) :
  exists out,
    fst (_rerank E q docs w) = Returned out /\
    List.length out = List.length docs /\
    Permutation (map (fun d => (score d, fields d)) out)
                (map (fun d => (score d, fields d)) docs) /\
    Forall (fun d => rerank_score d <> None) out /\
    tick (snd (_rerank E q docs w)) = List.length docs + tick w.
Proof.
  destruct (rerank_run E q docs w) as [Hrun _].
  eexists. split; [exact Hrun|].
  pose proof (sort_desc_perm _ fst (scored_from E q (tick w) docs)) as Hperm.
  split; [|split; [|split]].
  - rewrite length_map, (Permutation_length Hperm).
    apply scored_from_length.
  - rewrite map_map. cbn [set_rerank_score score fields].
    rewrite <- (scored_from_docs E q docs (tick w)) at 2.
    rewrite map_map. now apply Permutation_map.
  - apply Forall_forall. intros d Hd. apply in_map_iff in Hd.
    destruct Hd as (sd & <- & _). discriminate.
  - unfold _rerank. destruct docs as [|d docs]; [reflexivity|].
    unfold bind. now rewrite score_documents_run.
Qed.

(** *** The fused score is a probability

    Rounding to the nearest double is monotone, so a quotient that lies
    between 0 and 1 before it is rounded still does afterwards. *)
Section Rounding.
Local Open Scope Q_scope.

Lemma round_half_even_bounds (q : Q) :
  (Qfloor q <= round_half_even q <= Qfloor q + 1)%Z.
Proof.
  unfold round_half_even.
  destruct (q - inject_Z (Qfloor q) ?= 1 # 2); [destruct (Z.even _)| |]; lia.
Qed.

Lemma round_half_even_mono (x y : Q) :
  x <= y -> (round_half_even x <= round_half_even y)%Z.
Proof.
  intros Hxy.
  pose proof (Qfloor_resp_le _ _ Hxy) as Hf.
  destruct (Z.eq_dec (Qfloor x) (Qfloor y)) as [He|Hne].
  - unfold round_half_even. rewrite He.
    assert (Hr : x - inject_Z (Qfloor y) <= y - inject_Z (Qfloor y)).
    { apply Qplus_le_l with (z := inject_Z (Qfloor y)). ring_simplify. exact Hxy. }
    destruct (Qcompare_spec (x - inject_Z (Qfloor y)) (1 # 2)) as [Cx|Cx|Cx];
      destruct (Qcompare_spec (y - inject_Z (Qfloor y)) (1 # 2)) as [Cy|Cy|Cy];
      try (destruct (Z.even (Qfloor y))); try lia; exfalso;
      apply (Qlt_irrefl (1 # 2)).
    + rewrite <- Cx at 1. eapply Qle_lt_trans; eassumption.
    + rewrite <- Cy at 2. eapply Qlt_le_trans; eassumption.
    + eapply Qlt_le_trans; [exact Cx|].
      eapply Qle_trans; [exact Hr|]. now apply Qlt_le_weak.
    + eapply Qlt_le_trans; [exact Cx|].
      eapply Qle_trans; [exact Hr|]. now apply Qlt_le_weak.
  - pose proof (round_half_even_bounds x). pose proof (round_half_even_bounds y).
    lia.
Qed.

Lemma round_half_even_Z (n : Z) : round_half_even (inject_Z n) = n.
Proof.
  unfold round_half_even. rewrite Qfloor_Z.
  assert (H : inject_Z n - inject_Z n == 0) by ring.
  destruct (Qcompare_spec (inject_Z n - inject_Z n) (1 # 2)) as [C|C|C];
    [|reflexivity|]; rewrite H in C; discriminate.
Qed.

Lemma two_not_0 : ~ 2 == 0.
Proof. discriminate. Qed.

Lemma binade_spec (q : Q) :
  0 < q -> 2 ^ binade q <= q /\ q < 2 ^ (binade q + 1).
Proof.
  intros Hq. destruct q as [n d].
  assert (Hn : (0 < n)%Z).
  { unfold Qlt in Hq. simpl in Hq. lia. }
  unfold binade. cbn [Qnum Qden]. rewrite (Z.abs_eq n) by lia.
  set (a := Z.log2 n). set (b := Z.log2 (Zpos d)).
  destruct (Z.log2_spec n Hn) as [Ha1 Ha2].
  destruct (Z.log2_spec (Zpos d) eq_refl) as [Hb1 Hb2].
  fold a in Ha1, Ha2. fold b in Hb1, Hb2.
  assert (Ha0 : (0 <= a)%Z) by apply Z.log2_nonneg.
  assert (Hb0 : (0 <= b)%Z) by apply Z.log2_nonneg.
  assert (Hq' : n # d == inject_Z n / inject_Z (Zpos d)) by apply Qmake_Qdiv.
  assert (Hd : 0 < inject_Z (Zpos d)) by reflexivity.
  assert (HA1 : 2 ^ a <= inject_Z n).
  { change 2 with (inject_Z 2). rewrite <- (Zpower_Qpower 2 a Ha0).
    now rewrite <- Zle_Qle. }
  assert (HA2 : inject_Z n < 2 ^ (a + 1)).
  { change 2 with (inject_Z 2). rewrite <- (Zpower_Qpower 2 (a + 1)) by lia.
    now rewrite <- Zlt_Qlt. }
  assert (HB1 : 2 ^ b <= inject_Z (Zpos d)).
  { change 2 with (inject_Z 2). rewrite <- (Zpower_Qpower 2 b Hb0).
    now rewrite <- Zle_Qle. }
  assert (HB2 : inject_Z (Zpos d) < 2 ^ (b + 1)).
  { change 2 with (inject_Z 2). rewrite <- (Zpower_Qpower 2 (b + 1)) by lia.
    now rewrite <- Zlt_Qlt. }
  assert (Hup : n # d < 2 ^ (a - b + 1)).
  { rewrite Hq'. apply Qlt_shift_div_r; [exact Hd|].
    eapply Qlt_le_trans; [exact HA2|].
    replace (a + 1)%Z with ((a - b + 1) + b)%Z by lia.
    rewrite Qpower_plus by exact two_not_0.
    apply Qmult_le_l; [apply Qpower_0_lt; reflexivity|exact HB1]. }
  assert (Hlow : 2 ^ (a - b - 1) <= n # d).
  { rewrite Hq'. apply Qle_shift_div_l; [exact Hd|].
    eapply Qle_trans; [|exact HA1].
    replace a with ((a - b - 1) + (b + 1))%Z at 2 by lia.
    rewrite Qpower_plus by exact two_not_0.
    apply Qmult_le_l; [apply Qpower_0_lt; reflexivity|].
    now apply Qlt_le_weak. }
  destruct (Qle_bool (2 ^ (a - b)) (Qabs (n # d))) eqn:Ht.
  - apply Qle_bool_iff in Ht.
    rewrite Qabs_pos in Ht by (now apply Qlt_le_weak).
    split; [exact Ht|exact Hup].
  - split; [exact Hlow|].
    replace (a - b - 1 + 1)%Z with (a - b)%Z by lia.
    apply Qnot_le_lt. intros H.
    assert (Ht' : Qle_bool (2 ^ (a - b)) (Qabs (n # d)) = true).
    { apply Qle_bool_iff. rewrite Qabs_pos by (now apply Qlt_le_weak).
      exact H. }
    rewrite Ht' in Ht. discriminate.
Qed.

Lemma binade_mono (x y : Q) : 0 < x -> x <= y -> (binade x <= binade y)%Z.
Proof.
  intros Hx Hxy.
  assert (Hy : 0 < y) by (eapply Qlt_le_trans; eassumption).
  destruct (binade_spec x Hx) as [Hx1 _].
  destruct (binade_spec y Hy) as [_ Hy2].
  assert (H : 2 ^ binade x < 2 ^ (binade y + 1)).
  { eapply Qle_lt_trans; [exact Hx1|]. eapply Qle_lt_trans; eassumption. }
  apply Qpower_lt_compat_l_inv in H; [lia|reflexivity].
Qed.

Lemma round_double_pos (q : Q) :
  0 < q ->
  round_double q ==
  inject_Z (round_half_even (q / 2 ^ ulp_exponent q)) * 2 ^ ulp_exponent q.
Proof.
  intros Hq. unfold round_double.
  destruct (Qeq_bool q 0) eqn:Hz.
  - apply Qeq_bool_iff in Hz. rewrite Hz in Hq. discriminate.
  - apply Qred_correct.
Qed.

Lemma two_pow_pos (e : Z) : 0 < 2 ^ e.
Proof. apply Qpower_0_lt. reflexivity. Qed.

Lemma two_pow_Z (m : Z) : (0 <= m)%Z -> inject_Z (2 ^ m) == 2 ^ m.
Proof. intros Hm. now rewrite (Zpower_Qpower 2 m Hm). Qed.

Lemma round_double_nonneg (q : Q) : 0 <= q -> 0 <= round_double q.
Proof.
  intros Hq. unfold round_double.
  destruct (Qeq_bool q 0) eqn:Hz; [apply Qle_refl|].
  rewrite Qred_correct.
  apply Qmult_le_0_compat; [|apply Qlt_le_weak, two_pow_pos].
  change 0 with (inject_Z 0). rewrite <- Zle_Qle.
  pose proof (round_half_even_bounds (q / 2 ^ ulp_exponent q)) as [Hb _].
  eapply Z.le_trans; [|exact Hb].
  change 0%Z with (Qfloor 0). apply Qfloor_resp_le.
  apply Qle_shift_div_l; [apply two_pow_pos|]. now rewrite Qmult_0_l.
Qed.

Lemma round_double_mono_pos (x y : Q) :
  0 < x -> x <= y -> round_double x <= round_double y.
Proof.
  intros Hx Hxy.
  assert (Hy : 0 < y) by (eapply Qlt_le_trans; eassumption).
  rewrite (round_double_pos x Hx), (round_double_pos y Hy).
  pose proof (binade_mono x y Hx Hxy) as Hb.
  destruct (binade_spec x Hx) as [_ Hx2].
  destruct (binade_spec y Hy) as [Hy1 _].
  unfold ulp_exponent.
  set (ex := Z.max (-1074) (binade x - 52)).
  set (ey := Z.max (-1074) (binade y - 52)).
  destruct (Z.eq_dec ex ey) as [He|Hne].
  - rewrite He. apply Qmult_le_compat_r; [|apply Qlt_le_weak, two_pow_pos].
    rewrite <- Zle_Qle. apply round_half_even_mono.
    apply Qmult_le_compat_r; [exact Hxy|].
    apply Qlt_le_weak, Qinv_lt_0_compat, two_pow_pos.
  - assert (Hlt : (ex < ey)%Z) by (subst ex ey; lia).
    assert (Hey : ey = (binade y - 52)%Z) by (subst ex ey; lia).
    assert (Hbx : (binade x + 1 <= binade y)%Z) by (subst ex ey; lia).
    apply Qle_trans with (2 ^ binade y).
    + set (m := Z.max (binade x + 1 - ex) 0).
      assert (Hm : (0 <= m)%Z) by (subst m; lia).
      apply Qle_trans with (inject_Z (2 ^ m) * 2 ^ ex).
      * apply Qmult_le_compat_r; [|apply Qlt_le_weak, two_pow_pos].
        rewrite <- Zle_Qle.
        rewrite <- (round_half_even_Z (2 ^ m)).
        apply round_half_even_mono.
        apply Qle_shift_div_r; [apply two_pow_pos|].
        rewrite (two_pow_Z m Hm), <- Qpower_plus by exact two_not_0.
        apply Qlt_le_weak. eapply Qlt_le_trans; [exact Hx2|].
        apply Qpower_le_compat_l; [subst m; lia|discriminate].
      * rewrite (two_pow_Z m Hm), <- Qpower_plus by exact two_not_0.
        apply Qpower_le_compat_l; [subst m ex ey; lia|discriminate].
    + apply Qle_trans with (inject_Z (2 ^ 52) * 2 ^ ey).
      * rewrite (two_pow_Z 52) by lia.
        rewrite <- Qpower_plus by exact two_not_0.
        apply Qpower_le_compat_l; [lia|discriminate].
      * apply Qmult_le_compat_r; [|apply Qlt_le_weak, two_pow_pos].
        rewrite <- Zle_Qle.
        rewrite <- (round_half_even_Z (2 ^ 52)) at 1.
        apply round_half_even_mono.
        apply Qle_shift_div_l; [apply two_pow_pos|].
        rewrite (two_pow_Z 52) by lia.
        rewrite <- Qpower_plus by exact two_not_0.
        eapply Qle_trans; [|exact Hy1].
        apply Qpower_le_compat_l; [lia|discriminate].
Qed.

Lemma round_double_mono (x y : Q) :
  0 <= x -> x <= y -> round_double x <= round_double y.
Proof.
  intros Hx Hxy.
  destruct (Qeq_bool x 0) eqn:Hz.
  - unfold round_double at 1. rewrite Hz.
    apply round_double_nonneg. eapply Qle_trans; eassumption.
  - apply round_double_mono_pos; [|exact Hxy].
    apply Qle_lt_or_eq in Hx. destruct Hx as [Hx|Hx]; [exact Hx|].
    assert (Hz' : Qeq_bool x 0 = true) by (apply Qeq_bool_iff; now symmetry).
    rewrite Hz' in Hz. discriminate.
Qed.

(** The quotient of a double that is not negative by the double nearest to
    its sum with another one lies between 0 and 1. *)
Lemma float_softmax_bounds (ye ne total : Q) :
  0 <= ye -> 0 <= ne -> round_double ye == ye ->
  float_add ye ne = Some total -> ~ total == 0 ->
  0 <= float_div ye total /\ float_div ye total <= 1.
Proof.
  intros Hye Hne Hdouble Hadd Hnz.
  assert (Htot : total = round_double (ye + ne)).
  { unfold float_add in Hadd.
    destruct (finite (round_double (ye + ne))); now inversion Hadd. }
  assert (Hle : ye <= total).
  { rewrite <- Hdouble, Htot. apply round_double_mono; [exact Hye|].
    rewrite <- (Qplus_0_r ye) at 1. now apply Qplus_le_r. }
  assert (Hpos : 0 < total).
  { assert (H0 : 0 <= total) by (apply Qle_trans with ye; assumption).
    apply Qle_lt_or_eq in H0. destruct H0 as [H0|H0]; [exact H0|].
    elim Hnz. now symmetry. }
  unfold float_div. split.
  - change 0 with (round_double 0) at 1.
    apply round_double_mono; [apply Qle_refl|].
    apply Qle_shift_div_l; [exact Hpos|]. now rewrite Qmult_0_l.
  - change 1 with (round_double 1) at 1.
    apply round_double_mono.
    + apply Qle_shift_div_l; [exact Hpos|]. now rewrite Qmult_0_l.
    + apply Qle_shift_div_r; [exact Hpos|]. now rewrite Qmult_1_l.
Qed.

Lemma round_half_even_Qeq (x y : Q) :
  x == y -> round_half_even x = round_half_even y.
Proof.
  intros H. apply Z.le_antisymm; apply round_half_even_mono;
    rewrite H; apply Qle_refl.
Qed.

Lemma binade_pow2 (k : Z) : binade (2 ^ k) = k.
Proof.
  destruct (binade_spec (2 ^ k) (two_pow_pos k)) as [H1 H2].
  apply Qpower_le_compat_l_inv in H1; [|reflexivity].
  apply Qpower_lt_compat_l_inv in H2; [|reflexivity].
  lia.
Qed.

(** The powers of two from 2^-1074 up are doubles. *)
Lemma round_double_pow2 (k : Z) :
  (-1074 <= k)%Z -> round_double (2 ^ k) == 2 ^ k.
Proof.
  intros Hk. rewrite (round_double_pos _ (two_pow_pos k)).
  unfold ulp_exponent. rewrite binade_pow2.
  set (e := Z.max (-1074) (k - 52)).
  assert (He : (0 <= k - e)%Z) by (subst e; lia).
  rewrite (round_half_even_Qeq _ (inject_Z (2 ^ (k - e)))).
  - rewrite round_half_even_Z, (two_pow_Z _ He).
    rewrite <- Qpower_plus by exact two_not_0.
    now replace (k - e + e)%Z with k by lia.
  - rewrite (two_pow_Z _ He). now rewrite Qpower_minus by exact two_not_0.
Qed.

Lemma round_double_Qeq (x y : Q) :
  0 <= x -> x == y -> round_double x == round_double y.
Proof.
  intros Hx H. apply Qle_antisym; apply round_double_mono;
    rewrite <- ?H; try exact Hx; rewrite ?H; apply Qle_refl.
Qed.

Lemma exp2_double (x v : Q) :
  Fixture.exp2 x = Some v -> 0 <= v /\ round_double v == v.
Proof.
  unfold Fixture.exp2. destruct (Qle_bool 1024 x); [discriminate|].
  destruct (Qle_bool (-1074) x) eqn:Hlow; intros [= <-].
  - apply Qle_bool_iff in Hlow.
    assert (Hk : (-1074 <= Qfloor x)%Z).
    { change (-1074)%Z with (Qfloor (-1074)). now apply Qfloor_resp_le. }
    assert (Hv : Qred (2 ^ Qfloor x) == 2 ^ Qfloor x) by apply Qred_correct.
    assert (Hp : 0 <= Qred (2 ^ Qfloor x)).
    { rewrite Hv. apply Qlt_le_weak, two_pow_pos. }
    split; [exact Hp|].
    rewrite (round_double_Qeq _ _ Hp Hv), Hv.
    now apply round_double_pow2.
  - split; [apply Qle_refl|reflexivity].
Qed.

End Rounding.

(** X6. The fused score is a probability: when [math.exp] gives doubles
    that are not negative, every fused score lies in [0, 1] as soon as the
    candidate's own similarity score (when it has one) does.  Both bounds
    are reached: the quotient of the softmax can round to exactly 1. *)
Theorem fused_score_bounds (E : env) (d : doc) (c : completion) :
  (forall x v, math_exp E x = Some v ->
               (0 <= v)%Q /\ (round_double v == v)%Q) ->
  (forall s, score d = Some s -> (0 <= s)%Q /\ (s <= 1)%Q) ->
  (0 <= fused_score E d c)%Q /\ (fused_score E d c <= 1)%Q.
Proof.
  intros Hexp Hscore.
  assert (Hdef : (0 <= score_or_default d)%Q /\ (score_or_default d <= 1)%Q).
  { unfold score_or_default. destruct (score d) as [s|].
    - now apply Hscore.
    - split; discriminate. }
  destruct c as [top| |]; [|exact Hdef|exact Hdef].
  rewrite fused_score_scan.
  destruct (last_logprob is_yes top) as [y|], (last_logprob is_no top) as [n|];
    [|split; discriminate|split; discriminate|exact Hdef].
  unfold softmax.
  destruct (math_exp E y) as [ye|] eqn:Hy; [|exact Hdef].
  destruct (math_exp E n) as [ne|] eqn:Hn; [|exact Hdef].
  destruct (Hexp y ye Hy) as [Hye Hdouble].
  destruct (Hexp n ne Hn) as [Hne _].
  destruct (float_add ye ne) as [total|] eqn:Hadd; [|split; discriminate].
  destruct (Qeq_bool total 0) eqn:Hz; [exact Hdef|].
  apply (float_softmax_bounds ye ne total); try assumption.
  intros H. apply Qeq_bool_iff in H. rewrite H in Hz. discriminate.
Qed.

Lemma fused_score_bounds_witness :
  let d := mkDoc (Some 0.7%Q) (Fixture.mem "a" "one" "insight" "normal"
                                 "active") None in
  let c := Completed [(ustr "yes", 0%Q); (ustr "no", (-60)%Q)] in
  ((0 <= fused_score Fixture.env0 d c)%Q /\
   (fused_score Fixture.env0 d c <= 1)%Q) /\
  fused_score Fixture.env0 d c = 1%Q.
Proof.
  intros d c. split; [|reflexivity].
  apply (fused_score_bounds Fixture.env0 d c).
  - apply exp2_double.
  - intros s Hs. inversion Hs; subst. split; discriminate.
Defined.

(** *** Deduplication *)

(** The head of a nearest-neighbour list beats every stored point in scope
    that reaches the threshold. *)
Lemma nearest_head_best (E : env) (ps : list point) (v : list Q)
    (conds : list condition) (limit : nat) (thr : Q) (h : Q * Memory)
    (p : point) :
  hd_error (nearest E ps v conds limit thr) = Some h ->
  In p ps -> must conds (payload p) = true ->
  (thr <= similarity E v (vector p))%Q ->
  (similarity E v (vector p) <= fst h)%Q.
Proof.
  unfold nearest. intros Hh Hp Hm Hthr.
  set (l := filter (fun x : Q * Memory => Qle_bool thr (fst x))
              (map (fun p0 => (similarity E v (vector p0), payload p0))
                 (filter (fun p0 => must conds (payload p0)) ps))) in *.
  assert (Hin : In (similarity E v (vector p), payload p) (sort_desc fst l)).
  { apply (Permutation_in _ (Permutation_sym (sort_desc_perm _ fst l))).
    unfold l. apply filter_In. split.
    - apply in_map_iff. exists p. split; [reflexivity|].
      apply filter_In. now split.
    - cbn [fst]. now apply Qle_bool_iff. }
  pose proof (sort_desc_sorted _ fst l) as Hs.
  destruct (sort_desc fst l) as [|x rest]; [destruct Hin|].
  destruct limit as [|limit]; [discriminate|].
  cbn [firstn hd_error] in Hh. inversion Hh; subst.
  inversion Hs as [|x' l' Hall _]; subst.
  destruct Hin as [->|Hin]; [apply Qle_refl|].
  rewrite Forall_forall in Hall. apply (Hall _ Hin).
Qed.

(** The filter of the duplicate search, spelt out. *)
Lemma dedup_scope_spec (mt : string) (x : Memory) :
  must (dedup_scope mt) x = true <->
  status x = "active" /\ (truthy mt = true -> memory_type x = mt).
Proof.
  unfold dedup_scope, must, holds.
  destruct (truthy mt); cbn; rewrite ?andb_true_r.
  - rewrite andb_true_iff, !String.eqb_eq. intuition.
  - rewrite String.eqb_eq. intuition discriminate.
Qed.

(** X7. What the duplicate search reports, whatever the services answer:
    a hit is the payload of a stored point that is active, of the requested
    memory type (when one is given), with a similarity that reaches the
    threshold and that no other stored point in scope exceeds. *)
Theorem find_similar_memory_sound (E : env) (c : string) (thr : Q)
    (mt : string) (w w' : world) (s : Q) (m : Memory) :
  find_similar_memory E c thr (Some mt) w = (Returned (Some (s, m)), w') ->
  exists p,
    In p (points w) /\ payload p = m /\
    s = similarity E (embed E c) (vector p) /\
    status m = "active" /\
    (truthy mt = true -> memory_type m = mt) /\
    (thr <= s)%Q /\
    forall p', In p' (points w) -> status (payload p') = "active" ->
      (truthy mt = true -> memory_type (payload p') = mt) ->
      (thr <= similarity E (embed E c) (vector p'))%Q ->
      (similarity E (embed E c) (vector p') <= s)%Q.
Proof.
  intros Hr.
  destruct (find_similar_any E c thr mt w) as (o & n & Hf & Hhit).
  rewrite Hf in Hr. inversion Hr; subst.
  specialize (Hhit (s, m) eq_refl).
  assert (Hin : In (s, m)
                  (nearest E (points w) (embed E c) (dedup_scope mt) 1 thr)).
  { destruct (nearest E (points w) (embed E c) (dedup_scope mt) 1 thr);
      [discriminate|]. inversion Hhit. now left. }
  destruct (nearest_in E _ _ _ _ _ _ Hin) as (p & Hp & Heq & Hm & Hthr).
  injection Heq as Hs Hpm. subst s m.
  pose proof (dedup_scope_spec mt) as Hscope.
  exists p. split; [exact Hp|]. split; [reflexivity|]. split; [reflexivity|].
  apply Hscope in Hm. destruct Hm as [Hst Hty].
  split; [exact Hst|]. split; [exact Hty|].
  split; [now apply Qle_bool_iff|].
  intros p' Hp' Hst' Hty' Hthr'.
  apply (nearest_head_best E (points w) (embed E c) (dedup_scope mt) 1 thr
           (similarity E (embed E c) (vector p), payload p) p' Hhit Hp').
  - apply Hscope. now split.
  - exact Hthr'.
Qed.

Lemma find_similar_memory_sound_witness :
  exists p,
    In p (points Sample.w3) /\ payload p = payload Sample.new_point /\
    (625 # 625)%Q =
      similarity Fixture.env0 (embed Fixture.env0 "Prefer dark mode")
        (vector p) /\
    status (payload Sample.new_point) = "active" /\
    (truthy "preference" = true ->
     memory_type (payload Sample.new_point) = "preference") /\
    (0.85 <= 625 # 625)%Q /\
    forall p', In p' (points Sample.w3) ->
      status (payload p') = "active" ->
      (truthy "preference" = true ->
       memory_type (payload p') = "preference") ->
      (0.85 <= similarity Fixture.env0 (embed Fixture.env0 "Prefer dark mode")
                 (vector p'))%Q ->
      (similarity Fixture.env0 (embed Fixture.env0 "Prefer dark mode")
         (vector p') <= 625 # 625)%Q.
Proof.
  eapply (find_similar_memory_sound Fixture.env0 "Prefer dark mode" 0.85%Q
            "preference" Sample.w3).
  vm_compute. reflexivity.
Defined.

Lemma nearest_nil (E : env) (ps : list point) (v : list Q)
    (conds : list condition) (limit : nat) (thr : Q) :
  (forall p, In p ps -> must conds (payload p) = true ->
             (similarity E v (vector p) < thr)%Q) ->
  nearest E ps v conds limit thr = [].
Proof.
  intros Hlow. unfold nearest.
  assert (Hnil : filter (fun h : Q * Memory => Qle_bool thr (fst h))
                   (map (fun p => (similarity E v (vector p), payload p))
                      (filter (fun p => must conds (payload p)) ps)) = []).
  { induction ps as [|p ps IH]; [reflexivity|].
    cbn [filter].
    destruct (must conds (payload p)) eqn:Hm.
    - cbn [map filter fst].
      destruct (Qle_bool thr (similarity E v (vector p))) eqn:Hle.
      + apply Qle_bool_iff in Hle. exfalso.
        apply (Qlt_irrefl thr). eapply Qle_lt_trans; [exact Hle|].
        apply Hlow; [now left|exact Hm].
      + apply IH. intros q Hq. apply Hlow. now right.
    - apply IH. intros q Hq. apply Hlow. now right. }
  rewrite Hnil. cbn [sort_desc fold_right]. apply firstn_nil.
Qed.

(** X8. Deduplication merges only into genuine duplicates. With healthy
    services and fresh generated ids, when [add_memory] returns an id that
    was already stored, then deduplication was on and [supersedes] absent,
    and that stored record was active, of the same memory type (when one is
    given) and within the threshold of the new content. *)
Theorem add_memory_merges_only_duplicates (E : env) (c mt imp src : string)
    (tg : option (list string)) (sup : option string) (dedup : bool)
    (thr : Q) (w w' : world) (a : string) (p : point) :
  healthy E -> wf_store (points w) -> fresh_ids E (points w) ->
  add_memory E c mt imp src tg sup dedup thr w = (Returned a, w') ->
  lookup a (points w) = Some p ->
  dedup = true /\ truthy_opt sup = false /\
  status (payload p) = "active" /\
  (truthy mt = true -> memory_type (payload p) = mt) /\
  (thr <= similarity E (embed E c) (vector p))%Q.
Proof.
  intros Hup Hwf Hfresh Hrun Hp.
  assert (Hnew : forall k,
    (dedup && negb (truthy_opt sup) = true /\ k = 4 /\
     nearest E (points w) (embed E c) (dedup_scope mt) 1 thr = []) \/
    (dedup && negb (truthy_opt sup) = false /\ k = 1) -> False).
  { intros k Hk.
    rewrite (add_memory_create E Hup c mt imp src tg sup dedup thr w k Hk)
      in Hrun.
    assert (Ha : a = uuid4 E (k + tick w)).
    { destruct sup as [old|]; [destruct (truthy old)|].
      - cbv zeta in Hrun.
        destruct (fst (update_memory E old None (Some "superseded") None _ _));
          now inversion Hrun.
      - now inversion Hrun.
      - now inversion Hrun. }
    rewrite Ha, Hfresh in Hp. discriminate. }
  destruct (dedup && negb (truthy_opt sup)) eqn:Hd;
    [|exfalso; apply (Hnew 1); right; auto].
  apply andb_prop in Hd. destruct Hd as [-> Hsup].
  apply negb_true_iff in Hsup.
  destruct (nearest E (points w) (embed E c) (dedup_scope mt) 1 thr)
    as [|[s m] l] eqn:Hn;
    [exfalso; apply (Hnew 4); left; rewrite ?Hsup; auto|].
  assert (Hhit : hd_error (nearest E (points w) (embed E c) (dedup_scope mt)
                             1 thr) = Some (s, m)) by now rewrite Hn.
  assert (Hin : In (s, m)
                  (nearest E (points w) (embed E c) (dedup_scope mt) 1 thr)).
  { rewrite Hn. now left. }
  destruct (nearest_in E _ _ _ _ _ _ Hin) as (p1 & Hp1 & Heq & Hm1 & Hthr).
  injection Heq as Hs Hpm. symmetry in Hpm.
  rewrite Hpm in Hm1. apply dedup_scope_spec in Hm1.
  destruct Hm1 as [Hst Hty]. cbn [fst] in Hthr.
  apply Qle_bool_iff in Hthr.
  destruct (add_memory_merge_run E c mt imp src tg sup thr w s m
              Hup Hwf Hsup Hhit) as (p0 & Hl & Hp0 & _ & Hrun').
  rewrite Hrun' in Hrun. inversion Hrun; subst a.
  rewrite Hl in Hp. inversion Hp; subst p0.
  assert (Hsame : p1 = p).
  { destruct Hwf as [Hnd Hall]. rewrite Forall_forall in Hall.
    pose proof (lookup_in_wf p1 (points w) Hnd Hp1) as Hl1.
    rewrite <- (Hall p1 Hp1), Hpm, Hl in Hl1. now inversion Hl1. }
  subst p1. rewrite Hp0.
  repeat split; try assumption. now rewrite <- Hs.
Qed.

Lemma add_memory_merges_only_duplicates_witness :
  true = true /\ truthy_opt None = false /\
  status (payload Sample.new_point) = "active" /\
  (truthy "preference" = true ->
   memory_type (payload Sample.new_point) = "preference") /\
  (0.85 <= similarity Fixture.env0
             (embed Fixture.env0 "Prefers dark mode")
             (vector Sample.new_point))%Q.
Proof.
  eapply (add_memory_merges_only_duplicates Fixture.env0 "Prefers dark mode"
            "preference" "normal" "conversation" None None true 0.85%Q
            Sample.w3 _ "n" Sample.new_point).
  - intros b n. reflexivity.
  - split; [repeat constructor; simpl; intuition discriminate
           |repeat constructor].
  - intros n. unfold lookup. simpl. reflexivity.
  - vm_compute. reflexivity.
  - reflexivity.
Defined.

(** X9. Storing a new record. With healthy services and fresh ids, when
    [supersedes] is absent and either deduplication is off or no stored
    record in scope reaches the threshold, [add_memory] appends exactly one
    point and touches no other: the new record is active, carries the given
    content, type, importance, source and tags (none when not given), and
    is stored with the embedding of its content under the returned id. *)
Theorem add_memory_stores_new (E : env) (c mt imp src : string)
    (tg : option (list string)) (sup : option string) (dedup : bool)
    (thr : Q) (w : world) :
  healthy E -> wf_store (points w) -> fresh_ids E (points w) ->
  truthy_opt sup = false ->
  dedup = false \/
  (forall p, In p (points w) -> must (dedup_scope mt) (payload p) = true ->
             (similarity E (embed E c) (vector p) < thr)%Q) ->
  exists a t n,
    lookup a (points w) = None /\
    add_memory E c mt imp src tg sup dedup thr w =
    (Returned a,
     mkWorld
       (points w ++
        [mkPoint a (embed E c)
           (mkMemory a c mt t imp "active" src
              (match tg with Some l => l | None => [] end) None sup)])
       n).
Proof.
  intros Hup Hwf Hfresh Hsup Hwhy.
  assert (Hk : exists k,
    (dedup && negb (truthy_opt sup) = true /\ k = 4 /\
     nearest E (points w) (embed E c) (dedup_scope mt) 1 thr = []) \/
    (dedup && negb (truthy_opt sup) = false /\ k = 1)).
  { destruct dedup.
    - exists 4. left. rewrite Hsup. split; [reflexivity|]. split; [reflexivity|].
      destruct Hwhy as [Hd|Hlow]; [discriminate|]. now apply nearest_nil.
    - exists 1. right. split; reflexivity. }
  destruct Hk as [k Hk].
  exists (uuid4 E (k + tick w)), (utcnow E (S k + tick w)), (4 + k + tick w).
  split; [apply Hfresh|].
  rewrite (add_memory_create E Hup c mt imp src tg sup dedup thr w k Hk).
  rewrite upsert_fresh by apply Hfresh.
  destruct sup as [old|]; [|reflexivity].
  cbn [truthy_opt] in Hsup. now rewrite Hsup.
Qed.

Lemma add_memory_stores_new_witness :
  exists a t n,
    lookup a (points Sample.w3) = None /\
    add_memory Fixture.env0 "Prefer dark mode" "preference" "low" "chat"
      (Some ["ui"]) None false 0.85%Q Sample.w3 =
    (Returned a,
     mkWorld
       (points Sample.w3 ++
        [mkPoint a (embed Fixture.env0 "Prefer dark mode")
           (mkMemory a "Prefer dark mode" "preference" t "low" "active"
              "chat" ["ui"] None None)])
       n).
Proof.
  apply (add_memory_stores_new Fixture.env0 "Prefer dark mode" "preference"
           "low" "chat" (Some ["ui"]) None false 0.85%Q Sample.w3).
  - intros b n. reflexivity.
  - split; [repeat constructor; simpl; intuition discriminate
           |repeat constructor].
  - intros n. unfold lookup. simpl. reflexivity.
  - reflexivity.
  - now left.
Defined.

(** *** Writing *)

(** What [update_memory] writes, whatever the services answer: nothing, or
    the patched record over the one it found, with the embedding of the new
    content when content is given and the stored vector otherwise. *)
Lemma update_memory_written (E : env) (a : string) (c s i sb : option string)
    (w : world) :
  wf_store (points w) ->
  points (snd (update_memory E a c s i sb w)) = points w \/
  exists pt t,
    lookup a (points w) = Some pt /\
    points (snd (update_memory E a c s i sb w)) =
    upsert (mkPoint a
              (match c with Some c' => embed E c' | None => vector pt end)
              (patched c s i sb t (payload pt))) (points w).
Proof.
  intros [_ Hid].
  unfold update_memory, qdrant_scroll, qdrant_upsert, _get_embedding. run.
  destruct (net E Qdrant (tick w)); run; auto.
  rewrite (scroll_by_id a (points w) Hid).
  destruct (lookup a (points w)) as [pt|]; run; auto.
  destruct c as [c'|]; run.
  - destruct (net E Ollama (S (tick w))); run; auto.
    destruct (net E Qdrant (S (S (S (tick w))))); run; auto.
    right. exists pt. eexists. split; reflexivity.
  - destruct (net E Qdrant (S (S (tick w)))); run; auto.
    right. exists pt. eexists. split; reflexivity.
Qed.

(** What [add_memory] writes, whatever the services answer. *)
Lemma add_memory_written (E : env) (c mt imp src : string)
    (tg : option (list string)) (sup : option string) (dedup : bool)
    (thr : Q) (w w' : world) (o : outcome string) :
  wf_store (points w) ->
  add_memory E c mt imp src tg sup dedup thr w = (o, w') ->
  points w' = points w \/
  (exists (hit : Q * Memory) pt t i',
     truthy_opt sup = false /\
     lookup (id (snd hit)) (points w) = Some pt /\
     points w' =
     upsert (mkPoint (id (snd hit)) (embed E c)
               (patched (Some c) None (Some i') None t (payload pt)))
            (points w)) \/
  (exists n t ps1,
     let a := uuid4 E n in
     let new := mkPoint a (embed E c)
                  (mkMemory a c mt t imp "active" src
                     (match tg with Some l => l | None => [] end) None sup) in
     (ps1 = points w \/ ps1 = upsert new (points w)) /\
     (points w' = ps1 \/
      exists old pt t',
        sup = Some old /\ truthy old = true /\ lookup old ps1 = Some pt /\
        points w' =
        upsert (mkPoint old (vector pt)
                  (patched None (Some "superseded") None (Some a) t'
                     (payload pt))) ps1)).
Proof.
  intros Hwf Hr. unfold add_memory in Hr. unfold bind at 1 in Hr.
  destruct (ensure_any E w) as (o1 & n1 & He). rewrite He in Hr. clear He.
  destruct o1 as [[]|e]; [|inversion Hr; left; reflexivity].
  unfold bind at 1 in Hr.
  assert (Hex : exists o n,
    (if dedup && negb (truthy_opt sup)
     then find_similar_memory E c thr (Some mt)
     else ret None) (mkWorld (points w) n1) = (o, mkWorld (points w) n) /\
    forall hit, o = Returned (Some hit) -> truthy_opt sup = false).
  { destruct (dedup && negb (truthy_opt sup)) eqn:Hd.
    - destruct (find_similar_any E c thr mt (mkWorld (points w) n1))
        as (o2 & n & Hf & _).
      exists o2, n. split; [exact Hf|]. intros _ _.
      apply andb_prop in Hd. destruct Hd as [_ Hd].
      now apply negb_true_iff in Hd.
    - exists (Returned None), n1. split; [reflexivity|discriminate]. }
  destruct Hex as (o2 & n & He & Hsup). rewrite He in Hr. clear He.
  destruct o2 as [[hit|]|e]; [| |inversion Hr; left; reflexivity].
  - (* merge *)
    specialize (Hsup hit eq_refl).
    unfold bind at 1 in Hr.
    match type of Hr with
    | context [update_memory E ?a ?x1 ?x2 ?x3 ?x4 ?w0] =>
        destruct (update_memory_written E a x1 x2 x3 x4 w0 Hwf)
          as [Hu|(pt & t & Hl & Hu)];
        destruct (update_memory E a x1 x2 x3 x4 w0) as [[b|e] w1]
    end; cbn [fst snd points ret] in *; inversion Hr; subst; auto;
      right; left; exists hit, pt, t; eexists; repeat split; eauto.
  - (* create *)
    assert (Hfin : forall ps1 k o3 w3,
      wf_store ps1 ->
      let a := uuid4 E n in
      ((if truthy_opt sup
          then match sup with
               | Some old =>
                   update_memory E old None (Some "superseded") None
                     (Some a) ;;; ret tt
               | None => ret tt
               end
          else ret tt) ;;; ret a) (mkWorld ps1 k) = (o3, w3) ->
      points w3 = ps1 \/
      exists old pt t',
        sup = Some old /\ truthy old = true /\ lookup old ps1 = Some pt /\
        points w3 =
        upsert (mkPoint old (vector pt)
                  (patched None (Some "superseded") None (Some a) t'
                     (payload pt))) ps1).
    { intros ps1 k o3 w3 Hwf1 a H3.
      destruct sup as [old|]; cbn [truthy_opt] in H3;
        [|inversion H3; left; reflexivity].
      destruct (truthy old) eqn:Hold; [|inversion H3; left; reflexivity].
      unfold bind at 1 in H3. unfold bind at 1 in H3.
      destruct (update_memory_written E old None (Some "superseded") None
                  (Some a) (mkWorld ps1 k) Hwf1)
        as [Hu|(pt & t & Hl & Hu)];
      destruct (update_memory E old None (Some "superseded") None (Some a)
                  (mkWorld ps1 k)) as [[b|e] w1]; cbn [fst snd points ret] in *;
        inversion H3; subst;
        auto; right; exists old, pt, t; repeat split; auto. }
    unfold bind at 1 in Hr. cbn [fresh_uuid bump points tick] in Hr.
    unfold bind at 1 in Hr. cbn [now bump points tick] in Hr.
    unfold bind at 1 in Hr.
    match type of Hr with
    | context [_get_embedding E c ?w0] =>
        destruct (embedding_any E c w0) as [[_ Hb]|[_ [e Hb]]];
        rewrite Hb in Hr; clear Hb; [|inversion Hr; left; reflexivity]
    end.
    unfold bind at 1 in Hr. cbn [bump points tick] in Hr.
    match type of Hr with
    | context [qdrant_upsert E ?a ?v ?m ?w0] =>
        destruct (upsert_any E a v m w0) as (o4 & ps1 & Hu & Hps);
        rewrite Hu in Hr; clear Hu
    end.
    cbn [points tick] in Hps.
    right; right. exists n, (utcnow E (S n)), ps1. cbn zeta.
    split; [exact Hps|].
    destruct o4 as [[]|e]; [|inversion Hr; left; reflexivity].
    eapply Hfin; [|exact Hr].
    destruct Hps as [->| ->]; [exact Hwf|].
    apply wf_upsert; [exact Hwf|reflexivity].
Qed.

Lemma patched_fields (c s i sb : option string) (t : string) (m : Memory) :
  content (patched c s i sb t m) =
    match c with Some c' => c' | None => content m end /\
  importance (patched c s i sb t m) =
    match i with Some i' => i' | None => importance m end /\
  superseded_by (patched c s i sb t m) =
    match sb with Some b => Some b | None => superseded_by m end /\
  memory_type (patched c s i sb t m) = memory_type m /\
  source (patched c s i sb t m) = source m /\
  tags (patched c s i sb t m) = tags m /\
  timestamp (patched c s i sb t m) = t.
Proof. destruct c, s, i, sb; repeat split; reflexivity. Qed.

(** X10. [update_memory] touches one record at most, whatever the services
    answer: the stored ids stay the same in the same order (nothing is
    created or deleted), every record other than the target is found
    unchanged, the store stays well formed, and the target keeps its id,
    memory type, source, tags and [supersedes] link. *)
Theorem update_memory_frame (E : env) (a : string) (c s i sb : option string)
    (w : world) :
  wf_store (points w) ->
  let ps' := points (snd (update_memory E a c s i sb w)) in
  map point_id ps' = map point_id (points w) /\
  (forall x, x <> a -> lookup x ps' = lookup x (points w)) /\
  wf_store ps' /\
  (forall pt, lookup a (points w) = Some pt ->
   exists p', lookup a ps' = Some p' /\
     id (payload p') = id (payload pt) /\
     memory_type (payload p') = memory_type (payload pt) /\
     source (payload p') = source (payload pt) /\
     tags (payload p') = tags (payload pt) /\
     supersedes (payload p') = supersedes (payload pt)).
Proof.
  intros Hwf ps'. subst ps'.
  destruct (update_memory_written E a c s i sb w Hwf)
    as [->|(pt & t & Hl & ->)].
  - repeat split; try apply Hwf.
    intros pt Hpt. exists pt. repeat split; assumption.
  - split; [apply (upsert_ids_present (mkPoint a _ _) pt); exact Hl|].
    split; [intros x Hx; now apply lookup_upsert_other|].
    split; [now apply wf_patch|].
    intros pt' Hpt'. rewrite Hl in Hpt'. inversion Hpt'; subst pt'.
    eexists. split; [apply (lookup_upsert_same (mkPoint a _ _))|].
    cbn [payload].
    destruct (patched_keeps c s i sb t (payload pt)) as (-> & -> & _).
    destruct (patched_fields c s i sb t (payload pt))
      as (_ & _ & _ & -> & -> & -> & _).
    repeat split.
Qed.

Lemma update_memory_frame_witness :
  let ps' := points (snd (update_memory Fixture.env0 "n" (Some "Dark mode")
                            (Some "archived") None None Sample.w3)) in
  map point_id ps' = ["o"; "n"; "k"] /\
  lookup "o" ps' = Some Sample.old_point /\
  lookup "k" ps' = Some Sample.task_point /\
  wf_store ps'.
Proof.
  intros ps'.
  destruct (update_memory_frame Fixture.env0 "n" (Some "Dark mode")
              (Some "archived") None None Sample.w3)
    as (Hids & Hother & Hwf & _).
  { split; [repeat constructor; simpl; intuition discriminate
           |repeat constructor]. }
  split; [exact Hids|]. split; [|split; [|exact Hwf]].
  - apply (Hother "o"). discriminate.
  - apply (Hother "k"). discriminate.
Defined.

(** X11. A successful [update_memory]. With healthy services, for a stored
    id: the call returns [true]; the record then has the given content,
    status, importance and [superseded_by] where they were given and the
    old ones where they were not; its vector is the embedding of the new
    content when content was given and the old vector otherwise; and its
    timestamp is a fresh reading of the clock. *)
Theorem update_memory_applies_given_fields (E : env) (a : string)
    (c s i sb : option string) (w : world) (pt : point) :
  healthy E -> wf_store (points w) -> lookup a (points w) = Some pt ->
  exists p' w',
    update_memory E a c s i sb w = (Returned true, w') /\
    lookup a (points w') = Some p' /\
    content (payload p') =
      match c with Some c' => c' | None => content (payload pt) end /\
    status (payload p') =
      match s with Some s' => s' | None => status (payload pt) end /\
    importance (payload p') =
      match i with Some i' => i' | None => importance (payload pt) end /\
    superseded_by (payload p') =
      match sb with Some b => Some b | None => superseded_by (payload pt) end /\
    vector p' =
      match c with Some c' => embed E c' | None => vector pt end /\
    exists n, tick w < n /\ timestamp (payload p') = utcnow E n.
Proof.
  intros Hup Hwf Hl.
  rewrite (update_memory_served E Hup a c s i sb w Hwf), Hl.
  eexists. eexists. split; [reflexivity|]. cbn [points].
  split; [apply (lookup_upsert_same (mkPoint a _ _))|].
  cbn [payload vector].
  destruct (patched_keeps c s i sb
              (utcnow E (S (match c with Some _ => 1 | None => 0 end) + tick w))
              (payload pt)) as (_ & _ & ->).
  destruct (patched_fields c s i sb
              (utcnow E (S (match c with Some _ => 1 | None => 0 end) + tick w))
              (payload pt)) as (-> & -> & -> & _ & _ & _ & ->).
  repeat split.
  eexists. split; [|reflexivity]. lia.
Qed.

Lemma update_memory_applies_given_fields_witness :
  exists p' w',
    update_memory Fixture.env0 "n" (Some "Dark mode") None (Some "critical")
      None Sample.w3 = (Returned true, w') /\
    lookup "n" (points w') = Some p' /\
    content (payload p') = "Dark mode" /\
    status (payload p') = "active" /\
    importance (payload p') = "critical" /\
    superseded_by (payload p') = None /\
    vector p' = embed Fixture.env0 "Dark mode" /\
    exists n, tick Sample.w3 < n /\
              timestamp (payload p') = utcnow Fixture.env0 n.
Proof.
  apply (update_memory_applies_given_fields Fixture.env0 "n"
           (Some "Dark mode") None (Some "critical") None Sample.w3
           Sample.new_point).
  - intros b n. reflexivity.
  - split; [repeat constructor; simpl; intuition discriminate
           |repeat constructor].
  - reflexivity.
Defined.

Lemma embedded_upsert (E : env) (p : point) (ps : list point) :
  embedded E ps -> vector p = embed E (content (payload p)) ->
  embedded E (upsert p ps).
Proof.
  unfold embedded. intros Hps Hp. apply Forall_forall. intros x Hx.
  destruct (upsert_in _ _ _ Hx) as [->|Hin]; [exact Hp|].
  rewrite Forall_forall in Hps. now apply Hps.
Qed.

Lemma embedded_patch (E : env) (a : string) (c s i sb : option string)
    (t : string) (pt : point) (ps : list point) :
  embedded E ps -> lookup a ps = Some pt ->
  embedded E
    (upsert (mkPoint a
               (match c with Some c' => embed E c' | None => vector pt end)
               (patched c s i sb t (payload pt))) ps).
Proof.
  intros Hps Hl. apply embedded_upsert; [exact Hps|]. cbn [vector payload].
  destruct (patched_fields c s i sb t (payload pt)) as (-> & _).
  destruct c as [c'|]; [reflexivity|].
  unfold embedded in Hps. rewrite Forall_forall in Hps.
  apply Hps. now apply (lookup_some a).
Qed.

(** X12. Vectors follow content. If every stored vector is the embedding
    of the content stored with it, this is still so after any
    [update_memory] and any [add_memory], whatever the services answer:
    content is never written without its embedding, and a failed embedding
    writes nothing. *)
Theorem vectors_follow_content (E : env) (w : world) :
  wf_store (points w) -> embedded E (points w) ->
  (forall a c s i sb,
     embedded E (points (snd (update_memory E a c s i sb w)))) /\
  (forall c mt imp src tg sup dedup thr,
     embedded E (points (snd (add_memory E c mt imp src tg sup dedup thr w)))).
Proof.
  intros Hwf Hemb. split.
  - intros a c s i sb.
    destruct (update_memory_written E a c s i sb w Hwf)
      as [->|(pt & t & Hl & ->)]; [exact Hemb|].
    now apply embedded_patch.
  - intros c mt imp src tg sup dedup thr.
    destruct (add_memory E c mt imp src tg sup dedup thr w) as [o w'] eqn:Hr.
    cbn [snd].
    destruct (add_memory_written E c mt imp src tg sup dedup thr w w' o
                Hwf Hr)
      as [->|[(hit & pt & t & i' & _ & Hl & ->)
             |(n & t & ps1 & Hps1 & Hfin)]].
    + exact Hemb.
    + apply (embedded_patch E _ (Some c)); assumption.
    + cbn zeta in Hps1, Hfin.
      assert (H1 : embedded E ps1).
      { destruct Hps1 as [->| ->]; [exact Hemb|].
        apply embedded_upsert; [exact Hemb|reflexivity]. }
      destruct Hfin as [->|(old & pt & t' & _ & _ & Hl & ->)]; [exact H1|].
      apply (embedded_patch E _ None); assumption.
Qed.

Lemma vectors_follow_content_witness :
  embedded Fixture.env0
    (points (snd (update_memory Fixture.env_embed_down "n" (Some "Dark mode")
                    None None None Sample.w3))) /\
  embedded Fixture.env0
    (points (snd (add_memory Fixture.env0 "Prefers dark mode" "task" "high"
                    "conversation" None (Some "n") true 0.85%Q Sample.w3))).
Proof.
  assert (Hwf : wf_store (points Sample.w3)).
  { split; [repeat constructor; simpl; intuition discriminate
           |repeat constructor]. }
  assert (Hemb : embedded Fixture.env0 (points Sample.w3)).
  { repeat constructor. }
  split.
  - apply (vectors_follow_content Fixture.env_embed_down Sample.w3 Hwf Hemb).
  - apply (vectors_follow_content Fixture.env0 Sample.w3 Hwf Hemb).
Defined.

Lemma same_record_refl (m : Memory) : same_record m m.
Proof. repeat split. Qed.

Lemma keeps_records_refl (ps : list point) : keeps_records ps ps.
Proof. intros x p Hl. exists p. split; [exact Hl|apply same_record_refl]. Qed.

Lemma keeps_records_new (p : point) (ps : list point) :
  lookup (point_id p) ps = None -> keeps_records ps (upsert p ps).
Proof.
  intros Hnone x q Hl. exists q. split; [|apply same_record_refl].
  rewrite lookup_upsert_other; [exact Hl|].
  intros ->. rewrite Hl in Hnone. discriminate.
Qed.

(** A merge rewrites content, importance, vector and timestamp only. *)
Lemma keeps_records_merge (a : string) (v : list Q) (c i : option string)
    (t : string) (pt : point) (ps : list point) :
  lookup a ps = Some pt ->
  keeps_records ps (upsert (mkPoint a v (patched c None i None t (payload pt))) ps).
Proof.
  intros Hpt x q Hl.
  destruct (String.eqb x a) eqn:Hx.
  - apply String.eqb_eq in Hx. subst x.
    rewrite Hpt in Hl. inversion Hl; subst q.
    eexists. split; [apply (lookup_upsert_same (mkPoint a _ _))|].
    cbn [payload]. unfold same_record.
    destruct (patched_keeps c None i None t (payload pt)) as (-> & -> & ->).
    destruct (patched_fields c None i None t (payload pt))
      as (_ & _ & -> & -> & -> & -> & _).
    repeat split.
  - apply String.eqb_neq in Hx. exists q. split; [|apply same_record_refl].
    rewrite lookup_upsert_other; [exact Hl|exact Hx].
Qed.

(** [add_memory] without [supersedes] keeps every stored record and adds
    one point at most. *)
Lemma add_memory_keeps_records (E : env) (c mt imp src : string)
    (tg : option (list string)) (sup : option string) (dedup : bool)
    (thr : Q) (w w' : world) (o : outcome string) :
  wf_store (points w) -> fresh_ids E (points w) -> truthy_opt sup = false ->
  add_memory E c mt imp src tg sup dedup thr w = (o, w') ->
  keeps_records (points w) (points w') /\
  List.length (points w') <= S (List.length (points w)).
Proof.
  intros Hwf Hfresh Hsup Hr.
  destruct (add_memory_written E c mt imp src tg sup dedup thr w w' o Hwf Hr)
    as [->|[(hit & pt & t & i' & _ & Hl & ->)
           |(n & t & ps1 & Hps1 & Hfin)]].
  - split; [apply keeps_records_refl|lia].
  - split; [now apply keeps_records_merge|].
    rewrite (upsert_length_present (mkPoint (id (snd hit)) _ _) pt _ Hl). lia.
  - cbn zeta in Hps1, Hfin.
    destruct Hfin as [->|(old & pt & t' & -> & Hold & _)].
    + destruct Hps1 as [->| ->].
      * split; [apply keeps_records_refl|lia].
      * split; [apply keeps_records_new; apply Hfresh|].
        rewrite upsert_fresh by apply Hfresh. rewrite length_app. simpl. lia.
    + cbn [truthy_opt] in Hsup. rewrite Hsup in Hold. discriminate.
Qed.

(** X13. The write tools cannot supersede. Whatever the services answer,
    [add_memory] called without [supersedes] (and so the [memory_add] tool,
    which never passes it) keeps every stored record with its id, memory
    type, status, source, tags and both supersession links, and adds one
    point at most; and [memory_add] without a ["content"] argument answers
    with the error object and does nothing. *)
Theorem memory_add_keeps_records (E : env) (w : world) :
  wf_store (points w) -> fresh_ids E (points w) ->
  (forall c mt imp src tg dedup thr,
     keeps_records (points w)
       (points (snd (add_memory E c mt imp src tg None dedup thr w)))) /\
  (forall args,
     keeps_records (points w) (points (snd (call_tool_memory_add E args w))) /\
     List.length (points (snd (call_tool_memory_add E args w))) <=
       S (List.length (points w)) /\
     (arg_content args = None ->
      call_tool_memory_add E args w =
      (ErrorJson (KeyError "content") "memory_add", w))).
Proof.
  intros Hwf Hfresh. split.
  - intros c mt imp src tg dedup thr.
    destruct (add_memory E c mt imp src tg None dedup thr w) as [o w'] eqn:Hr.
    now destruct (add_memory_keeps_records E c mt imp src tg None dedup thr
                    w w' o Hwf Hfresh eq_refl Hr).
  - intros args. unfold call_tool_memory_add.
    destruct (arg_content args) as [c|].
    + match goal with
      | |- context [add_memory E c ?mt ?imp ?src ?tg None true ?thr w] =>
          destruct (add_memory E c mt imp src tg None true thr w)
            as [o w'] eqn:Hr;
          destruct (add_memory_keeps_records E c mt imp src tg None true thr
                      w w' o Hwf Hfresh eq_refl Hr) as [Hk Hlen]
      end.
      destruct o; cbn [snd]; (split; [exact Hk|split; [exact Hlen|]]);
        discriminate.
    + cbn [snd]. split; [apply keeps_records_refl|]. split; [lia|reflexivity].
Qed.

Lemma memory_add_keeps_records_witness :
  keeps_records (points Sample.w3)
    (points (snd (call_tool_memory_add Fixture.env0
                    (mkAddArgs (Some "Prefers dark mode") (Some "preference")
                       (Some "low") None) Sample.w3))) /\
  call_tool_memory_add Fixture.env0 (mkAddArgs None None None None) Sample.w3 =
    (ErrorJson (KeyError "content") "memory_add", Sample.w3).
Proof.
  assert (Hwf : wf_store (points Sample.w3)).
  { split; [repeat constructor; simpl; intuition discriminate
           |repeat constructor]. }
  assert (Hfresh : fresh_ids Fixture.env0 (points Sample.w3)).
  { intros n. unfold lookup. simpl. reflexivity. }
  destruct (memory_add_keeps_records Fixture.env0 Sample.w3 Hwf Hfresh)
    as [_ Htool].
  split.
  - apply (Htool (mkAddArgs (Some "Prefers dark mode") (Some "preference")
                    (Some "low") None)).
  - apply (Htool (mkAddArgs None None None None)). reflexivity.
Defined.

(** *** Recent memories *)

(** X14. What [get_recent_memories] returns, whatever the services answer:
    at most [limit] payloads of stored points, latest first, all of the
    requested memory type when one is given.  There is no status filter. *)
Theorem get_recent_memories_sound (E : env) (instant : string -> Q)
    (limit : nat) (mt : option string) (w w' : world) (ms : list Memory) :
  get_recent_memories E instant limit mt w = (Returned ms, w') ->
  List.length ms <= limit /\
  sorted_desc (fun m => instant (timestamp m)) ms /\
  forall m, In m ms ->
    exists p, In p (points w) /\ payload p = m /\
      (forall t, mt = Some t -> truthy t = true -> memory_type m = t).
Proof.
  intros Hr. unfold get_recent_memories in Hr. unfold bind at 1 in Hr.
  destruct (ensure_any E w) as (o1 & n1 & He). rewrite He in Hr. clear He.
  destruct o1 as [[]|e]; [|discriminate].
  unfold qdrant_scroll_ordered in Hr. run_in Hr.
  destruct (net E Qdrant n1); run_in Hr; try discriminate.
  inversion Hr; subst. clear Hr.
  split; [rewrite length_map; apply firstn_le_length|].
  split.
  - apply sorted_desc_map, sorted_desc_firstn, sort_desc_sorted.
  - intros m Hm. apply in_map_iff in Hm. destruct Hm as (p & <- & Hp).
    apply firstn_In in Hp.
    apply (Permutation_in _ (sort_desc_perm _ _ _)) in Hp.
    apply filter_In in Hp. destruct Hp as [Hp Hmust].
    exists p. split; [exact Hp|]. split; [reflexivity|].
    intros t Ht Htr.
    pose proof (must_optional "memory_type" mt _ Hmust t Ht Htr) as H.
    cbn in H. now inversion H.
Qed.

Lemma get_recent_memories_sound_witness :
  exists ms,
    fst (get_recent_memories Fixture.env0 Sample.by_length 2
           (Some "preference") Sample.w3) = Returned ms /\
    map id ms = ["n"; "o"] /\
    List.length ms <= 2 /\
    sorted_desc (fun m => Sample.by_length (timestamp m)) ms /\
    forall m, In m ms ->
      exists p, In p (points Sample.w3) /\ payload p = m /\
        (forall t, Some "preference" = Some t -> truthy t = true ->
                   memory_type m = t).
Proof.
  eexists. split; [vm_compute; reflexivity|].
  split; [reflexivity|].
  eapply (get_recent_memories_sound Fixture.env0 Sample.by_length 2
            (Some "preference") Sample.w3).
  vm_compute. reflexivity.
Defined.

(** X15. Recent memories are listed whatever their status. With healthy
    services and a limit that covers the store, [get_recent_memories]
    returns the payload of every stored point of the requested type (of
    every stored point when no type is given): completed, archived and
    superseded records are listed too. *)
Theorem get_recent_memories_complete (E : env) (instant : string -> Q)
    (limit : nat) (mt : option string) (w : world) :
  healthy E -> List.length (points w) <= limit ->
  exists ms w',
    get_recent_memories E instant limit mt w = (Returned ms, w') /\
    forall p, In p (points w) ->
      (forall t, mt = Some t -> truthy t = true ->
                 memory_type (payload p) = t) ->
      In (payload p) ms.
Proof.
  intros Hup Hlen. unfold get_recent_memories, qdrant_scroll_ordered, bind.
  rewrite (ensure_served E Hup), (http_served E Hup).
  cbn [get_points ret bump points tick].
  eexists. eexists. split; [reflexivity|].
  intros p Hp Hty. apply in_map.
  match goal with
  | |- In p (firstn limit (sort_desc ?k ?l)) =>
      assert (Hl : List.length (sort_desc k l) <= limit);
      [rewrite (Permutation_length (sort_desc_perm _ k l));
       eapply Nat.le_trans; [apply filter_length_le|exact Hlen]|];
      rewrite (firstn_all2 _ Hl);
      apply (Permutation_in _ (Permutation_sym (sort_desc_perm _ k l)))
  end.
  apply filter_In. split; [exact Hp|].
  destruct mt as [t|]; [|reflexivity].
  destruct (truthy t) eqn:Ht; [|reflexivity].
  unfold must, holds. cbn. rewrite (Hty t eq_refl Ht).
  now rewrite String.eqb_refl.
Qed.

Lemma get_recent_memories_complete_witness :
  exists ms w',
    get_recent_memories Fixture.env0 Sample.by_length 10 (Some "preference")
      Sample.w3 = (Returned ms, w') /\
    In (payload Sample.old_point) ms /\
    status (payload Sample.old_point) = "superseded".
Proof.
  destruct (get_recent_memories_complete Fixture.env0 Sample.by_length 10
              (Some "preference") Sample.w3) as (ms & w' & Hr & Hall).
  - intros b n. reflexivity.
  - simpl. lia.
  - exists ms, w'. split; [exact Hr|]. split; [|reflexivity].
    apply Hall.
    + left. reflexivity.
    + intros t Ht _. inversion Ht. reflexivity.
Defined.

(** *** The [record] tool *)

Lemma firstn_prefix_length {A : Type} (ws : list A) (l : list (option A)) :
  map Some ws = firstn (List.length ws) l -> List.length ws <= List.length l.
Proof.
  intros H. apply (f_equal (@List.length _)) in H.
  rewrite length_map, length_firstn in H. lia.
Qed.

(** The entity loop sends its statements in order and stops at the first
    item without a name or the first statement the store turns down. *)
Lemma record_entities_prefix (graph_up : nat -> bool) (ents : list entity_arg) :
  forall names g res g',
  record_entities graph_up ents names g = (res, g') ->
  exists ws,
    accepted g' = accepted g ++ ws /\
    map Some ws = firstn (List.length ws) (map entity_write ents) /\
    forall names', res = inl names' ->
      List.length ws = List.length ents /\
      names' = names ++ map write_label ws.
Proof.
  induction ents as [|e rest IH]; intros names g res g' Hr;
    cbn [record_entities] in Hr.
  - inversion Hr; subst. exists []. rewrite !app_nil_r.
    split; [reflexivity|]. split; [reflexivity|].
    intros names' Hn. inversion Hn. split; reflexivity.
  - destruct (ent_name e) as [n|] eqn:Hn.
    + unfold graph_run in Hr.
      destruct (graph_up (sent g)).
      * destruct (IH _ _ _ _ Hr) as (ws & Hacc & Hpre & Hok).
        exists (EntityWrite n (get_or "Unknown" (ent_type e)) :: ws).
        cbn [accepted] in Hacc. rewrite Hacc, <- app_assoc.
        split; [reflexivity|]. split.
        -- cbn [map List.length firstn]. unfold entity_write at 1.
           rewrite Hn. now rewrite Hpre.
        -- intros names' Hres. destruct (Hok names' Hres) as [Hlen ->].
           cbn [List.length map write_label]. rewrite Hlen, <- app_assoc.
           split; reflexivity.
      * inversion Hr; subst. exists []. cbn [accepted]. rewrite app_nil_r.
        repeat split; discriminate.
    + inversion Hr; subst. exists []. rewrite app_nil_r.
      repeat split; discriminate.
Qed.

Lemma record_facts_prefix (graph_up : nat -> bool) (fs : list fact_arg) :
  forall lines g res g',
  record_facts graph_up fs lines g = (res, g') ->
  exists ws,
    accepted g' = accepted g ++ ws /\
    map Some ws = firstn (List.length ws) (map fact_write fs) /\
    forall lines', res = inl lines' ->
      List.length ws = List.length fs /\
      lines' = lines ++ map write_label ws.
Proof.
  induction fs as [|f rest IH]; intros lines g res g' Hr;
    cbn [record_facts] in Hr.
  - inversion Hr; subst. exists []. rewrite !app_nil_r.
    split; [reflexivity|]. split; [reflexivity|].
    intros lines' Hn. inversion Hn. split; reflexivity.
  - destruct (fact_subject f) as [s|] eqn:Hs;
      [|inversion Hr; subst; exists []; rewrite app_nil_r;
        repeat split; discriminate].
    destruct (fact_predicate f) as [p|] eqn:Hp;
      [|inversion Hr; subst; exists []; rewrite app_nil_r;
        repeat split; discriminate].
    destruct (fact_object f) as [o|] eqn:Ho;
      [|inversion Hr; subst; exists []; rewrite app_nil_r;
        repeat split; discriminate].
    unfold graph_run in Hr.
    destruct (graph_up (sent g)).
    + destruct (IH _ _ _ _ Hr) as (ws & Hacc & Hpre & Hok).
      exists (FactWrite s p o :: ws).
      cbn [accepted] in Hacc. rewrite Hacc, <- app_assoc.
      split; [reflexivity|]. split.
      * cbn [map List.length firstn]. unfold fact_write at 1.
        rewrite Hs, Hp, Ho. now rewrite Hpre.
      * intros lines' Hres. destruct (Hok lines' Hres) as [Hlen ->].
        cbn [List.length map write_label]. rewrite Hlen, <- app_assoc.
        split; reflexivity.
    + inversion Hr; subst. exists []. cbn [accepted]. rewrite app_nil_r.
      repeat split; discriminate.
Qed.

(** X16. [record] is not transactional. Whatever the services answer, the
    memory store ends exactly as [add_memory] left it, also when the tool
    answers with the error object; and the graph statements accepted are a
    prefix of the intended ones (entities first, then facts, in order): a
    missing key or a failed statement stops the loop, undoes nothing and
    leaves the rest unsent.  A result is returned only when every statement
    went through, and then it lists them all. *)
Theorem record_is_not_transactional (E : env) (graph_up : nat -> bool)
    (args : record_args) (w w1 : world) (g g1 : graph_state)
    (ans : tool_text record_result) :
  call_tool_record E graph_up args (w, g) = (ans, (w1, g1)) ->
  w1 = match rec_content args with
       | Some c =>
           snd (add_memory E c (get_or "insight" (rec_memory_type args))
                  "normal" "conversation" None None true 0.85%Q w)
       | None => w
       end /\
  exists ws,
    accepted g1 = accepted g ++ ws /\
    map Some ws = firstn (List.length ws) (intended_writes args) /\
    forall r, ans = Json r ->
      List.length ws = List.length (intended_writes args) /\
      entities_written r ++ facts_written r = map write_label ws.
Proof.
  intros Hr. unfold call_tool_record in Hr.
  assert (Hnone : forall x : world * graph_state,
    x = (w1, g1) -> snd x = g -> forall e t, ans = ErrorJson e t ->
    exists ws,
      accepted g1 = accepted g ++ ws /\
      map Some ws = firstn (List.length ws) (intended_writes args) /\
      forall r, ans = Json r ->
        List.length ws = List.length (intended_writes args) /\
        entities_written r ++ facts_written r = map write_label ws).
  { intros x Hx Hg e t ->. subst x. cbn [snd] in Hg. subst g1.
    exists []. rewrite app_nil_r. repeat split; discriminate. }
  destruct (rec_content args) as [c|];
    [|inversion Hr; subst; split; [reflexivity|];
      now apply (Hnone (w1, g1) eq_refl eq_refl _ _ eq_refl)].
  destruct (add_memory E c _ "normal" "conversation" None None true 0.85%Q w)
    as [[mid|e] w'];
    [|inversion Hr; subst; split; [reflexivity|];
      now apply (Hnone (w1, g1) eq_refl eq_refl _ _ eq_refl)].
  cbn [snd].
  destruct (record_entities graph_up (rec_entities args) [] g)
    as [[names|e] ga] eqn:He.
  - destruct (record_entities_prefix _ _ _ _ _ _ He)
      as (ws1 & Hacc1 & Hpre1 & Hok1).
    destruct (Hok1 names eq_refl) as [Hlen1 Hnames].
    destruct (record_facts graph_up (rec_facts args) [] ga)
      as [[lines|e] gb] eqn:Hf;
      destruct (record_facts_prefix _ _ _ _ _ _ Hf)
        as (ws2 & Hacc2 & Hpre2 & Hok2);
      inversion Hr; subst; (split; [reflexivity|]);
      exists (ws1 ++ ws2); rewrite Hacc2, Hacc1, <- app_assoc;
      (split; [reflexivity|]);
      assert (Hp : map Some (ws1 ++ ws2) =
                   firstn (List.length (ws1 ++ ws2)) (intended_writes args))
        by (unfold intended_writes;
            rewrite map_app, length_app, Hlen1,
              <- (length_map entity_write (rec_entities args)),
              firstn_app_2, Hpre1, Hlen1,
              <- (length_map entity_write (rec_entities args)),
              firstn_all, Hpre2; reflexivity);
      (split; [exact Hp|]).
    + intros r Hj. inversion Hj; subst. cbn [entities_written facts_written].
      destruct (Hok2 lines eq_refl) as [Hlen2 ->].
      unfold intended_writes.
      rewrite !length_app, !length_map, Hlen1, Hlen2, map_app.
      split; reflexivity.
    + discriminate.
  - destruct (record_entities_prefix _ _ _ _ _ _ He)
      as (ws1 & Hacc1 & Hpre1 & _).
    inversion Hr; subst. split; [reflexivity|].
    exists ws1. split; [exact Hacc1|]. split; [|discriminate].
    unfold intended_writes. rewrite firstn_app.
    pose proof (firstn_prefix_length ws1 _ Hpre1) as Hle.
    replace (List.length ws1 - List.length (map entity_write (rec_entities args)))
      with 0 by lia.
    cbn [firstn]. now rewrite app_nil_r.
Qed.

Lemma record_is_not_transactional_witness :
  exists ans w1 g1,
    call_tool_record Fixture.env0 Sample.two_then_down Sample.args
      (Fixture.empty, Sample.g0) = (ans, (w1, g1)) /\
    ans = ErrorJson (BackendError TransportError) "record" /\
    List.length (points w1) = 1 /\
    accepted g1 = [EntityWrite "Editor" "System"; EntityWrite "Theme" "Unknown"] /\
    w1 = snd (add_memory Fixture.env0 "Prefer dark mode" "preference" "normal"
                "conversation" None None true 0.85%Q Fixture.empty).
Proof.
  eexists. eexists. eexists.
  split; [vm_compute; reflexivity|].
  split; [reflexivity|]. split; [reflexivity|]. split; [reflexivity|].
  eapply (record_is_not_transactional Fixture.env0 Sample.two_then_down
            Sample.args Fixture.empty _ Sample.g0).
  vm_compute. reflexivity.
Defined.

Lemma record_entities_all (graph_up : nat -> bool) (ents : list entity_arg) :
  (forall n, graph_up n = true) ->
  forall ews names g,
  map entity_write ents = map Some ews ->
  record_entities graph_up ents names g =
  (inl (names ++ map write_label ews),
   mkGraphState (accepted g ++ ews) (sent g + List.length ews)).
Proof.
  intros Hup. induction ents as [|e rest IH]; intros ews names g Hw.
  - destruct ews; [|discriminate]. cbn. rewrite !app_nil_r, Nat.add_0_r.
    now destruct g.
  - destruct ews as [|x ews]; [discriminate|].
    cbn [map] in Hw. injection Hw as Hx Hrest.
    unfold entity_write in Hx. cbn [record_entities].
    destruct (ent_name e) as [n|]; [|discriminate].
    injection Hx as <-. unfold graph_run. rewrite Hup.
    rewrite (IH ews _ _ Hrest). cbn [accepted sent map write_label List.length].
    rewrite <- !app_assoc. cbn [app]. now rewrite Nat.add_succ_r.
Qed.

Lemma record_facts_all (graph_up : nat -> bool) (fs : list fact_arg) :
  (forall n, graph_up n = true) ->
  forall fws lines g,
  map fact_write fs = map Some fws ->
  record_facts graph_up fs lines g =
  (inl (lines ++ map write_label fws),
   mkGraphState (accepted g ++ fws) (sent g + List.length fws)).
Proof.
  intros Hup. induction fs as [|f rest IH]; intros fws lines g Hw.
  - destruct fws; [|discriminate]. cbn. rewrite !app_nil_r, Nat.add_0_r.
    now destruct g.
  - destruct fws as [|x fws]; [discriminate|].
    cbn [map] in Hw. injection Hw as Hx Hrest.
    unfold fact_write in Hx. cbn [record_facts].
    destruct (fact_subject f) as [s|]; [|discriminate].
    destruct (fact_predicate f) as [p|]; [|discriminate].
    destruct (fact_object f) as [o|]; [|discriminate].
    injection Hx as <-. unfold graph_run. rewrite Hup.
    rewrite (IH fws _ _ Hrest). cbn [accepted sent map write_label List.length].
    rewrite <- !app_assoc. cbn [app]. now rewrite Nat.add_succ_r.
Qed.

(** X17. A [record] call that meets no failure. When the memory write
    returns an id, every entity has a name, every fact its three parts, and
    the graph store accepts every statement, the tool answers with that id,
    the entity names and the facts as ["subject predicate object"], in the
    order given; the graph store has received one statement per entity (of
    type ["Unknown"] when none is given) and then one per fact. *)
Theorem record_writes_everything (E : env) (graph_up : nat -> bool)
    (args : record_args) (w w' : world) (g : graph_state) (c mid : string)
    (ews fws : list graph_write) :
  rec_content args = Some c ->
  add_memory E c (get_or "insight" (rec_memory_type args)) "normal"
    "conversation" None None true 0.85%Q w = (Returned mid, w') ->
  (forall n, graph_up n = true) ->
  map entity_write (rec_entities args) = map Some ews ->
  map fact_write (rec_facts args) = map Some fws ->
  call_tool_record E graph_up args (w, g) =
  (Json (mkRecordResult mid (map write_label ews) (map write_label fws)),
   (w', mkGraphState (accepted g ++ ews ++ fws)
          (sent g + List.length ews + List.length fws))).
Proof.
  intros Hc Hadd Hup He Hf. unfold call_tool_record.
  rewrite Hc, Hadd.
  rewrite (record_entities_all graph_up _ Hup ews [] g He).
  rewrite (record_facts_all graph_up _ Hup fws [] _ Hf).
  cbn [accepted sent app]. now rewrite <- app_assoc.
Qed.

Lemma record_writes_everything_witness :
  call_tool_record Fixture.env0 (fun _ => true) Sample.args
    (Fixture.empty, Sample.g0) =
  (Json (mkRecordResult "mem-4" ["Editor"; "Theme"] ["Editor USES Theme"]),
   (snd (add_memory Fixture.env0 "Prefer dark mode" "preference" "normal"
           "conversation" None None true 0.85%Q Fixture.empty),
    mkGraphState
      [EntityWrite "Editor" "System"; EntityWrite "Theme" "Unknown";
       FactWrite "Editor" "USES" "Theme"] 3)).
Proof.
  apply (record_writes_everything Fixture.env0 (fun _ => true) Sample.args
           Fixture.empty _ Sample.g0 "Prefer dark mode" "mem-4"
           [EntityWrite "Editor" "System"; EntityWrite "Theme" "Unknown"]
           [FactWrite "Editor" "USES" "Theme"]).
  - reflexivity.
  - vm_compute. reflexivity.
  - reflexivity.
  - reflexivity.
  - reflexivity.
Defined.

(** *** The store invariant *)

(** X18. The store stays well formed. Starting from the empty collection,
    point ids stay unique and every payload carries the id of its point
    through any [add_memory] and any [update_memory], whatever the services
    answer; so a lookup by payload id (as [update_memory] does) and a
    lookup by point id always agree. *)
Theorem store_stays_well_formed (E : env) (w : world) :
  wf_store (points w) ->
  (forall c mt imp src tg sup dedup thr,
     wf_store (points (snd (add_memory E c mt imp src tg sup dedup thr w)))) /\
  (forall a c s i sb,
     wf_store (points (snd (update_memory E a c s i sb w)))) /\
  (forall a,
     firstn 1 (filter (fun p => must [("id", a)] (payload p)) (points w)) =
     match lookup a (points w) with Some p => [p] | None => [] end).
Proof.
  intros Hwf. split; [|split].
  - intros c mt imp src tg sup dedup thr.
    destruct (add_memory E c mt imp src tg sup dedup thr w) as [o w'] eqn:Hr.
    cbn [snd].
    destruct (add_memory_written E c mt imp src tg sup dedup thr w w' o
                Hwf Hr)
      as [->|[(hit & pt & t & i' & _ & Hl & ->)
             |(n & t & ps1 & Hps1 & Hfin)]].
    + exact Hwf.
    + now apply wf_patch.
    + cbn zeta in Hps1, Hfin.
      assert (Hwf1 : wf_store ps1).
      { destruct Hps1 as [->| ->]; [exact Hwf|].
        apply wf_upsert; [exact Hwf|reflexivity]. }
      destruct Hfin as [->|(old & pt & t' & _ & _ & Hl & ->)]; [exact Hwf1|].
      now apply wf_patch.
  - intros a c s i sb.
    destruct (update_memory_written E a c s i sb w Hwf)
      as [->|(pt & t & Hl & ->)]; [exact Hwf|].
    now apply wf_patch.
  - intros a. apply scroll_by_id. apply Hwf.
Qed.

Lemma store_stays_well_formed_witness :
  wf_store
    (points
       (snd (add_memory Fixture.env_index_refuses "Prefer dark mode"
               "preference" "normal" "conversation" None (Some "o") true
               0.85%Q
               (mkWorld
                  (points
                     (snd (add_memory Fixture.env0 "Use a dark theme"
                             "preference" "normal" "conversation" None None
                             true 0.85%Q Fixture.empty))) 0)))).
Proof.
  apply store_stays_well_formed.
  apply (store_stays_well_formed Fixture.env0 Fixture.empty).
  apply wf_store_nil.
Defined.
